(** * Verification of [routing.js]: safe-route computation

    A shallow embedding of [haversine], [pointInPolygon] and
    [computeSafeRoute] (with its inner functions [closestNode], [edgeCost]
    and [extractMin]) and of the node map that the route handler of
    [index.js] passes to it, together with the properties of the route
    computation that the specification states and further properties of
    the code.

    Modelling conventions.
    - A JavaScript number is a value of [num]: [NaN], the two infinities, or
      a finite value carried as an exact rational.  The special values
      follow IEEE 754 / ECMAScript ([Infinity - Infinity] is [NaN], every
      comparison with [NaN] is false, ...).  Rounding of finite results,
      their overflow to an infinity and the sign of zero are not modelled;
      a property that holds only in the absence of overflow is stated for
      magnitudes within [range_bound].
    - [Math.sin], [Math.cos], [Math.sqrt], [Math.atan2] and [Math.PI] are
      supplied by the host ([JSMath]); ECMAScript leaves their values to
      the implementation.
    - A JavaScript object used as a map is an association list in property
      creation order ([obj]); enumeration follows the language's own-key
      order (array-index keys ascending, then the others in creation
      order).  The members inherited from [Object.prototype]
      ([inherited]) are found by the reads [trafficMap[e]] and [nodes[k]]
      of [edgeCost] ([read_score], [truthy_member]); in a comparison an
      inherited member counts as [NaN], like [undefined].  The key
      ["__proto__"] is never created by an assignment: [add_traffic] and
      [load_node] skip it, and the maps keyed by node id ([dist], [prev],
      [adj]) are modelled for node ids other than ["__proto__"].
    - A field that may be absent ([undefined] / [null]) is an [option].
      Flood records and polygon vertices are objects: a [null] among
      them, on which the code throws, is outside the model.
    - The two [while] loops run under an iteration bound ([fuel]); a call
      ends in a [completion]: a returned value, a [TypeError], or the bound.
      [computeSafeRoute_total] shows that the bound is never reached. *)

From Stdlib Require Import String Ascii List ZArith QArith Bool Lia Lqa.
From Stdlib Require Import Permutation Sorting.Sorted.
Import ListNotations.

Set Implicit Arguments.

Local Open Scope Q_scope.

(** ** JavaScript numbers *)

Inductive num : Type :=
| NaN
| Infinity
| NegInfinity
| Fin (q : Q).

Definition Qltb (x y : Q) : bool :=
  match x ?= y with Lt => true | _ => false end.

(** Unary minus. *)
Definition num_neg (x : num) : num :=
  match x with
  | NaN => NaN
  | Infinity => NegInfinity
  | NegInfinity => Infinity
  | Fin q => Fin (- q)
  end.

(** [x + y]. *)
Definition num_add (x y : num) : num :=
  match x, y with
  | NaN, _ | _, NaN => NaN
  | Infinity, NegInfinity | NegInfinity, Infinity => NaN
  | Infinity, _ | _, Infinity => Infinity
  | NegInfinity, _ | _, NegInfinity => NegInfinity
  | Fin a, Fin b => Fin (a + b)
  end.

(** [x - y]. *)
Definition num_sub (x y : num) : num := num_add x (num_neg y).

(** The infinity that a product or quotient with the is_finite, non-zero
    factor [q] turns [Infinity] into. *)
Definition inf_of_sign (q : Q) : num :=
  if Qltb 0 q then Infinity else NegInfinity.

(** [x * y]. *)
Definition num_mul (x y : num) : num :=
  match x, y with
  | NaN, _ | _, NaN => NaN
  | Infinity, Infinity | NegInfinity, NegInfinity => Infinity
  | Infinity, NegInfinity | NegInfinity, Infinity => NegInfinity
  | Infinity, Fin q | Fin q, Infinity =>
      if Qeq_bool q 0 then NaN else inf_of_sign q
  | NegInfinity, Fin q | Fin q, NegInfinity =>
      if Qeq_bool q 0 then NaN else num_neg (inf_of_sign q)
  | Fin a, Fin b => Fin (a * b)
  end.

(** [x / y]; a zero divisor is taken as [+0]. *)
Definition num_div (x y : num) : num :=
  match x, y with
  | NaN, _ | _, NaN => NaN
  | (Infinity | NegInfinity), (Infinity | NegInfinity) => NaN
  | Fin _, (Infinity | NegInfinity) => Fin 0
  | Infinity, Fin q => if Qltb q 0 then NegInfinity else Infinity
  | NegInfinity, Fin q => if Qltb q 0 then Infinity else NegInfinity
  | Fin a, Fin b =>
      if Qeq_bool b 0
      then (if Qeq_bool a 0 then NaN else inf_of_sign a)
      else Fin (a / b)
  end.

(** [x < y]. *)
Definition num_lt (x y : num) : bool :=
  match x, y with
  | NaN, _ | _, NaN => false
  | _, NegInfinity => false
  | NegInfinity, _ => true
  | Infinity, _ => false
  | Fin _, Infinity => true
  | Fin a, Fin b => Qltb a b
  end.

(** [x > y]. *)
Definition num_gt (x y : num) : bool := num_lt y x.

(** [x <= y]. *)
Definition num_le (x y : num) : bool :=
  match x, y with
  | NaN, _ | _, NaN => false
  | NegInfinity, _ => true
  | _, Infinity => true
  | _, NegInfinity => false
  | Infinity, _ => false
  | Fin a, Fin b => Qle_bool a b
  end.

(** [x === y] on numbers. *)
Definition strict_eq (x y : num) : bool :=
  match x, y with
  | Infinity, Infinity | NegInfinity, NegInfinity => true
  | Fin a, Fin b => Qeq_bool a b
  | _, _ => false
  end.

(** ToBoolean on a number: [0] and [NaN] are falsy. *)
Definition ToBoolean (x : num) : bool :=
  match x with
  | NaN => false
  | Fin q => negb (Qeq_bool q 0)
  | _ => true
  end.

(** A number that is neither [NaN] nor infinite. *)
Definition is_finite (x : num) : bool :=
  match x with Fin _ => true | _ => false end.

(** [0 <= x], infinity included. *)
Definition is_nonneg (x : num) : bool := num_le (Fin 0) x.

(** A number that is not below zero: non-negative, [Infinity] or [NaN]. *)
Definition not_negative (x : num) : bool := negb (num_lt x (Fin 0)).

Declare Scope num_scope.
Delimit Scope num_scope with num.
Bind Scope num_scope with num.
Infix "+" := num_add : num_scope.
Infix "-" := num_sub : num_scope.
Infix "*" := num_mul : num_scope.
Infix "/" := num_div : num_scope.
Infix "<?" := num_lt : num_scope.
Infix ">?" := num_gt : num_scope.
Infix "<=?" := num_le : num_scope.
Infix "===" := strict_eq (at level 70, no associativity) : num_scope.
Notation "0" := (Fin 0) : num_scope.
Notation "1" := (Fin 1) : num_scope.
Notation "2" := (Fin 2) : num_scope.
Notation "5" := (Fin 5) : num_scope.
Notation "180" := (Fin 180) : num_scope.

Local Open Scope string_scope.
Local Open Scope list_scope.

(** ** JavaScript objects used as maps, and sets of strings *)

(** The array index that a property key denotes, if any: a canonical
    decimal numeral below [2^32 - 1]. *)
Definition digit_of (c : ascii) : option N :=
  let n := N_of_ascii c in
  if ((48 <=? n) && (n <=? 57))%N then Some (n - 48)%N else None.

Fixpoint digits_value (s : string) (acc : N) : option N :=
  match s with
  | EmptyString => Some acc
  | String c s' =>
      match digit_of c with
      | Some d => digits_value s' (10 * acc + d)%N
      | None => None
      end
  end.

Definition array_index (s : string) : option N :=
  match s with
  | EmptyString => None
  | String c s' =>
      if Ascii.eqb c "0"%char
      then (match s' with EmptyString => Some 0%N | _ => None end)
      else match digits_value s 0 with
           | Some n => if (n <? 4294967295)%N then Some n else None
           | None => None
           end
  end.

Section Objects.

Variable V : Type.

(** Properties in creation order; the keys of an object are distinct. *)
Definition obj : Type := list (string * V).

(** [o[k]]; [None] is [undefined]. *)
Fixpoint get (k : string) (o : obj) : option V :=
  match o with
  | [] => None
  | (k', v) :: o' => if String.eqb k k' then Some v else get k o'
  end.

(** [o[k] = v]: an existing property keeps its place, a new one is
    created last. *)
Fixpoint set (k : string) (v : V) (o : obj) : obj :=
  match o with
  | [] => [(k, v)]
  | (k', v') :: o' =>
      if String.eqb k k' then (k, v) :: o' else (k', v') :: set k v o'
  end.

Fixpoint insert_by_index (i : N) (e : string * V)
         (l : list (N * (string * V))) : list (N * (string * V)) :=
  match l with
  | [] => [(i, e)]
  | (j, e') :: l' =>
      if (i <? j)%N then (i, e) :: l else (j, e') :: insert_by_index i e l'
  end.

(** The properties whose key is an array index, in ascending order. *)
Fixpoint index_entries (o : obj) : list (N * (string * V)) :=
  match o with
  | [] => []
  | (k, v) :: o' =>
      match array_index k with
      | Some i => insert_by_index i (k, v) (index_entries o')
      | None => index_entries o'
      end
  end.

(** The other properties, in creation order. *)
Definition named_entries (o : obj) : obj :=
  filter (fun e => match array_index (fst e) with
                   | Some _ => false
                   | None => true
                   end) o.

(** Own-property enumeration order. *)
Definition ownEntries (o : obj) : obj :=
  map snd (index_entries o) ++ named_entries o.

(** The keys visited by [for (const k in o)]. *)
Definition ownKeys (o : obj) : list string := map fst (ownEntries o).

(** [Object.values(o)]. *)
Definition values (o : obj) : list V := map snd (ownEntries o).

End Objects.

(** The object with the same keys and every value rewritten by [f]. *)
Definition map_values {V W : Type} (f : V -> W) (o : obj V) : obj W :=
  map (fun e => (fst e, f (snd e))) o.

(** A [Set] of strings, in insertion order. *)
Definition strset : Type := list string.

Definition set_has (s : strset) (k : string) : bool :=
  existsb (String.eqb k) s.

Definition set_add (s : strset) (k : string) : strset :=
  if set_has s k then s else s ++ [k].

(** The position of [k] in insertion order; the size of the set when [k]
    is not a member. *)
Fixpoint index_of (k : string) (s : strset) : nat :=
  match s with
  | [] => O
  | k' :: s' => if String.eqb k k' then O else S (index_of k s')
  end.

(** [x ?? y]. *)
Definition nullish {A : Type} (x : option A) (y : A) : A :=
  match x with Some a => a | None => y end.

(** [x ?? y] where [y] may itself be missing. *)
Definition nullish_opt {A : Type} (x y : option A) : option A :=
  match x with Some a => Some a | None => y end.

(** [l || []] for an array that may be missing. *)
Definition or_empty {A : Type} (l : option (list A)) : list A :=
  match l with Some l => l | None => [] end.

(** ToBoolean on a string: only the empty string is falsy. *)
Definition truthy_string (s : string) : bool :=
  negb (String.eqb s "").

(** The names of the members that an object literal inherits from
    [Object.prototype].  For such a [k], reading [o[k]] on an object [o]
    without a property of its own under [k] finds the inherited member:
    a function or, for [__proto__], the prototype itself. *)
Definition inherited_names : list string :=
  ["__proto__"; "constructor"; "hasOwnProperty"; "isPrototypeOf";
   "propertyIsEnumerable"; "toLocaleString"; "toString"; "valueOf";
   "__defineGetter__"; "__defineSetter__"; "__lookupGetter__";
   "__lookupSetter__"].

Definition inherited (k : string) : bool :=
  existsb (String.eqb k) inherited_names.

(** ToNumber on a number that may be [undefined]. *)
Definition to_number (x : option num) : num :=
  match x with Some n => n | None => NaN end.

(** ** Data *)

Record Point : Type := mkPoint { lat : num; lng : num }.

(** A neighbour reference: a plain id, or an object exposing [id]. *)
Inductive NeighborRef : Type :=
| RefId (s : string)
| RefObj (id : string).

Record Node : Type := mkNode {
  id : string;
  n_lat : num;
  n_lng : num;
  neighbors : option (list NeighborRef)
}.

Record TrafficRecord : Type := mkTraffic {
  edgeId : option string;
  congestionScore : option num;
  score : option num
}.

(** A flood record: an object whose [polygon] is not an array ([None])
    or an array of objects carrying [lat] and [lng].  A [null] record or a
    [null] vertex, on which the code throws a [TypeError] as soon as it
    reads a field of it, has no counterpart in this type: the model covers
    flood lists without them. *)
Record FloodZone : Type := mkFlood {
  polygon : option (list Point);
  severity : option num
}.

(** An element [{lat, lng, id}] of the returned path. *)
Record PathEntry : Type := mkEntry {
  p_lat : num;
  p_lng : num;
  p_id : string
}.

(** The returned object; [distance_m = None] when the object has no such
    field, [start = None] when the field is [null]. *)
Record RouteResult : Type := mkResult {
  path : list PathEntry;
  start : option string;
  end_ : option string;
  distance_m : option num
}.

(** How a call ends: it returns, it throws a [TypeError] (a property read
    on [undefined]), or the model's iteration bound was reached. *)
Inductive completion (A : Type) : Type :=
| Returns (a : A)
| Throws
| OutOfFuel.
Arguments Throws {A}.
Arguments OutOfFuel {A}.

Definition point_of (n : Node) : Point := mkPoint (n_lat n) (n_lng n).

(** ** The host's [Math] object *)

Class JSMath : Type := {
  Math_PI : num;
  Math_sin : num -> num;
  Math_cos : num -> num;
  Math_sqrt : num -> num;
  Math_atan2 : num -> num -> num
}.

Local Open Scope num_scope.

Section Routing.

Context {M : JSMath}.

(** *** [haversine] *)

Definition toRad (x : num) : num := (x * Math_PI) / 180.

(** [x ** 2]. *)
Definition pow2 (x : num) : num := x * x.

Definition haversine (a b : Point) : num :=
  let R := Fin 6371000 in
  let dLat := toRad (lat b - lat a) in
  let dLon := toRad (lng b - lng a) in
  let lat1 := toRad (lat a) in
  let lat2 := toRad (lat b) in
  let A := pow2 (Math_sin (dLat / 2)) +
           Math_cos lat1 * Math_cos lat2 *
           pow2 (Math_sin (dLon / 2)) in
  R * 2 * Math_atan2 (Math_sqrt A) (Math_sqrt (1 - A)).

(** *** [pointInPolygon] *)

(** The loop body, for vertex [vi] and the vertex [vj] before it. *)
Definition intersect (x y : num) (vi vj : Point) : bool :=
  let xi := lng vi in
  let yi := lat vi in
  let xj := lng vj in
  let yj := lat vj in
  negb (Bool.eqb (yi >? y) (yj >? y)) &&
  (x <? ((xj - xi) * (y - yi)) / (yj - yi) + xi).

(** The [for] loop: [vj] is [polygon[j]], [rest] the vertices from index
    [i] on. *)
Fixpoint ray_cast (x y : num) (vj : Point) (rest : list Point)
         (inside : bool) : bool :=
  match rest with
  | [] => inside
  | vi :: rest' =>
      ray_cast x y vi rest'
               (if intersect x y vi vj then negb inside else inside)
  end.

Definition pointInPolygon (point : Point) (polygon : option (list Point))
  : bool :=
  match polygon with
  | None => false
  | Some vs =>
      if (length vs <? 3)%nat then false
      else ray_cast (lng point) (lat point)
                    (last vs (mkPoint NaN NaN)) vs false
  end.

(** *** [computeSafeRoute]: the traffic map *)

(** [t.congestionScore ?? t.score ?? 0]. *)
Definition stored_score (t : TrafficRecord) : num :=
  nullish (nullish_opt (congestionScore t) (score t)) 0.

(** The loop body: [if (!t || !t.edgeId) continue; trafficMap[...] = ...].
    An assignment to [trafficMap["__proto__"]] reaches the setter inherited
    from [Object.prototype], which ignores a number: no property is
    created. *)
Definition add_traffic (trafficMap : obj num) (t : option TrafficRecord)
  : obj num :=
  match t with
  | None => trafficMap
  | Some t =>
      match edgeId t with
      | None => trafficMap
      | Some e =>
          if truthy_string e
          then (if String.eqb e "__proto__" then trafficMap
                else set e (stored_score t) trafficMap)
          else trafficMap
      end
  end.

Definition buildTrafficMap
           (trafficList : option (list (option TrafficRecord))) : obj num :=
  fold_left add_traffic (or_empty trafficList) [].

(** *** [closestNode] *)

Definition closer (point : Point) (acc : option Node * num) (n : Node)
  : option Node * num :=
  let d := haversine point (mkPoint (n_lat n) (n_lng n)) in
  if d <? snd acc then (Some n, d) else acc.

Definition closestNode (nodeArray : list Node) (point : Point)
  : option Node :=
  fst (fold_left (closer point) nodeArray (None, Infinity)).

(** *** Adjacency and the initial search state *)

Definition neighbor_id (m : NeighborRef) : string :=
  match m with RefId s => s | RefObj i => i end.

Definition buildAdj (nodeArray : list Node) : obj (list string) :=
  fold_left
    (fun adj n => set (id n) (map neighbor_id (or_empty (neighbors n))) adj)
    nodeArray [].

Record SearchState : Type := mkState {
  dist : obj num;
  prev : obj (option string);
  visited : strset
}.

Definition init_node (st : SearchState) (n : Node) : SearchState :=
  mkState (set (id n) Infinity (dist st))
          (set (id n) None (prev st))
          (visited st).

Definition initState (nodeArray : list Node) (startId : string)
  : SearchState :=
  let st := fold_left init_node nodeArray (mkState [] [] []) in
  mkState (set startId 0 (dist st)) (prev st) (visited st).

(** *** [edgeCost] *)

(** [f.severity || 1]. *)
Definition severity_or_1 (f : FloodZone) : num :=
  match severity f with
  | Some s => if ToBoolean s then s else 1
  | None => 1
  end.

Definition flood_penalty (mid : Point) (base : num) (f : FloodZone) : num :=
  if pointInPolygon mid (polygon f)
  then base * (1 + 5 * severity_or_1 f)
  else base.

(** [{ lat: (a.lat + b.lat) / 2, lng: (a.lng + b.lng) / 2 }]. *)
Definition midpoint (a b : Node) : Point :=
  mkPoint ((n_lat a + n_lat b) / 2) ((n_lng a + n_lng b) / 2).

(** [trafficMap[e]], as the number it stands for in [1 + 2 * traffic]:
    the score stored under [e]; else, for an inherited name, the member
    found on [Object.prototype], which is not nullish and whose number
    value is [NaN]; else [None] for [undefined]. *)
Definition read_score (trafficMap : obj num) (e : string) : option num :=
  match get e trafficMap with
  | Some x => Some x
  | None => if inherited e then Some NaN else None
  end.

(** [trafficMap[e1] ?? trafficMap[e2] ?? 0] for the two spellings of the
    edge key. *)
Definition edge_traffic (trafficMap : obj num) (aId bId : string) : num :=
  let e1 := (aId ++ "_" ++ bId)%string in
  let e2 := (bId ++ "_" ++ aId)%string in
  nullish (nullish_opt (read_score trafficMap e1) (read_score trafficMap e2))
          0.

(** [nodes[k]] is truthy: a node stored under [k], or a member inherited
    under that name. *)
Definition truthy_member (n : option Node) (k : string) : bool :=
  match n with Some _ => true | None => inherited k end.

(** [edgeCost(aId, bId)].  When [nodes[aId]] or [nodes[bId]] is an
    inherited member, the guard [!a || !b] does not fire and [lat] and
    [lng] of that member are [undefined]: every argument that [haversine]
    passes to [Math] is then [NaN], for which ECMAScript fixes the result
    [NaN], and no later factor changes a [NaN] cost. *)
Definition edgeCost (nodes : obj Node) (trafficMap : obj num)
           (floodsList : option (list FloodZone)) (aId bId : string) : num :=
  match get aId nodes, get bId nodes with
  | Some a, Some b =>
      let base := haversine (point_of a) (point_of b) in
      let traffic := edge_traffic trafficMap aId bId in
      let base := base * (1 + 2 * traffic) in
      let mid := midpoint a b in
      fold_left (flood_penalty mid) (or_empty floodsList) base
  | a, b =>
      if truthy_member a aId && truthy_member b bId then NaN else Infinity
  end.

(** *** [extractMin] *)

Definition pick_min (st : SearchState) (best : option string)
           (k : string) : option string :=
  if set_has (visited st) k then best
  else match best with
       | None => Some k
       | Some b =>
           if to_number (get k (dist st)) <? to_number (get b (dist st))
           then Some k else best
       end.

Definition extractMin (st : SearchState) : option string :=
  fold_left (pick_min st) (ownKeys (dist st)) None.

(** *** The search loop *)

Section Search.

Variable nodes : obj Node.
Variable trafficMap : obj num.
Variable floodsList : option (list FloodZone).
Variable adj : obj (list string).
Variable endId : string.

(** The body of [for (const v of adj[u] || [])]. *)
Definition relax (u : string) (st : SearchState) (v : string)
  : SearchState :=
  if set_has (visited st) v then st
  else
    let alt := to_number (get u (dist st)) +
               edgeCost nodes trafficMap floodsList u v in
    if alt <? to_number (get v (dist st))
    then mkState (set v alt (dist st)) (set v (Some u) (prev st))
                 (visited st)
    else st.

(** One iteration that does not [break]: mark [u], relax its edges. *)
Definition visit (u : string) (st : SearchState) : SearchState :=
  fold_left (relax u) (or_empty (get u adj))
            (mkState (dist st) (prev st) (set_add (visited st) u)).

(** [while (true) { ... }], at most [fuel] iterations; [None] when the
    bound is reached before a [break]. *)
Fixpoint search (fuel : nat) (st : SearchState) : option SearchState :=
  match fuel with
  | O => None
  | S fuel' =>
      match extractMin st with
      | None => Some st
      | Some u =>
          if String.eqb u endId then Some st
          else search fuel' (visit u st)
      end
  end.

End Search.

(** *** Path reconstruction *)

(** [while (cur) { path.unshift(nodes[cur]); cur = prev[cur]; }], where
    [cur] is [None] for [null] or [undefined]. *)
Fixpoint reconstruct (fuel : nat) (nodes : obj Node)
         (prev : obj (option string)) (cur : option string)
         (path : list (option Node)) : option (list (option Node)) :=
  match fuel with
  | O => None
  | S fuel' =>
      match cur with
      | None => Some path
      | Some c =>
          if truthy_string c
          then reconstruct fuel' nodes prev
                           (nullish (get c prev) None)
                           (get c nodes :: path)
          else Some path
      end
  end.

(** [path.map((n) => ({ lat: n.lat, lng: n.lng, id: n.id }))]; reading a
    field of [undefined] throws. *)
Fixpoint path_entries (path : list (option Node))
  : option (list PathEntry) :=
  match path with
  | [] => Some []
  | None :: _ => None
  | Some n :: rest =>
      match path_entries rest with
      | Some es => Some (mkEntry (n_lat n) (n_lng n) (id n) :: es)
      | None => None
      end
  end.

(** *** [computeSafeRoute] *)

Definition computeSafeRoute (nodes : obj Node)
           (trafficList : option (list (option TrafficRecord)))
           (floodsList : option (list FloodZone))
           (srcPoint dstPoint : Point) : completion RouteResult :=
  let trafficMap := buildTrafficMap trafficList in
  let nodeArray := values nodes in
  match closestNode nodeArray srcPoint, closestNode nodeArray dstPoint with
  | Some start, Some end_ =>
      let adj := buildAdj nodeArray in
      let st0 := initState nodeArray (id start) in
      match search nodes trafficMap floodsList adj (id end_)
                   (S (length nodeArray)) st0 with
      | None => OutOfFuel
      | Some st =>
          let cur := id end_ in
          if to_number (get cur (dist st)) === Infinity
          then Returns (mkResult [] (Some (id start)) (Some (id end_)) None)
          else
            match reconstruct (S (length nodeArray)) nodes (prev st)
                              (Some cur) [] with
            | None => OutOfFuel
            | Some path =>
                match path_entries path with
                | None => Throws
                | Some entries =>
                    Returns (mkResult entries (Some (id start))
                                      (Some (id end_))
                                      (Some (to_number
                                               (get (id end_) (dist st)))))
                end
            end
      end
  | _, _ => Returns (mkResult [] None None None)
  end.

End Routing.

(** ** A reference [Math] for running the model

    Rational approximations of the transcendental functions, good to a few
    digits over the range of geographic coordinates.  They serve to
    evaluate the definitions on concrete road graphs; every general theorem
    below holds for any [JSMath]. *)

Module RefMath.

Local Open Scope Q_scope.

Definition pi : Q := 3141592653589793 # 1000000000000000.

(** Truncation to 18 decimal places, to keep the numerals small. *)
Definition trunc (q : Q) : Q :=
  Qred (((Qnum q * 1000000000000000000) / Zpos (Qden q))%Z
        # 1000000000000000000).

Definition sinQ (x : Q) : Q :=
  trunc (x - x * x * x / 6 + x * x * x * x * x / 120).

Definition cosQ (x : Q) : Q :=
  trunc (1 - x * x / 2 + x * x * x * x / 24).

Definition sqrtQ (x : Q) : Q :=
  Qred (Z.sqrt ((Qnum x * 1000000000000000000000000000000)
                / Zpos (Qden x))%Z
        # 1000000000000000).

Definition atanQ (t : Q) : Q :=
  if Qle_bool (- (1)) t && Qle_bool t 1
  then trunc (t / (1 + (28 # 100) * t * t))
  else trunc ((if Qltb 0 t then pi / 2 else - (pi / 2))
              - t / (t * t + (28 # 100))).

Definition atan2Q (y x : Q) : Q :=
  if Qltb 0 x then atanQ (y / x)
  else if Qltb x 0
       then (if Qltb y 0 then atanQ (y / x) - pi else atanQ (y / x) + pi)
       else if Qltb 0 y then pi / 2
            else if Qltb y 0 then - (pi / 2) else 0.

Definition sin (x : num) : num :=
  match x with Fin q => Fin (sinQ q) | _ => NaN end.

Definition cos (x : num) : num :=
  match x with Fin q => Fin (cosQ q) | _ => NaN end.

Definition sqrt (x : num) : num :=
  match x with
  | Fin q => if Qltb q 0 then NaN else Fin (sqrtQ q)
  | Infinity => Infinity
  | _ => NaN
  end.

Definition atan2 (y x : num) : num :=
  match y, x with
  | NaN, _ | _, NaN => NaN
  | Fin a, Fin b => Fin (atan2Q a b)
  | Fin a, Infinity => Fin 0
  | Fin a, NegInfinity => Fin (if Qltb a 0 then - pi else pi)
  | Infinity, Fin _ => Fin (pi / 2)
  | NegInfinity, Fin _ => Fin (- (pi / 2))
  | Infinity, Infinity => Fin (pi / 4)
  | NegInfinity, Infinity => Fin (- (pi / 4))
  | Infinity, NegInfinity => Fin (3 * pi / 4)
  | NegInfinity, NegInfinity => Fin (- (3 * pi / 4))
  end.

Definition math : JSMath :=
  {| Math_PI := Fin pi;
     Math_sin := sin;
     Math_cos := cos;
     Math_sqrt := sqrt;
     Math_atan2 := atan2 |}.

End RefMath.

(** ** Vocabulary of the properties *)

Unset Implicit Arguments.

(** What every state of the loop satisfies, for the destination [endId]
    and the key list [K] of the initial [dist]: the keys never change, the
    visited nodes are distinct keys other than the destination, and a
    predecessor was visited before the node it leads to. *)
Record search_inv (endId : string) (K : list string) (st : SearchState)
  : Prop := {
  inv_dist_keys : map fst (dist st) = K;
  inv_prev_keys : map fst (prev st) = K;
  inv_visited_keys : incl (visited st) K;
  inv_visited_nodup : NoDup (visited st);
  inv_end_unvisited : ~ In endId (visited st);
  inv_prev_earlier :
    forall v u, get v (prev st) = Some (Some u) ->
                (index_of u (visited st) < index_of v (visited st))%nat
}.

(** The states the search passes through from [st0]: the start, and what
    marking a node visited or relaxing an edge makes of such a state. *)
Inductive tentative {M : JSMath} (nodes : obj Node) (trafficMap : obj num)
          (floodsList : option (list FloodZone)) (st0 : SearchState)
  : SearchState -> Prop :=
| tentative_start : tentative nodes trafficMap floodsList st0 st0
| tentative_mark (st : SearchState) (u : string) :
    tentative nodes trafficMap floodsList st0 st ->
    tentative nodes trafficMap floodsList st0
              (mkState (dist st) (prev st) (set_add (visited st) u))
| tentative_relax (st : SearchState) (u v : string) :
    tentative nodes trafficMap floodsList st0 st ->
    tentative nodes trafficMap floodsList st0
              (relax nodes trafficMap floodsList u st v).

(** Every entry of [dist] is non-negative ([Infinity] included). *)
Definition dist_nonneg (st : SearchState) : Prop :=
  forall k x, get k (dist st) = Some x -> is_nonneg x = true.

(** A number that is finite and not below zero. *)
Definition finite_nonneg (x : num) : bool :=
  match x with Fin q => Qle_bool 0 q | _ => false end.

(** A magnitude far inside the range of the doubles, whose largest value
    lies just below [2 ^ 1024]: the sum of two numbers within it, and the
    multipliers [1 + 2 * x] and [1 + 5 * x] of a number [x] within it, are
    finite doubles.  Finite results are modelled without overflow, so a
    property that holds only while none occurs is stated for numbers
    within this magnitude. *)
Definition range_bound : Q := 2 ^ 1000.

Definition in_range (x : num) : bool :=
  match x with
  | Fin q => Qle_bool (- range_bound) q && Qle_bool q range_bound
  | _ => false
  end.

(** Every zone's effective severity lies within [range_bound]. *)
Definition severities_in_range (floods : list FloodZone) : bool :=
  forallb (fun f => in_range (severity_or_1 f)) floods.

(** Every score that a record of the traffic list carries lies within
    [range_bound]. *)
Definition scores_in_range
           (trafficList : option (list (option TrafficRecord))) : bool :=
  forallb (fun t => match t with
                    | Some t => in_range (stored_score t)
                    | None => true
                    end)
          (or_empty trafficList).

(** No node is stored under the key ["__proto__"], under which
    [dist[id] = ...] would reach the inherited setter instead of creating
    a property. *)
Definition plain_keys (nodes : obj Node) : bool :=
  forallb (fun e => negb (String.eqb (fst e) "__proto__")) nodes.

(** Every zone's effective severity is finite and not below zero. *)
Definition severities_finite_nonneg (floods : list FloodZone) : bool :=
  forallb (fun f => finite_nonneg (severity_or_1 f)) floods.

(** No record of the traffic list carries a negative score. *)
Definition scores_not_negative
           (trafficList : option (list (option TrafficRecord))) : bool :=
  forallb (fun t => match t with
                    | Some t => not_negative (stored_score t)
                    | None => true
                    end)
          (or_empty trafficList).

(** No flood zone carries a negative severity. *)
Definition severities_not_negative (floodsList : option (list FloodZone))
  : bool :=
  forallb (fun f => not_negative (severity_or_1 f)) (or_empty floodsList).

(** [haversine] is not negative between any two nodes of the map. *)
Definition distances_not_negative {M : JSMath} (nodes : obj Node) : bool :=
  forallb (fun a =>
             forallb (fun b => not_negative (haversine (point_of (snd a))
                                                       (point_of (snd b))))
                     nodes)
          nodes.

(** The node with the neighbour references rejected by [keep] deleted. *)
Definition drop_refs (keep : string -> bool) (n : Node) : Node :=
  mkNode (id n) (n_lat n) (n_lng n)
         (option_map (filter (fun m => keep (neighbor_id m))) (neighbors n)).

(** The node map with those references deleted from every node. *)
Definition prune (keep : string -> bool) (nodes : obj Node) : obj Node :=
  map_values (drop_refs keep) nodes.

(** Every property of the node map is stored under the id of its node, as
    the caller builds it ([nodes[doc.id] = { id: doc.id, ... }]). *)
Definition well_keyed (nodes : obj Node) : bool :=
  forallb (fun e => String.eqb (fst e) (id (snd e))) nodes.

(** ** Sample road graphs

    Three nodes on a line near the coordinates of the README's example
    request, used to evaluate the definitions. *)

Module Sample.

Definition dec (n : Z) (d : positive) : num := Fin (n # d).

Definition pA : Point := mkPoint (dec 302679 10000) (dec 779950 10000).
Definition pB : Point := mkPoint (dec 302720 10000) (dec 779970 10000).
Definition pC : Point := mkPoint (dec 302762 10000) (dec 779991 10000).

Definition node (i : string) (p : Point) (ns : list string) : Node :=
  mkNode i (lat p) (lng p) (Some (map RefId ns)).

(** The line A - B - C. *)
Definition line : obj Node :=
  [("A", node "A" pA ["B"]);
   ("B", node "B" pB ["A"; "C"]);
   ("C", node "C" pC ["B"])].

(** A and C with no road between them. *)
Definition apart : obj Node :=
  [("A", node "A" pA []); ("C", node "C" pC [])].

(** The line with the empty string as the id of its first node. *)
Definition line_anon : obj Node :=
  [("", node "" pA ["B"]);
   ("B", node "B" pB [""; "C"]);
   ("C", node "C" pC ["B"])].

(** The line with [NaN] as the latitude of its middle node. *)
Definition line_nan : obj Node :=
  [("A", node "A" pA ["B"]);
   ("B", node "B" (mkPoint NaN (lng pB)) ["A"; "C"]);
   ("C", node "C" pC ["B"])].

(** A single node whose id is the empty string. *)
Definition lone_anon : obj Node := [("", node "" pA [])].

(** The line, with B also listing a node that does not exist. *)
Definition line_dangling : obj Node :=
  [("A", node "A" pA ["B"; "Z"]);
   ("B", node "B" pB ["A"; "Z"; "C"]);
   ("C", node "C" pC ["B"])].

(** A square around all three nodes. *)
Definition square : list Point :=
  [mkPoint (dec 3026 100) (dec 7799 100);
   mkPoint (dec 3026 100) (dec 7800 100);
   mkPoint (dec 3028 100) (dec 7800 100);
   mkPoint (dec 3028 100) (dec 7799 100)].

Definition zone (s : option num) : FloodZone := mkFlood (Some square) s.

Definition jam (e : string) (s : num) : option TrafficRecord :=
  Some (mkTraffic (Some e) (Some s) None).

End Sample.

(** ** Vocabulary of the further properties *)

(** [haversine] from the query point to a node, as [closestNode] takes
    it. *)
Definition snap_distance {M : JSMath} (point : Point) (n : Node) : num :=
  haversine point (mkPoint (n_lat n) (n_lng n)).

(** [dist[k]] read as a number. *)
Definition dist_of (st : SearchState) (k : string) : num :=
  to_number (get k (dist st)).

(** The last id of the walk that starts at [u] and goes on through
    [rest]. *)
Fixpoint walk_end (u : string) (rest : list string) : string :=
  match rest with
  | [] => u
  | v :: rest' => walk_end v rest'
  end.

(** Each id of [rest] is listed among the neighbours of the id before it,
    starting from [u]. *)
Fixpoint follows_adj (adj : obj (list string)) (u : string)
         (rest : list string) : bool :=
  match rest with
  | [] => true
  | v :: rest' => set_has (or_empty (get u adj)) v && follows_adj adj v rest'
  end.

(** The edge costs along the walk, added to [acc] from the left, in the
    order in which the search adds them. *)
Fixpoint walk_cost {M : JSMath} (nodes : obj Node) (trafficMap : obj num)
         (floodsList : option (list FloodZone)) (acc : num) (u : string)
         (rest : list string) : num :=
  match rest with
  | [] => acc
  | v :: rest' =>
      walk_cost nodes trafficMap floodsList
                (acc + edgeCost nodes trafficMap floodsList u v) v rest'
  end.

(** Every edge of the walk has a finite cost that is not negative. *)
Fixpoint costs_finite_nonneg {M : JSMath} (nodes : obj Node)
         (trafficMap : obj num) (floodsList : option (list FloodZone))
         (u : string) (rest : list string) : bool :=
  match rest with
  | [] => true
  | v :: rest' =>
      finite_nonneg (edgeCost nodes trafficMap floodsList u v) &&
      costs_finite_nonneg nodes trafficMap floodsList v rest'
  end.

(** What the search keeps true of its state, beyond [search_inv]: the
    start holds distance [0] and no predecessor and is the first node
    visited; distances are numbers; a predecessor is a visited node with a
    finite distance that lists the node as a neighbour, and the node's
    distance is the predecessor's plus the cost of the edge; a node without
    predecessor is the start or still at [Infinity]; no walk of finite
    non-negative edge costs from the start to a visited node is cheaper
    than that node's distance; and every edge from a visited node to an
    unvisited one has been relaxed, those set aside by [ok] apart. *)
Record route_inv {M : JSMath} (nodes : obj Node) (trafficMap : obj num)
       (floodsList : option (list FloodZone)) (adj : obj (list string))
       (startId : string) (K : list string)
       (ok : string -> string -> Prop) (st : SearchState) : Prop := {
  ri_start_dist : get startId (dist st) = Some 0;
  ri_start_prev : get startId (prev st) = Some None;
  ri_start_first :
    In startId (visited st) \/
    forall k, In k K -> k <> startId -> get k (dist st) = Some Infinity;
  ri_numbers : forall k, In k K -> dist_of st k <> NaN;
  ri_pred :
    forall v u, get v (prev st) = Some (Some u) ->
                In u (visited st) /\
                set_has (or_empty (get u adj)) v = true /\
                dist_of st u <> Infinity /\
                get v (dist st)
                = Some (dist_of st u +
                        edgeCost nodes trafficMap floodsList u v);
  ri_no_pred :
    forall v, get v (prev st) = Some None ->
              v = startId \/ get v (dist st) = Some Infinity;
  ri_settled :
    forall rest,
      In (walk_end startId rest) (visited st) ->
      follows_adj adj startId rest = true ->
      costs_finite_nonneg nodes trafficMap floodsList startId rest = true ->
      (walk_cost nodes trafficMap floodsList 0 startId rest
       <? dist_of st (walk_end startId rest)) = false;
  ri_edges :
    forall x y, In x (visited st) ->
                set_has (or_empty (get x adj)) y = true ->
                ~ In y (visited st) -> ok x y ->
                (dist_of st x + edgeCost nodes trafficMap floodsList x y
                 <? dist_of st y) = false
}.

(** No node is stored under the empty string, the one id that the loop
    condition [while (cur)] takes for the end of the chain. *)
Definition ids_truthy (nodes : obj Node) : bool :=
  forallb (fun e => truthy_string (fst e)) nodes.

(** Each id of [rest] has the id before it as its predecessor, starting
    from [t]. *)
Fixpoint linked (prv : obj (option string)) (t : string)
         (rest : list string) : Prop :=
  match rest with
  | [] => True
  | v :: rest' => get v prv = Some (Some t) /\ linked prv v rest'
  end.

(** ** A sample road graph with a choice of ways

    The three nodes of the line, with a direct road between A and C as
    well. *)

Module Detour.

Definition triangle : obj Node :=
  [("A", Sample.node "A" Sample.pA ["B"; "C"]);
   ("B", Sample.node "B" Sample.pB ["A"; "C"]);
   ("C", Sample.node "C" Sample.pC ["A"; "B"])].

(** The line, with A also listing a reference named like a member that
    every object inherits. *)
Definition line_inherited : obj Node :=
  [("A", Sample.node "A" Sample.pA ["B"; "constructor"]);
   ("B", Sample.node "B" Sample.pB ["A"; "C"]);
   ("C", Sample.node "C" Sample.pC ["B"])].

(** The line with ids whose first edge key, ["_" + "_" + "proto__"], is
    ["__proto__"]. *)
Definition line_proto : obj Node :=
  [("_", Sample.node "_" Sample.pA ["proto__"]);
   ("proto__", Sample.node "proto__" Sample.pB ["_"; "C"]);
   ("C", Sample.node "C" Sample.pC ["proto__"])].

(** Heavy traffic on the direct road. *)
Definition jams : option (list (option TrafficRecord)) :=
  Some [Sample.jam "A_C" (Fin 1)].

(** A search state with four keys, the first of them visited. *)
Definition midway : SearchState :=
  mkState [("A", Fin 0); ("B", Fin 7); ("C", Fin 5); ("D", Fin 5)]
          [("A", None); ("B", Some "A"); ("C", Some "A"); ("D", Some "A")]
          ["A"].

End Detour.

(** [!Array.isArray(polygon) || polygon.length < 3], the first test of
    [pointInPolygon], on the polygon of a zone. *)
Definition malformed_polygon (f : FloodZone) : bool :=
  match polygon f with
  | None => true
  | Some vs => (length vs <? 3)%nat
  end.

(** The record is filed under one of the two spellings of the edge
    between [aId] and [bId]. *)
Definition concerns (aId bId : string) (t : option TrafficRecord) : bool :=
  match t with
  | Some t =>
      match edgeId t with
      | Some e =>
          String.eqb e (aId ++ "_" ++ bId) || String.eqb e (bId ++ "_" ++ aId)
      | None => false
      end
  | None => false
  end.

(** ** The caller: the node map of the route handler ([index.js])

    A road document of the data store: its id, and the fields [lat],
    [lng] and [neighbors] of its data.  As for [Node], [neighbors] is
    missing or an array of strings and of objects with a string [id]. *)
Record RoadDoc : Type := mkRoad {
  doc_id : string;
  d_lat : num;
  d_lng : num;
  d_neighbors : option (list NeighborRef)
}.

(** [typeof n === "string" ? n : (n.id || n)]. *)
Definition normalize_ref (n : NeighborRef) : NeighborRef :=
  match n with
  | RefId s => RefId s
  | RefObj i => if truthy_string i then RefId i else RefObj i
  end.

(** [{ id: doc.id, lat: d.lat, lng: d.lng, neighbors }], with
    [neighbors = (d.neighbors || []).map(...)]. *)
Definition node_of_doc (doc : RoadDoc) : Node :=
  mkNode (doc_id doc) (d_lat doc) (d_lng doc)
         (Some (map normalize_ref (or_empty (d_neighbors doc)))).

(** The body of [roadsSnap.forEach(doc => ...)]:
    [nodes[doc.id] = { id: doc.id, ... }].  Under the id ["__proto__"] the
    assignment reaches the inherited setter: it creates no property and
    makes the new node the prototype of [nodes].  The map is not followed
    beyond that point; what is stated of it is stated for documents of
    other ids ([plain_doc_ids]), the only ones the data store admits. *)
Definition load_node (nodes : obj Node) (doc : RoadDoc) : obj Node :=
  if String.eqb (doc_id doc) "__proto__" then nodes
  else set (doc_id doc) (node_of_doc doc) nodes.

(** No document has the id ["__proto__"]. *)
Definition plain_doc_ids (docs : list RoadDoc) : bool :=
  forallb (fun d => negb (String.eqb (doc_id d) "__proto__")) docs.

Definition loadNodes (docs : list RoadDoc) : obj Node :=
  fold_left load_node docs [].

(** The road documents of the triangle; B lists one neighbour as an
    object. *)
Module Store.

Definition roads : list RoadDoc :=
  [mkRoad "A" (lat Sample.pA) (lng Sample.pA) (Some [RefId "B"; RefId "C"]);
   mkRoad "B" (lat Sample.pB) (lng Sample.pB) (Some [RefObj "A"; RefId "C"]);
   mkRoad "C" (lat Sample.pC) (lng Sample.pC) None].

End Store.

(** * Properties *)

(** ** Numbers *)

Lemma Qltb_lt (a b : Q) : Qltb a b = true <-> (a < b)%Q.
Proof.
  unfold Qltb, Qlt. rewrite <- Z.compare_lt_iff.
  change (Qnum a * QDen b ?= Qnum b * QDen a)%Z with (a ?= b)%Q.
  destruct (a ?= b)%Q; split; congruence.
Qed.

Lemma Qltb_ge (a b : Q) : Qltb a b = false <-> (b <= a)%Q.
Proof.
  split; intros H.
  - apply Qnot_lt_le. intros L. apply Qltb_lt in L. congruence.
  - destruct (Qltb a b) eqn:E; trivial.
    apply Qltb_lt in E. apply Qle_not_lt in H. contradiction.
Qed.

Lemma Qeq_bool_false (a b : Q) : Qeq_bool a b = false <-> ~ (a == b)%Q.
Proof.
  split; intros H.
  - intros E. apply Qeq_eq_bool in E. congruence.
  - destruct (Qeq_bool a b) eqn:E; trivial.
    apply Qeq_bool_eq in E. contradiction.
Qed.

Lemma Q_mul_1_r (q : Q) : (q * 1)%Q = q.
Proof.
  destruct q as [n d]. unfold Qmult. simpl.
  now rewrite Z.mul_1_r, Pos.mul_1_r.
Qed.

Lemma Q_add_0_l (q : Q) : (0 + q)%Q = q.
Proof.
  destruct q as [n d]. unfold Qplus. simpl.
  now rewrite Z.mul_1_r.
Qed.

Lemma num_mul_1_r (x : num) : x * 1 = x.
Proof.
  destruct x; simpl; trivial. now rewrite Q_mul_1_r.
Qed.

Lemma num_add_0_l (x : num) : 0 + x = x.
Proof.
  destruct x; simpl; trivial. now rewrite Q_add_0_l.
Qed.

Lemma num_lt_Infinity_l (x : num) : (Infinity <? x) = false.
Proof. now destruct x. Qed.

Lemma num_lt_NaN_l (x : num) : (NaN <? x) = false.
Proof. reflexivity. Qed.

Lemma num_lt_NaN_r (x : num) : (x <? NaN) = false.
Proof. now destruct x. Qed.

Lemma num_add_Infinity_r (x : num) :
  x + Infinity = Infinity \/ x + Infinity = NaN.
Proof. destruct x; simpl; auto. Qed.

Lemma not_negative_cases (x : num) :
  not_negative x = true <->
  x = NaN \/ x = Infinity \/ exists q, x = Fin q /\ (0 <= q)%Q.
Proof.
  unfold not_negative. destruct x; simpl; split; intros H; auto;
    try discriminate.
  - destruct H as [H | [H | [q [H _]]]]; discriminate.
  - right; right. exists q. split; trivial.
    apply Qltb_ge. now destruct (Qltb q 0).
  - destruct H as [H | [H | [q' [H L]]]]; try discriminate.
    injection H as ->. apply Qltb_ge in L. now rewrite L.
Qed.

Lemma is_nonneg_cases (x : num) :
  is_nonneg x = true <->
  x = Infinity \/ exists q, x = Fin q /\ (0 <= q)%Q.
Proof.
  unfold is_nonneg. destruct x; simpl; split; intros H; auto;
    try discriminate.
  - destruct H as [H | [q [H _]]]; discriminate.
  - destruct H as [H | [q [H _]]]; discriminate.
  - right. exists q. split; trivial. now apply Qle_bool_iff.
  - destruct H as [H | [q' [H L]]]; try discriminate.
    injection H as ->. now apply Qle_bool_iff.
Qed.

Lemma not_negative_add (x y : num) :
  not_negative x = true -> not_negative y = true ->
  not_negative (x + y) = true.
Proof.
  rewrite !not_negative_cases.
  intros [-> | [-> | [a [-> Ha]]]] [-> | [-> | [b [-> Hb]]]]; simpl; auto.
  right; right. exists (a + b)%Q. split; trivial. lra.
Qed.

Lemma not_negative_mul (x y : num) :
  not_negative x = true -> not_negative y = true ->
  not_negative (x * y) = true.
Proof.
  rewrite !not_negative_cases.
  intros [-> | [-> | [a [-> Ha]]]] [-> | [-> | [b [-> Hb]]]]; simpl; auto.
  - destruct (Qeq_bool b 0) eqn:E; auto.
    apply Qeq_bool_false in E. unfold inf_of_sign.
    assert (L : (0 < b)%Q) by (apply Qle_lt_or_eq in Hb;
      destruct Hb as [Hb | Hb]; trivial; symmetry in Hb; contradiction).
    apply Qltb_lt in L. rewrite L. auto.
  - destruct (Qeq_bool a 0) eqn:E; auto.
    apply Qeq_bool_false in E. unfold inf_of_sign.
    assert (L : (0 < a)%Q) by (apply Qle_lt_or_eq in Ha;
      destruct Ha as [Ha | Ha]; trivial; symmetry in Ha; contradiction).
    apply Qltb_lt in L. rewrite L. auto.
  - right; right. exists (a * b)%Q. split; trivial.
    now apply Qmult_le_0_compat.
Qed.

Lemma is_nonneg_not_negative (x : num) :
  is_nonneg x = true -> not_negative x = true.
Proof.
  rewrite is_nonneg_cases, not_negative_cases. tauto.
Qed.

Lemma not_negative_lt_is_nonneg (x y : num) :
  not_negative x = true -> (x <? y) = true -> is_nonneg x = true.
Proof.
  rewrite is_nonneg_cases, not_negative_cases.
  intros [-> | [-> | H]] L; auto.
  - discriminate.
Qed.

(** ** Objects *)

Section ObjectFacts.

Variable V : Type.
Implicit Types (o : obj V) (k : string) (v : V).

Lemma get_set_same k v o : get k (set k v o) = Some v.
Proof.
  induction o as [| [k' v'] o IH]; simpl.
  - now rewrite String.eqb_refl.
  - destruct (String.eqb k k') eqn:E; simpl.
    + now rewrite String.eqb_refl.
    + now rewrite E.
Qed.

Lemma get_set_other k k' v o : k <> k' -> get k (set k' v o) = get k o.
Proof.
  intros N. apply String.eqb_neq in N.
  induction o as [| [k2 v2] o IH]; simpl.
  - now rewrite N.
  - destruct (String.eqb k' k2) eqn:E; simpl.
    + apply String.eqb_eq in E. subst k2. now rewrite N.
    + now rewrite IH.
Qed.

Lemma get_Some_In k v o : get k o = Some v -> In (k, v) o.
Proof.
  induction o as [| [k' v'] o IH]; simpl; try discriminate.
  destruct (String.eqb_spec k k') as [-> | N].
  - intros [= ->]. now left.
  - auto.
Qed.

Lemma get_None_keys k o : get k o = None <-> ~ In k (map fst o).
Proof.
  induction o as [| [k' v'] o IH]; simpl.
  - tauto.
  - destruct (String.eqb_spec k k') as [-> | N].
    + split; [discriminate | tauto].
    + rewrite IH. intuition congruence.
Qed.

Lemma get_keys k o : In k (map fst o) -> exists v, get k o = Some v.
Proof.
  intros I. destruct (get k o) as [v |] eqn:E; eauto.
  apply get_None_keys in E. contradiction.
Qed.

Lemma keys_set_present k v o :
  In k (map fst o) -> map fst (set k v o) = map fst o.
Proof.
  induction o as [| [k' v'] o IH]; simpl; [tauto |].
  destruct (String.eqb_spec k k') as [-> | N]; simpl; trivial.
  intros [E | I]; [now symmetry in E |]. now rewrite IH.
Qed.

Lemma keys_set_absent k v o :
  ~ In k (map fst o) -> map fst (set k v o) = map fst o ++ [k].
Proof.
  induction o as [| [k' v'] o IH]; simpl; trivial.
  destruct (String.eqb_spec k k') as [-> | N]; simpl; [tauto |].
  intros H. rewrite IH; tauto.
Qed.

(** Enumeration order is a rearrangement of creation order. *)

Lemma insert_by_index_perm i (e : string * V) l :
  Permutation (insert_by_index i e l) ((i, e) :: l).
Proof.
  induction l as [| [j e'] l IH]; simpl; trivial.
  destruct (i <? j)%N; trivial.
  rewrite IH. apply perm_swap.
Qed.

Lemma ownEntries_perm o : Permutation (ownEntries o) o.
Proof.
  unfold ownEntries, named_entries.
  induction o as [| [k v] o IH]; simpl; trivial.
  destruct (array_index k); simpl.
  - rewrite insert_by_index_perm. simpl. now constructor.
  - rewrite <- Permutation_middle. now constructor.
Qed.

Lemma ownKeys_perm o : Permutation (ownKeys o) (map fst o).
Proof. unfold ownKeys. apply Permutation_map, ownEntries_perm. Qed.

Lemma values_perm o : Permutation (values o) (map snd o).
Proof. unfold values. apply Permutation_map, ownEntries_perm. Qed.

Lemma In_ownKeys k o : In k (ownKeys o) <-> In k (map fst o).
Proof.
  split; apply Permutation_in;
    [ | apply Permutation_sym ]; apply ownKeys_perm.
Qed.

Lemma length_values o : length (values o) = length o.
Proof.
  rewrite (Permutation_length (values_perm o)). apply length_map.
Qed.

End ObjectFacts.

(** Reading [k] after a write at [k']: the two keys are equal or not. *)
Ltac get_set_cases k k' :=
  destruct (string_dec k k') as [-> | ?];
  [ rewrite get_set_same | rewrite get_set_other by trivial ].

(** Rewriting every value of an object leaves the enumeration order
    alone. *)
Section ObjectMap.

Variables (V W : Type) (f : V -> W).

Lemma get_map_values k o :
  get k (map_values f o) = option_map f (get k o).
Proof.
  induction o as [| [k' v] o IH]; simpl; trivial.
  destruct (String.eqb k k'); trivial.
Qed.

Lemma insert_by_index_map i e l :
  insert_by_index i (fst e, f (snd e))
    (map (fun p => (fst p, (fst (snd p), f (snd (snd p))))) l) =
  map (fun p => (fst p, (fst (snd p), f (snd (snd p)))))
      (insert_by_index i e l).
Proof.
  induction l as [| [j e'] l IH]; simpl; trivial.
  destruct (i <? j)%N; simpl; trivial. now rewrite IH.
Qed.

Lemma index_entries_map o :
  index_entries (map_values f o) =
  map (fun p => (fst p, (fst (snd p), f (snd (snd p))))) (index_entries o).
Proof.
  induction o as [| [k v] o IH]; simpl; trivial.
  destruct (array_index k); trivial.
  rewrite IH. apply (insert_by_index_map n (k, v)).
Qed.

Lemma ownEntries_map o :
  ownEntries (map_values f o) = map_values f (ownEntries o).
Proof.
  unfold ownEntries.
  change (map_values f (map snd (index_entries o) ++ named_entries o))
    with (map (fun e : string * V => (fst e, f (snd e)))
              (map snd (index_entries o) ++ named_entries o)).
  rewrite map_app. f_equal.
  - rewrite index_entries_map, !map_map. reflexivity.
  - unfold named_entries, map_values.
    induction o as [| [k v] o IH]; simpl; trivial.
    destruct (array_index k); simpl; trivial. now rewrite IH.
Qed.

Lemma values_map o : values (map_values f o) = map f (values o).
Proof.
  unfold values. rewrite ownEntries_map. unfold map_values.
  rewrite !map_map. reflexivity.
Qed.

End ObjectMap.

(** ** Sets of strings *)

Lemma set_has_In (s : strset) (k : string) : set_has s k = true <-> In k s.
Proof.
  unfold set_has. rewrite existsb_exists. split.
  - intros [x [I E]]. apply String.eqb_eq in E. now subst.
  - intros I. exists k. split; trivial. apply String.eqb_refl.
Qed.

Lemma set_has_not_In (s : strset) (k : string) :
  set_has s k = false <-> ~ In k s.
Proof.
  rewrite <- set_has_In. destruct (set_has s k); intuition congruence.
Qed.

Lemma index_of_le (k : string) (s : strset) : (index_of k s <= length s)%nat.
Proof.
  induction s as [| k' s IH]; simpl; trivial.
  destruct (String.eqb k k'); lia.
Qed.

Lemma index_of_In (k : string) (s : strset) :
  (index_of k s < length s)%nat <-> In k s.
Proof.
  induction s as [| k' s IH]; simpl.
  - split; [lia | tauto].
  - destruct (String.eqb_spec k k') as [-> | N].
    + split; [auto | lia].
    + rewrite <- IH. split; [intros H; right; lia | intros [E | H]; [congruence | lia]].
Qed.

Lemma index_of_not_In (k : string) (s : strset) :
  ~ In k s -> index_of k s = length s.
Proof.
  intros N. pose proof (index_of_le k s) as L.
  destruct (Nat.eq_dec (index_of k s) (length s)) as [E | D]; trivial.
  exfalso. apply N, index_of_In. lia.
Qed.

Lemma index_of_app_In (k : string) (s t : strset) :
  In k s -> index_of k (s ++ t) = index_of k s.
Proof.
  induction s as [| k' s IH]; simpl; [tauto |].
  destruct (String.eqb_spec k k') as [-> | N]; trivial.
  intros [E | I]; [congruence |]. now rewrite IH.
Qed.

Lemma index_of_app_ge (k : string) (s t : strset) :
  ~ In k s -> (length s <= index_of k (s ++ t))%nat.
Proof.
  induction s as [| k' s IH]; simpl; [lia |].
  destruct (String.eqb_spec k k') as [-> | N]; [tauto |].
  intros H. assert (~ In k s) by tauto. apply IH in H0. lia.
Qed.

Lemma length_set_S (V : Type) (k : string) (v : V) (o : obj V) :
  (length (set k v o) <= S (length o))%nat.
Proof.
  induction o as [| [k' v'] o IH]; simpl; [lia |].
  destruct (String.eqb k k'); simpl; lia.
Qed.

(** ** Snapping and the initial state *)

Section RoutingFacts.

Context {M : JSMath}.

Lemma closer_fold_In (p : Point) (l : list Node) (acc : option Node * num)
      (n : Node) :
  fst (fold_left (closer p) l acc) = Some n -> In n l \/ fst acc = Some n.
Proof.
  revert acc. induction l as [| m l IH]; simpl; intros acc H; auto.
  apply IH in H. destruct H as [H | H]; auto.
  unfold closer in H.
  destruct (haversine p (mkPoint (n_lat m) (n_lng m)) <? snd acc); auto.
  simpl in H. injection H as ->. auto.
Qed.

Lemma closestNode_In (l : list Node) (p : Point) (n : Node) :
  closestNode l p = Some n -> In n l.
Proof.
  intros H. apply closer_fold_In in H. destruct H as [H | H]; trivial.
  discriminate.
Qed.

Lemma init_fold_visited (l : list Node) (st : SearchState) :
  visited (fold_left init_node l st) = visited st.
Proof.
  revert st. induction l as [| n l IH]; simpl; intros st; trivial.
  now rewrite IH.
Qed.

Lemma init_fold_keys (l : list Node) (st : SearchState) :
  map fst (dist st) = map fst (prev st) ->
  map fst (dist (fold_left init_node l st)) =
  map fst (prev (fold_left init_node l st)).
Proof.
  revert st. induction l as [| n l IH]; simpl; intros st E; trivial.
  apply IH. simpl.
  destruct (in_dec string_dec (id n) (map fst (dist st))) as [I | I].
  - rewrite !keys_set_present; trivial. now rewrite <- E.
  - rewrite !keys_set_absent; trivial; now rewrite <- E.
Qed.

Lemma init_fold_keys_mono (l : list Node) (st : SearchState) (k : string) :
  In k (map fst (dist st)) ->
  In k (map fst (dist (fold_left init_node l st))).
Proof.
  revert st. induction l as [| n l IH]; simpl; intros st I; trivial.
  apply IH. simpl.
  destruct (in_dec string_dec (id n) (map fst (dist st))) as [J | J].
  - now rewrite keys_set_present.
  - rewrite keys_set_absent by trivial. apply in_or_app. now left.
Qed.

Lemma init_fold_In (l : list Node) (st : SearchState) (n : Node) :
  In n l -> In (id n) (map fst (dist (fold_left init_node l st))).
Proof.
  revert st. induction l as [| m l IH]; simpl; intros st; [tauto |].
  intros [-> | I]; [| now apply IH].
  apply init_fold_keys_mono. simpl.
  destruct (in_dec string_dec (id n) (map fst (dist st))) as [J | J].
  - now rewrite keys_set_present.
  - rewrite keys_set_absent by trivial. apply in_or_app. right. now left.
Qed.

Lemma init_fold_length (l : list Node) (st : SearchState) :
  (length (dist (fold_left init_node l st)) <= length (dist st) + length l)%nat.
Proof.
  revert st. induction l as [| n l IH]; simpl; intros st; [lia |].
  specialize (IH (init_node st n)). simpl in IH.
  pose proof (length_set_S _ (id n) Infinity (dist st)). lia.
Qed.

Lemma init_fold_prev (l : list Node) (st : SearchState) :
  (forall k v, get k (prev st) = Some v -> v = None) ->
  forall k v, get k (prev (fold_left init_node l st)) = Some v -> v = None.
Proof.
  revert st. induction l as [| n l IH]; simpl; intros st H; trivial.
  apply IH. simpl. intros k v.
  get_set_cases k (id n).
  - congruence.
  - apply H.
Qed.

Lemma init_fold_dist (l : list Node) (st : SearchState) :
  (forall k v, get k (dist st) = Some v -> v = Infinity) ->
  forall k v, get k (dist (fold_left init_node l st)) = Some v -> v = Infinity.
Proof.
  revert st. induction l as [| n l IH]; simpl; intros st H; trivial.
  apply IH. simpl. intros k v.
  get_set_cases k (id n).
  - congruence.
  - apply H.
Qed.

(** ** [extractMin] *)

Lemma pick_min_fold (P : string -> Prop) (st : SearchState)
      (l : list string) (best : option string) :
  (forall b, best = Some b -> P b) ->
  (forall k, In k l -> set_has (visited st) k = false -> P k) ->
  forall u, fold_left (pick_min st) l best = Some u -> P u.
Proof.
  revert best. induction l as [| k l IH]; simpl; intros best Hb Hl u H.
  - auto.
  - apply IH in H; trivial; [| intros; apply Hl; auto].
    intros b. unfold pick_min.
    destruct (set_has (visited st) k) eqn:E; [apply Hb |].
    destruct best as [b0 |].
    + destruct (to_number (get k (dist st)) <? to_number (get b0 (dist st))).
      * intros [= <-]. apply Hl; auto.
      * apply Hb.
    + intros [= <-]. apply Hl; auto.
Qed.

Lemma extractMin_unvisited (st : SearchState) (u : string) :
  extractMin st = Some u -> set_has (visited st) u = false.
Proof.
  apply (pick_min_fold (fun k => set_has (visited st) k = false));
    [discriminate | trivial].
Qed.

Lemma extractMin_key (st : SearchState) (u : string) :
  extractMin st = Some u -> In u (map fst (dist st)).
Proof.
  intros H. apply In_ownKeys. revert u H.
  apply pick_min_fold; [discriminate | trivial].
Qed.

Lemma pick_min_fold_Some (st : SearchState) (l : list string) (b : string) :
  fold_left (pick_min st) l (Some b) <> None.
Proof.
  revert b. induction l as [| k l IH]; simpl; intros b; [discriminate |].
  unfold pick_min at 2.
  destruct (set_has (visited st) k); [apply IH |].
  destruct (to_number (get k (dist st)) <? to_number (get b (dist st)));
    apply IH.
Qed.

Lemma pick_min_fold_None (st : SearchState) (l : list string) :
  fold_left (pick_min st) l None = None ->
  forall k, In k l -> set_has (visited st) k = true.
Proof.
  induction l as [| k l IH]; simpl; intros H x; [tauto |].
  unfold pick_min at 2 in H.
  destruct (set_has (visited st) k) eqn:E.
  - intros [<- | I]; auto.
  - now apply pick_min_fold_Some in H.
Qed.

Lemma extractMin_None (st : SearchState) (k : string) :
  extractMin st = None -> In k (map fst (dist st)) ->
  set_has (visited st) k = true.
Proof.
  intros H I. apply (pick_min_fold_None _ _ H). now apply In_ownKeys.
Qed.

End RoutingFacts.

(** ** The search loop: invariant and termination *)

Section SearchFacts.

Context {M : JSMath}.
Variable nodes : obj Node.
Variable trafficMap : obj num.
Variable floodsList : option (list FloodZone).
Variable adj : obj (list string).
Variable endId : string.

Lemma relax_visited (u v : string) (st : SearchState) :
  visited (relax nodes trafficMap floodsList u st v) = visited st.
Proof.
  unfold relax. destruct (set_has (visited st) v); trivial.
  destruct (_ <? _); trivial.
Qed.

Lemma lt_to_number_key (x : num) (k : string) (o : obj num) :
  (x <? to_number (get k o)) = true -> In k (map fst o).
Proof.
  intros H. destruct (get k o) eqn:E.
  - apply get_Some_In in E. now apply (in_map fst) in E.
  - simpl in H. now rewrite num_lt_NaN_r in H.
Qed.

Lemma relax_inv (K : list string) (u v : string) (st : SearchState) :
  search_inv endId K st -> In u (visited st) ->
  search_inv endId K (relax nodes trafficMap floodsList u st v).
Proof.
  intros I Hu. unfold relax.
  destruct (set_has (visited st) v) eqn:Ev; trivial.
  destruct (_ <? _) eqn:Elt; trivial.
  apply lt_to_number_key in Elt.
  destruct I as [Kd Kp Vk Vn Ve Pe].
  constructor; simpl; trivial.
  - now rewrite keys_set_present.
  - rewrite keys_set_present; trivial. now rewrite Kp, <- Kd.
  - intros v' u'. destruct (string_dec v' v) as [-> | N].
    + rewrite get_set_same. intros [= <-].
      apply set_has_not_In in Ev.
      rewrite (index_of_not_In _ _ Ev). now apply index_of_In.
    + rewrite get_set_other by trivial. apply Pe.
Qed.

Lemma relax_fold_inv (K : list string) (u : string) (l : list string)
      (st : SearchState) :
  search_inv endId K st -> In u (visited st) ->
  search_inv endId K (fold_left (relax nodes trafficMap floodsList u) l st).
Proof.
  revert st. induction l as [| v l IH]; simpl; intros st I Hu; trivial.
  apply IH.
  - now apply relax_inv.
  - now rewrite relax_visited.
Qed.

Lemma relax_fold_visited (u : string) (l : list string) (st : SearchState) :
  visited (fold_left (relax nodes trafficMap floodsList u) l st) =
  visited st.
Proof.
  revert st. induction l as [| v l IH]; simpl; intros st; trivial.
  now rewrite IH, relax_visited.
Qed.

Lemma visit_visited (u : string) (st : SearchState) :
  set_has (visited st) u = false ->
  visited (visit nodes trafficMap floodsList adj u st) = visited st ++ [u].
Proof.
  intros H. unfold visit. rewrite relax_fold_visited. simpl.
  unfold set_add. now rewrite H.
Qed.

Lemma visit_inv (K : list string) (u : string) (st : SearchState) :
  search_inv endId K st -> extractMin st = Some u -> u <> endId ->
  search_inv endId K (visit nodes trafficMap floodsList adj u st).
Proof.
  intros I E N.
  pose proof (extractMin_unvisited _ _ E) as Hu.
  pose proof (extractMin_key _ _ E) as Hk.
  unfold visit. apply relax_fold_inv.
  - destruct I as [Kd Kp Vk Vn Ve Pe].
    unfold set_add. rewrite Hu.
    apply set_has_not_In in Hu.
    constructor; simpl; trivial.
    + intros x Hx. apply in_app_or in Hx. destruct Hx as [Hx | [<- | []]].
      * now apply Vk.
      * now rewrite <- Kd.
    + apply NoDup_app; trivial.
      * constructor; [intros [] | constructor].
      * intros x Hx [<- | []]. contradiction.
    + intros Hx. apply in_app_or in Hx. destruct Hx as [Hx | [<- | []]];
        [contradiction | congruence].
    + intros v w Hv. specialize (Pe v w Hv).
      assert (Hw : In w (visited st)).
      { apply index_of_In. pose proof (index_of_le v (visited st)). lia. }
      rewrite (index_of_app_In _ _ _ Hw).
      destruct (in_dec string_dec v (visited st)) as [Iv | Iv].
      * now rewrite (index_of_app_In _ _ _ Iv).
      * pose proof (index_of_app_ge v _ [u] Iv).
        apply index_of_In in Hw. lia.
  - simpl. unfold set_add. rewrite Hu. apply in_or_app. right. now left.
Qed.

(** The loop stops within [length K + 1] iterations, by one of its two
    [break]s. *)
Lemma search_terminates (K : list string) (fuel : nat) (st : SearchState) :
  search_inv endId K st ->
  (length K < fuel + length (visited st))%nat ->
  exists st',
    search nodes trafficMap floodsList adj endId fuel st = Some st' /\
    search_inv endId K st' /\
    (extractMin st' = None \/ extractMin st' = Some endId).
Proof.
  revert st. induction fuel as [| fuel IH]; intros st I L.
  - exfalso.
    pose proof (NoDup_incl_length (inv_visited_nodup _ _ _ I)
                                  (inv_visited_keys _ _ _ I)).
    simpl in L. lia.
  - simpl. destruct (extractMin st) as [u |] eqn:E.
    + destruct (String.eqb_spec u endId) as [-> | N].
      * exists st. auto.
      * apply IH.
        -- now apply visit_inv.
        -- rewrite visit_visited by now apply extractMin_unvisited.
           rewrite length_app. simpl. lia.
    + exists st. auto.
Qed.

End SearchFacts.

(** ** The whole computation never reaches its iteration bounds *)

Section Totality.

Context {M : JSMath}.

Lemma initState_keys_prev (l : list Node) (s : Node) :
  In s l ->
  map fst (prev (initState l (id s))) = map fst (dist (initState l (id s))).
Proof.
  intros I. unfold initState. simpl.
  rewrite keys_set_present by now apply init_fold_In.
  symmetry. now apply init_fold_keys.
Qed.

Lemma initState_key (l : list Node) (startId : string) (n : Node) :
  In n l -> In (id n) (map fst (dist (initState l startId))).
Proof.
  intros I. unfold initState. simpl.
  pose proof (init_fold_In l (mkState [] [] []) n I) as J.
  destruct (in_dec string_dec startId
              (map fst (dist (fold_left init_node l (mkState [] [] [])))))
    as [P | P].
  - now rewrite keys_set_present.
  - rewrite keys_set_absent by trivial. apply in_or_app. now left.
Qed.

Lemma initState_length (l : list Node) (s : Node) :
  In s l ->
  (length (map fst (dist (initState l (id s)))) <= length l)%nat.
Proof.
  intros I. unfold initState. simpl.
  rewrite keys_set_present by now apply init_fold_In.
  rewrite length_map.
  pose proof (init_fold_length l (mkState [] [] [])). simpl in H. lia.
Qed.

Lemma initState_inv (endId : string) (l : list Node) (s : Node) :
  In s l ->
  search_inv endId (map fst (dist (initState l (id s))))
             (initState l (id s)).
Proof.
  intros I. constructor; trivial.
  - now apply initState_keys_prev.
  - unfold initState. simpl. rewrite init_fold_visited. simpl.
    intros x [].
  - unfold initState. simpl. rewrite init_fold_visited. constructor.
  - unfold initState. simpl. rewrite init_fold_visited. intros [].
  - intros v u H. unfold initState in H. simpl in H.
    apply init_fold_prev in H; [discriminate |].
    simpl. discriminate.
Qed.

(** From the initial state the loop stops within [length l + 1]
    iterations, and it stops by selecting the destination. *)
Lemma search_from_init (nodes : obj Node) (trafficMap : obj num)
      (floodsList : option (list FloodZone)) (adj : obj (list string))
      (l : list Node) (s e : Node) :
  In s l -> In e l ->
  exists st,
    search nodes trafficMap floodsList adj (id e) (S (length l))
           (initState l (id s)) = Some st /\
    search_inv (id e) (map fst (dist (initState l (id s)))) st /\
    extractMin st = Some (id e).
Proof.
  intros Is Ie.
  assert (L : (length (map fst (dist (initState l (id s))))
               < S (length l) + length (visited (initState l (id s))))%nat).
  { pose proof (initState_length _ _ Is). lia. }
  destruct (search_terminates nodes trafficMap floodsList adj (id e) _
              (S (length l)) _ (initState_inv (id e) _ _ Is) L)
    as [st [Hs [Hi Hx]]].
  exists st. split; [exact Hs | split; [exact Hi |]].
  destruct Hx as [Hx | Hx]; trivial. exfalso.
  apply (inv_end_unvisited _ _ _ Hi). apply set_has_In.
  apply (extractMin_None _ _ Hx).
  rewrite (inv_dist_keys _ _ _ Hi). now apply initState_key.
Qed.

(** Following predecessors from any key ends within [index + 2] tests of
    the loop condition. *)
Lemma reconstruct_terminates (nodes : obj Node) (prv : obj (option string))
      (vis : strset) :
  (forall v u, get v prv = Some (Some u) ->
               (index_of u vis < index_of v vis)%nat) ->
  forall fuel c path,
    (index_of c vis + 2 <= fuel)%nat ->
    exists p, reconstruct fuel nodes prv (Some c) path = Some p.
Proof.
  intros Pe. induction fuel as [| fuel IH]; intros c path L; [lia |].
  simpl. destruct (truthy_string c); [| eauto].
  destruct (get c prv) as [[u |] |] eqn:E; simpl.
  - apply IH. specialize (Pe _ _ E). lia.
  - destruct fuel; [lia | simpl; eauto].
  - destruct fuel; [lia | simpl; eauto].
Qed.

Lemma computeSafeRoute_total (nodes : obj Node)
      (trafficList : option (list (option TrafficRecord)))
      (floodsList : option (list FloodZone)) (srcPoint dstPoint : Point) :
  computeSafeRoute nodes trafficList floodsList srcPoint dstPoint
  <> OutOfFuel.
Proof.
  unfold computeSafeRoute.
  destruct (closestNode (values nodes) srcPoint) as [s |] eqn:Es;
    [| discriminate].
  destruct (closestNode (values nodes) dstPoint) as [e |] eqn:Ee;
    [| discriminate].
  apply closestNode_In in Es. apply closestNode_In in Ee.
  destruct (search_from_init nodes (buildTrafficMap trafficList)
              floodsList (buildAdj (values nodes)) _ _ _ Es Ee)
    as [st [Hs [Hi Hx]]].
  rewrite Hs.
  destruct (_ === _); [discriminate |].
  assert (L : (index_of (id e) (visited st) + 2
               <= S (length (values nodes)))%nat).
  { rewrite (index_of_not_In _ _ (inv_end_unvisited _ _ _ Hi)).
    assert (ND : NoDup (id e :: visited st)).
    { constructor; [apply (inv_end_unvisited _ _ _ Hi) |
                    apply (inv_visited_nodup _ _ _ Hi)]. }
    assert (IN : incl (id e :: visited st)
                      (map fst (dist (initState (values nodes) (id s))))).
    { intros x [<- | Hx']; [now apply initState_key |
                            now apply (inv_visited_keys _ _ _ Hi)]. }
    pose proof (NoDup_incl_length ND IN) as L.
    change (length (id e :: visited st))
      with (S (length (visited st))) in L.
    pose proof (initState_length _ _ Es). lia. }
  destruct (reconstruct_terminates nodes (prev st) (visited st)
              (inv_prev_earlier _ _ _ Hi) (S (length (values nodes)))
              (id e) [] L)
    as [p Hp].
  rewrite Hp. destruct (path_entries p); discriminate.
Qed.

End Totality.

(** * Properties of the route computation *)

(** ** Empty graph *)

Section EmptyGraph.

Context {M : JSMath}.

(** C6. When the node collection is empty, [computeSafeRoute] returns an
    empty path with [null] start and end (and no [distance_m]), whatever
    the traffic list, the flood list and the two query points are. *)
Theorem C6_empty_graph
        (trafficList : option (list (option TrafficRecord)))
        (floodsList : option (list FloodZone)) (srcPoint dstPoint : Point) :
  computeSafeRoute [] trafficList floodsList srcPoint dstPoint
  = Returns (mkResult [] None None None).
Proof. reflexivity. Qed.

End EmptyGraph.

(** ** The traffic map *)

Lemma add_traffic_other (e : string) (tm : obj num)
      (t : option TrafficRecord) :
  (forall t', t = Some t' -> edgeId t' <> Some e) ->
  get e (add_traffic tm t) = get e tm.
Proof.
  intros H. destruct t as [t |]; simpl; trivial.
  destruct (edgeId t) as [e' |] eqn:E; trivial.
  destruct (truthy_string e'); trivial.
  destruct (String.eqb e' "__proto__"); trivial.
  apply get_set_other. intros ->. now apply (H t).
Qed.

Lemma add_traffic_fold_proto (l : list (option TrafficRecord))
      (tm : obj num) :
  get "__proto__" (fold_left add_traffic l tm) = get "__proto__" tm.
Proof.
  revert tm. induction l as [| t l IH]; simpl; intros tm; trivial.
  rewrite IH. destruct t as [t |]; simpl; trivial.
  destruct (edgeId t) as [e |]; trivial.
  destruct (truthy_string e); trivial.
  destruct (String.eqb_spec e "__proto__") as [-> | N]; trivial.
  apply get_set_other. congruence.
Qed.

Lemma add_traffic_fold_other (e : string) (l : list (option TrafficRecord))
      (tm : obj num) :
  (forall t', In (Some t') l -> edgeId t' <> Some e) ->
  get e (fold_left add_traffic l tm) = get e tm.
Proof.
  revert tm. induction l as [| t l IH]; simpl; intros tm H; trivial.
  rewrite IH by (intros; apply H; auto).
  apply add_traffic_other. intros t' ->. apply H. now left.
Qed.

(** C3 (amended). For a record with an edge id other than the empty
    string and ["__proto__"] that no later record overwrites, the traffic
    map holds [congestionScore ?? score ?? 0] under that id: [0] when both
    fields are missing, and the congestion score itself whenever it is
    present, negative or above [1] included.  Under ["__proto__"] no
    record is ever stored. *)
Theorem C3_traffic_map_stores_score
        (before after : list (option TrafficRecord)) (t : TrafficRecord)
        (e : string) :
  edgeId t = Some e -> e <> "" -> e <> "__proto__" ->
  (forall t', In (Some t') after -> edgeId t' <> Some e) ->
  get e (buildTrafficMap (Some (before ++ Some t :: after)))
  = Some (stored_score t) /\
  (congestionScore t = None -> score t = None -> stored_score t = 0) /\
  (forall s, congestionScore t = Some s -> stored_score t = s) /\
  (forall trafficList,
      get "__proto__" (buildTrafficMap trafficList) = None).
Proof.
  intros He Ne Np Hafter. split; [| split; [| split]].
  - unfold buildTrafficMap. simpl. rewrite fold_left_app. simpl.
    rewrite add_traffic_fold_other by trivial.
    unfold add_traffic. rewrite He.
    unfold truthy_string. apply String.eqb_neq in Ne. rewrite Ne. simpl.
    apply String.eqb_neq in Np. rewrite Np.
    apply get_set_same.
  - unfold stored_score. now intros -> ->.
  - unfold stored_score. now intros s ->.
  - intros trafficList. unfold buildTrafficMap.
    now rewrite add_traffic_fold_proto.
Qed.

(** C3, at a concrete list: the record for ["A_B"] with score [0.5], after
    an older record for the same edge. *)
Lemma C3_traffic_map_stores_score_witness :
  get "A_B" (buildTrafficMap
               (Some ([Sample.jam "A_B" (Fin (9 # 10))]
                      ++ Some (mkTraffic (Some "A_B") (Some (Fin (1 # 2)))
                                         None)
                      :: [Sample.jam "B_C" (Fin (1 # 4))])))
  = Some (Fin (1 # 2)).
Proof.
  refine (proj1 (C3_traffic_map_stores_score
                   [Sample.jam "A_B" (Fin (9 # 10))]
                   [Sample.jam "B_C" (Fin (1 # 4))]
                   (mkTraffic (Some "A_B") (Some (Fin (1 # 2))) None)
                   "A_B" eq_refl _ _ _)).
  - discriminate.
  - discriminate.
  - intros t' [H | []]. injection H as <-. discriminate.
Defined.

(** C3 fails as stated: a negative congestion score is stored as it is,
    not as [0], and lies outside [[0, 1]]. *)
Lemma C3_negative_score_kept :
  get "A_B" (buildTrafficMap (Some [Sample.jam "A_B" (Fin (-1))]))
  = Some (Fin (-1)) /\
  (Fin (-1) <? 0) = true.
Proof. split; reflexivity. Qed.

(** ** Flood severity *)

Lemma ToBoolean_false (s : num) :
  ToBoolean s = false <-> s = NaN \/ exists q, s = Fin q /\ (q == 0)%Q.
Proof.
  destruct s; simpl; split; intros H; auto; try discriminate.
  - destruct H as [H | [q [H _]]]; discriminate.
  - destruct H as [H | [q [H _]]]; discriminate.
  - right. exists q. split; trivial. apply Qeq_bool_eq.
    now destruct (Qeq_bool q 0).
  - destruct H as [H | [q' [H E]]]; [discriminate |].
    injection H as ->. apply Qeq_eq_bool in E. now rewrite E.
Qed.

Section FloodSeverity.

Context {M : JSMath}.

(** C4 (amended). A flood zone containing the edge midpoint, wherever it
    stands in the list, multiplies the cost reached so far by [1 + 5 * s'],
    where the effective severity [s'] is [1] when the stored severity is
    absent, zero or [NaN] (multiplier [6]), and is the stored severity
    itself in every other case, a negative one included. *)
Theorem C4_effective_severity
        (nodes : obj Node) (trafficMap : obj num)
        (before after : list FloodZone) (f : FloodZone)
        (aId bId : string) (a b : Node) :
  get aId nodes = Some a -> get bId nodes = Some b ->
  pointInPolygon (midpoint a b) (polygon f) = true ->
  edgeCost nodes trafficMap (Some (before ++ f :: after)) aId bId
  = fold_left (flood_penalty (midpoint a b)) after
              (edgeCost nodes trafficMap (Some before) aId bId
               * (1 + 5 * severity_or_1 f)) /\
  (severity f = None -> severity_or_1 f = 1) /\
  (forall s, severity f = Some s ->
             (s = NaN \/ exists q, s = Fin q /\ (q == 0)%Q) ->
             severity_or_1 f = 1) /\
  (forall s, severity f = Some s ->
             ~ (s = NaN \/ exists q, s = Fin q /\ (q == 0)%Q) ->
             severity_or_1 f = s).
Proof.
  intros Ha Hb Hin. repeat split.
  - unfold edgeCost. rewrite Ha, Hb. simpl. rewrite fold_left_app. simpl.
    unfold flood_penalty at 2. now rewrite Hin.
  - unfold severity_or_1. now intros ->.
  - unfold severity_or_1. intros s -> H.
    apply ToBoolean_false in H. now rewrite H.
  - unfold severity_or_1. intros s -> H.
    destruct (ToBoolean s) eqn:E; trivial.
    apply ToBoolean_false in E. contradiction.
Qed.

End FloodSeverity.

(** C4, on the sample line under a flood square of severity [2]. *)
Lemma C4_effective_severity_witness :
  @edgeCost RefMath.math Sample.line []
            (Some ([] ++ Sample.zone (Some 2) :: [])) "A" "B"
  = @edgeCost RefMath.math Sample.line [] (Some []) "A" "B"
    * (1 + 5 * 2).
Proof.
  refine (proj1 (@C4_effective_severity RefMath.math Sample.line [] [] []
                   (Sample.zone (Some 2)) "A" "B"
                   (Sample.node "A" Sample.pA ["B"])
                   (Sample.node "B" Sample.pB ["A"; "C"])
                   eq_refl eq_refl _)).
  vm_compute. reflexivity.
Defined.

(** C4 fails as stated: a stored severity of [-2] is used as it is, so the
    zone multiplies the cost by [1 + 5 * (-2) = -9], not by [6]. *)
Lemma C4_negative_severity_kept :
  severity_or_1 (Sample.zone (Some (Fin (-2)))) = Fin (-2) /\
  (@edgeCost RefMath.math Sample.line [] (Some [Sample.zone (Some (Fin (-2)))])
             "A" "B"
   === @edgeCost RefMath.math Sample.line [] None "A" "B" * Fin (-9))
  = true /\
  (@edgeCost RefMath.math Sample.line [] (Some [Sample.zone (Some (Fin (-2)))])
             "A" "B"
   === @edgeCost RefMath.math Sample.line [] None "A" "B" * Fin 6)
  = false.
Proof. split; [| split]; vm_compute; reflexivity. Qed.

(** ** Path reconstruction *)

Lemma reconstruct_length (nodes : obj Node) (prv : obj (option string))
      (fuel : nat) (cur : option string) (path p : list (option Node)) :
  reconstruct fuel nodes prv cur path = Some p ->
  (length path <= length p)%nat /\
  (forall c, cur = Some c -> truthy_string c = true ->
             (S (length path) <= length p)%nat).
Proof.
  revert cur path. induction fuel as [| fuel IH]; simpl; intros cur path H;
    [discriminate |].
  destruct cur as [c |].
  - destruct (truthy_string c) eqn:T.
    + apply IH in H. simpl in H. destruct H as [H _].
      split; [lia | intros; lia].
    + injection H as <-. split; [lia |]. intros c' [= <-]. congruence.
  - injection H as <-. split; [lia | discriminate].
Qed.

Lemma reconstruct_defined (nodes : obj Node) (prv : obj (option string))
      (P : string -> Prop) :
  (forall c, P c -> get c nodes <> None) ->
  (forall v u, get v prv = Some (Some u) -> P u) ->
  forall fuel cur path p,
    (forall c, cur = Some c -> P c) ->
    Forall (fun x => x <> None) path ->
    reconstruct fuel nodes prv cur path = Some p ->
    Forall (fun x => x <> None) p.
Proof.
  intros Hn Hp. induction fuel as [| fuel IH]; simpl;
    intros cur path p Hc Hpath H; [discriminate |].
  destruct cur as [c |]; [| now injection H as <-].
  destruct (truthy_string c); [| now injection H as <-].
  apply IH in H; trivial.
  - intros c'. destruct (get c prv) as [[u |] |] eqn:E; simpl;
      try discriminate.
    intros [= <-]. now apply (Hp c).
  - constructor; trivial. apply Hn, Hc. reflexivity.
Qed.

Lemma path_entries_defined (p : list (option Node)) :
  Forall (fun x => x <> None) p -> exists es, path_entries p = Some es.
Proof.
  induction 1 as [| x p Hx _ IH]; simpl; eauto.
  destruct x as [n |]; [| congruence].
  destruct IH as [es ->]. eauto.
Qed.

Lemma path_entries_length (p : list (option Node)) (es : list PathEntry) :
  path_entries p = Some es -> length es = length p.
Proof.
  revert es. induction p as [| x p IH]; simpl; intros es H.
  - now injection H as <-.
  - destruct x as [n |]; [| discriminate].
    destruct (path_entries p) as [es' |]; [| discriminate].
    injection H as <-. simpl. now rewrite (IH es').
Qed.

Lemma init_fold_key_ids (l : list Node) (st : SearchState) (k : string) :
  In k (map fst (dist (fold_left init_node l st))) ->
  In k (map fst (dist st)) \/ exists n, In n l /\ id n = k.
Proof.
  revert st. induction l as [| m l IH]; simpl; intros st H; auto.
  apply IH in H. destruct H as [H | [n [I E]]]; [| eauto].
  simpl in H.
  destruct (in_dec string_dec (id m) (map fst (dist st))) as [J | J].
  - rewrite keys_set_present in H by trivial. auto.
  - rewrite keys_set_absent in H by trivial.
    apply in_app_or in H. destruct H as [H | [<- | []]]; eauto.
Qed.

Lemma initState_key_ids (l : list Node) (s : Node) (k : string) :
  In s l -> In k (map fst (dist (initState l (id s)))) ->
  exists n, In n l /\ id n = k.
Proof.
  intros Is H. unfold initState in H. simpl in H.
  rewrite keys_set_present in H by now apply init_fold_In.
  apply init_fold_key_ids in H. destruct H as [[] | H]. exact H.
Qed.

Lemma well_keyed_get (nodes : obj Node) (n : Node) :
  well_keyed nodes = true -> In n (values nodes) ->
  get (id n) nodes <> None.
Proof.
  intros W I.
  apply (Permutation_in _ (values_perm _ nodes)) in I.
  apply in_map_iff in I. destruct I as [[k n'] [E I]]. simpl in E. subst n'.
  unfold well_keyed in W. rewrite forallb_forall in W.
  pose proof (W _ I) as Ek. simpl in Ek. apply String.eqb_eq in Ek.
  subst k. intros G. apply get_None_keys in G. apply G.
  now apply (in_map fst) in I.
Qed.

Section Returns.

Context {M : JSMath}.

(** On a well-keyed node map the call returns: no bound is reached and no
    property of [undefined] is read. *)
Lemma computeSafeRoute_returns (nodes : obj Node)
      (trafficList : option (list (option TrafficRecord)))
      (floodsList : option (list FloodZone)) (srcPoint dstPoint : Point) :
  well_keyed nodes = true ->
  exists r,
    computeSafeRoute nodes trafficList floodsList srcPoint dstPoint
    = Returns r.
Proof.
  intros W.
  pose proof (computeSafeRoute_total nodes trafficList floodsList
                                     srcPoint dstPoint) as T.
  unfold computeSafeRoute in *.
  destruct (closestNode (values nodes) srcPoint) as [s |] eqn:Es;
    [| eauto].
  destruct (closestNode (values nodes) dstPoint) as [e |] eqn:Ee;
    [| eauto].
  apply closestNode_In in Es. apply closestNode_In in Ee.
  destruct (search_from_init nodes (buildTrafficMap trafficList)
              floodsList (buildAdj (values nodes)) _ _ _ Es Ee)
    as [st [Hs [Hi Hx]]].
  rewrite Hs in *.
  destruct (_ === _); [eauto |].
  destruct (reconstruct _ _ _ _ _) as [p |] eqn:Hp; [| congruence].
  assert (D : Forall (fun x : option Node => x <> None) p).
  { apply (reconstruct_defined nodes (prev st)
             (fun k => In k (map fst (dist (initState (values nodes)
                                                      (id s))))))
      with (5 := Hp).
    - intros c Hc. apply (initState_key_ids _ _ _ Es) in Hc.
      destruct Hc as [n [In_n <-]]. now apply well_keyed_get.
    - intros v u Hv. apply (inv_visited_keys _ _ _ Hi).
      apply index_of_In.
      pose proof (inv_prev_earlier _ _ _ Hi _ _ Hv).
      pose proof (index_of_le v (visited st)). lia.
    - intros c [= <-]. now apply initState_key.
    - constructor. }
  destruct (path_entries_defined _ D) as [es ->]. eauto.
Qed.

End Returns.

Lemma strict_eq_Infinity (x : num) : (x === Infinity) = true <-> x = Infinity.
Proof. destruct x; simpl; split; congruence. Qed.

Section Outcome.

Context {M : JSMath}.

(** ** Termination of the search *)


(** ** Unreachable destination *)

(** C7. When both query points snap to a node, the search ends, and if the
    destination's distance is then still [Infinity] the result is an empty
    path with [start] and [end] set to the ids of the two snapped nodes. *)
Theorem C7_unreachable
        (nodes : obj Node)
        (trafficList : option (list (option TrafficRecord)))
        (floodsList : option (list FloodZone)) (srcPoint dstPoint : Point)
        (s e : Node) :
  closestNode (values nodes) srcPoint = Some s ->
  closestNode (values nodes) dstPoint = Some e ->
  let run :=
    search nodes (buildTrafficMap trafficList) floodsList
           (buildAdj (values nodes)) (id e) (S (length (values nodes)))
           (initState (values nodes) (id s)) in
  (exists st, run = Some st) /\
  (forall st,
      run = Some st ->
      to_number (get (id e) (dist st)) = Infinity ->
      computeSafeRoute nodes trafficList floodsList srcPoint dstPoint
      = Returns (mkResult [] (Some (id s)) (Some (id e)) None)).
Proof.
  intros Es Ee run. split.
  - destruct (search_from_init nodes (buildTrafficMap trafficList)
                floodsList (buildAdj (values nodes)) _ _ _
                (closestNode_In _ _ _ Es) (closestNode_In _ _ _ Ee))
      as [st [Hs _]].
    exists st. exact Hs.
  - intros st Hs Hinf. unfold computeSafeRoute. rewrite Es, Ee.
    fold run. rewrite Hs.
    apply strict_eq_Infinity in Hinf. now rewrite Hinf.
Qed.

(** ** Presence of [distance_m] *)

(** C10 (amended). Provided the id of the node the destination snaps to is
    not the empty string, a returned result has a [distance_m] field
    exactly when its path is non-empty; and on a well-keyed node map the
    call does return. *)
Theorem C10_distance_iff_path
        (nodes : obj Node)
        (trafficList : option (list (option TrafficRecord)))
        (floodsList : option (list FloodZone)) (srcPoint dstPoint : Point) :
  (forall e, closestNode (values nodes) dstPoint = Some e -> id e <> "") ->
  (well_keyed nodes = true ->
   exists r, computeSafeRoute nodes trafficList floodsList srcPoint dstPoint
             = Returns r) /\
  (forall r, computeSafeRoute nodes trafficList floodsList srcPoint dstPoint
             = Returns r ->
             (distance_m r = None <-> path r = [])).
Proof.
  intros Hid. split; [apply computeSafeRoute_returns |].
  intros r. unfold computeSafeRoute.
  destruct (closestNode (values nodes) srcPoint) as [s |] eqn:Es.
  2: { intros [= <-]. simpl. tauto. }
  destruct (closestNode (values nodes) dstPoint) as [e |] eqn:Ee.
  2: { intros [= <-]. simpl. tauto. }
  destruct (search _ _ _ _ _ _ _) as [st |]; [| discriminate].
  destruct (_ === _).
  { intros [= <-]. simpl. tauto. }
  destruct (reconstruct _ _ _ _ _) as [p |] eqn:Hp; [| discriminate].
  destruct (path_entries p) as [es |] eqn:Hes; [| discriminate].
  intros [= <-]. simpl.
  apply reconstruct_length in Hp. destruct Hp as [_ Hp].
  specialize (Hp (id e) eq_refl).
  assert (T : truthy_string (id e) = true).
  { unfold truthy_string. apply negb_true_iff, String.eqb_neq.
    now apply Hid. }
  specialize (Hp T). apply path_entries_length in Hes.
  split; [discriminate |]. intros ->. simpl in *. lia.
Qed.

(** Whatever the host's [Math]: when the destination snaps to a node whose
    id is the empty string, every returned path is empty. *)
Lemma anonymous_destination_empty_path
      (nodes : obj Node)
      (trafficList : option (list (option TrafficRecord)))
      (floodsList : option (list FloodZone)) (srcPoint dstPoint : Point)
      (e : Node) (r : RouteResult) :
  closestNode (values nodes) dstPoint = Some e -> id e = "" ->
  computeSafeRoute nodes trafficList floodsList srcPoint dstPoint
  = Returns r ->
  path r = [].
Proof.
  intros Ee Hid. unfold computeSafeRoute. rewrite Ee.
  destruct (closestNode (values nodes) srcPoint) as [s |].
  2: { now intros [= <-]. }
  destruct (search _ _ _ _ _ _ _) as [st |]; [| discriminate].
  destruct (_ === _); [now intros [= <-] |].
  rewrite Hid. simpl. now intros [= <-].
Qed.

End Outcome.


(** C7, on two nodes with no road between them. *)
Lemma C7_unreachable_witness :
  @computeSafeRoute RefMath.math Sample.apart None None Sample.pA Sample.pC
  = Returns (mkResult [] (Some "A") (Some "C") None).
Proof.
  eapply (proj2 (@C7_unreachable RefMath.math Sample.apart None None
                   Sample.pA Sample.pC
                   (Sample.node "A" Sample.pA [])
                   (Sample.node "C" Sample.pC []) _ _)).
  - vm_compute. reflexivity.
  - reflexivity.
  Unshelve.
  + vm_compute. reflexivity.
  + vm_compute. reflexivity.
Defined.

(** C10, on the sample line from A to C. *)
Lemma C10_distance_iff_path_witness :
  exists r,
    @computeSafeRoute RefMath.math Sample.line None None Sample.pA Sample.pC
    = Returns r /\
    (distance_m r = None <-> path r = []).
Proof.
  destruct (@C10_distance_iff_path RefMath.math Sample.line None None
              Sample.pA Sample.pC) as [Hret Hiff].
  - intros e H.
    assert (E : @closestNode RefMath.math (values Sample.line) Sample.pC
                = Some (Sample.node "C" Sample.pC ["B"]))
      by (vm_compute; reflexivity).
    rewrite E in H. injection H as <-. discriminate.
  - destruct (Hret eq_refl) as [r Hr]. exists r. split; [exact Hr |].
    exact (Hiff r Hr).
Defined.

(** C10 fails as stated: when the destination snaps to a node whose id is
    the empty string, [while (cur)] never runs, and the result has an empty
    path together with a [distance_m] field. *)
Lemma C10_empty_path_with_distance :
  @computeSafeRoute RefMath.math Sample.lone_anon None None
                    Sample.pA Sample.pA
  = Returns (mkResult [] (Some "") (Some "") (Some 0)).
Proof. vm_compute. reflexivity. Qed.

(** ** Neighbour references that resolve to no node *)

Lemma set_map_values (V W : Type) (g : V -> W) (k : string) (v : V)
      (o : obj V) :
  set k (g v) (map_values g o) = map_values g (set k v o).
Proof.
  induction o as [| [k' v'] o IH]; simpl; trivial.
  destruct (String.eqb k k'); simpl; trivial. now rewrite IH.
Qed.

Lemma map_filter_comm (A B : Type) (f : A -> B) (p : B -> bool)
      (l : list A) :
  map f (filter (fun x => p (f x)) l) = filter p (map f l).
Proof.
  induction l as [| x l IH]; simpl; trivial.
  destruct (p (f x)); simpl; now rewrite IH.
Qed.

Lemma fold_left_ext (A B : Type) (f g : A -> B -> A) (l : list B) (a : A) :
  (forall x y, f x y = g x y) -> fold_left f l a = fold_left g l a.
Proof.
  intros E. revert a. induction l as [| y l IH]; simpl; intros a; trivial.
  now rewrite E, IH.
Qed.

Section Dangling.

Context {M : JSMath}.
Variable keep : string -> bool.
Variable nodes : obj Node.
Variable trafficMap : obj num.
Variable floodsList : option (list FloodZone).

Lemma edgeCost_dangling (u v : string) :
  get v nodes = None -> inherited v = false ->
  edgeCost nodes trafficMap floodsList u v = Infinity.
Proof.
  intros H I. unfold edgeCost. rewrite H.
  destruct (get u nodes); cbn [truthy_member andb];
    rewrite I, ?andb_false_r; reflexivity.
Qed.

(** Whatever its name, a reference that is no key of the node map gives
    the edge a cost that is [Infinity] or [NaN]. *)
Lemma edgeCost_unresolved (u v : string) :
  get v nodes = None ->
  edgeCost nodes trafficMap floodsList u v = Infinity \/
  edgeCost nodes trafficMap floodsList u v = NaN.
Proof.
  intros H. unfold edgeCost. rewrite H.
  destruct (get u nodes); cbn [truthy_member andb];
    [destruct (inherited v) | destruct (inherited u && inherited v)];
    auto.
Qed.

Lemma relax_dangling (u v : string) (st : SearchState) :
  get v nodes = None -> relax nodes trafficMap floodsList u st v = st.
Proof.
  intros H. unfold relax. destruct (set_has (visited st) v); trivial.
  destruct (edgeCost_unresolved u v H) as [-> | ->].
  - destruct (num_add_Infinity_r (to_number (get u (dist st))))
      as [-> | ->].
    + now rewrite num_lt_Infinity_l.
    + now rewrite num_lt_NaN_l.
  - replace (to_number (get u (dist st)) + NaN) with NaN
      by now destruct (to_number (get u (dist st))).
    now rewrite num_lt_NaN_l.
Qed.

Lemma edgeCost_prune (a b : string) :
  edgeCost (prune keep nodes) trafficMap floodsList a b
  = edgeCost nodes trafficMap floodsList a b.
Proof.
  unfold edgeCost, prune. rewrite !get_map_values.
  destruct (get a nodes), (get b nodes); reflexivity.
Qed.

Lemma relax_prune (u v : string) (st : SearchState) :
  relax (prune keep nodes) trafficMap floodsList u st v
  = relax nodes trafficMap floodsList u st v.
Proof. unfold relax. now rewrite edgeCost_prune. Qed.

Lemma closestNode_prune (l : list Node) (p : Point) :
  closestNode (map (drop_refs keep) l) p
  = option_map (drop_refs keep) (closestNode l p).
Proof.
  unfold closestNode.
  assert (G : forall acc,
             fold_left (closer p) (map (drop_refs keep) l)
                       (option_map (drop_refs keep) (fst acc), snd acc)
             = (option_map (drop_refs keep)
                           (fst (fold_left (closer p) l acc)),
                snd (fold_left (closer p) l acc))).
  { induction l as [| n l IH]; simpl; intros acc; trivial.
    rewrite <- IH. f_equal. unfold closer. simpl.
    destruct (_ <? _); reflexivity. }
  specialize (G (None, Infinity)). simpl in G. now rewrite G.
Qed.

Lemma initState_prune (l : list Node) (startId : string) :
  initState (map (drop_refs keep) l) startId = initState l startId.
Proof.
  unfold initState.
  assert (G : forall st,
             fold_left init_node (map (drop_refs keep) l) st
             = fold_left init_node l st).
  { induction l as [| n l IH]; simpl; intros st; [reflexivity | apply IH]. }
  now rewrite G.
Qed.

Lemma buildAdj_prune (l : list Node) :
  buildAdj (map (drop_refs keep) l) = map_values (filter keep) (buildAdj l).
Proof.
  unfold buildAdj.
  assert (G : forall adj,
             fold_left
               (fun adj n =>
                  set (id n) (map neighbor_id (or_empty (neighbors n))) adj)
               (map (drop_refs keep) l) (map_values (filter keep) adj)
             = map_values (filter keep)
                 (fold_left
                    (fun adj n =>
                       set (id n) (map neighbor_id (or_empty (neighbors n)))
                           adj)
                    l adj)).
  { induction l as [| n l IH]; simpl; intros adj; trivial.
    rewrite <- IH. f_equal. rewrite <- set_map_values. f_equal.
    destruct (neighbors n) as [ms |]; simpl; trivial.
    apply map_filter_comm. }
  apply (G []).
Qed.

Lemma reconstruct_prune (prv : obj (option string)) (fuel : nat)
      (cur : option string) (path : list (option Node)) :
  reconstruct fuel (prune keep nodes) prv cur
              (map (option_map (drop_refs keep)) path)
  = option_map (map (option_map (drop_refs keep)))
               (reconstruct fuel nodes prv cur path).
Proof.
  revert cur path. induction fuel as [| fuel IH]; simpl; intros cur path;
    trivial.
  destruct cur as [c |]; trivial.
  destruct (truthy_string c); trivial.
  rewrite <- IH. simpl. unfold prune. now rewrite get_map_values.
Qed.

Lemma path_entries_prune (p : list (option Node)) :
  path_entries (map (option_map (drop_refs keep)) p) = path_entries p.
Proof.
  induction p as [| [n |] p IH]; simpl; trivial. now rewrite IH.
Qed.

Hypothesis keep_resolving :
  forall k, keep k = false -> get k nodes = None.

Lemma relax_fold_filter (u : string) (l : list string) (st : SearchState) :
  fold_left (relax nodes trafficMap floodsList u) (filter keep l) st
  = fold_left (relax nodes trafficMap floodsList u) l st.
Proof.
  revert st. induction l as [| v l IH]; simpl; intros st; trivial.
  destruct (keep v) eqn:E; simpl.
  - apply IH.
  - rewrite relax_dangling by now apply keep_resolving. apply IH.
Qed.

Lemma visit_prune (adj : obj (list string)) (u : string) (st : SearchState) :
  visit (prune keep nodes) trafficMap floodsList
        (map_values (filter keep) adj) u st
  = visit nodes trafficMap floodsList adj u st.
Proof.
  unfold visit. rewrite get_map_values.
  rewrite (fold_left_ext _ _ _ (relax nodes trafficMap floodsList u) _ _
             (fun x v => relax_prune u v x)).
  destruct (get u adj) as [l |]; simpl; trivial.
  apply relax_fold_filter.
Qed.

Lemma search_prune (adj : obj (list string)) (endId : string) (fuel : nat)
      (st : SearchState) :
  search (prune keep nodes) trafficMap floodsList
         (map_values (filter keep) adj) endId fuel st
  = search nodes trafficMap floodsList adj endId fuel st.
Proof.
  revert st. induction fuel as [| fuel IH]; simpl; intros st; trivial.
  destruct (extractMin st) as [u |]; trivial.
  destruct (String.eqb u endId); trivial.
  now rewrite visit_prune, IH.
Qed.

End Dangling.

Section DanglingClaim.

Context {M : JSMath}.

Lemma computeSafeRoute_prune (keep : string -> bool) (nodes : obj Node)
      (trafficList : option (list (option TrafficRecord)))
      (floodsList : option (list FloodZone)) (srcPoint dstPoint : Point) :
  (forall k, keep k = false -> get k nodes = None) ->
  computeSafeRoute (prune keep nodes) trafficList floodsList
                   srcPoint dstPoint
  = computeSafeRoute nodes trafficList floodsList srcPoint dstPoint.
Proof.
  intros K. unfold computeSafeRoute.
  replace (values (prune keep nodes))
    with (map (drop_refs keep) (values nodes))
    by (symmetry; apply values_map).
  rewrite !closestNode_prune.
  destruct (closestNode (values nodes) srcPoint) as [s |];
    [| reflexivity].
  destruct (closestNode (values nodes) dstPoint) as [e |];
    [| reflexivity].
  cbn [option_map].
  change (id (drop_refs keep s)) with (id s).
  change (id (drop_refs keep e)) with (id e).
  rewrite buildAdj_prune, initState_prune, length_map.
  rewrite search_prune by trivial.
  destruct (search _ _ _ _ _ _ _) as [st |]; trivial.
  destruct (_ === _); trivial.
  change (@nil (option Node))
    with (map (option_map (drop_refs keep)) (@nil (option Node))) at 1.
  rewrite reconstruct_prune.
  destruct (reconstruct _ _ _ _ _) as [p |]; cbn [option_map]; trivial.
  now rewrite path_entries_prune.
Qed.

(** C8 (amended). A neighbour reference that resolves to no key of the
    node map is a dead edge: its cost is [Infinity] when the reference is
    not the name of a member inherited from [Object.prototype], and
    [Infinity] or [NaN] in any case; relaxing it leaves the whole search
    state as it was (so it never gives the referenced id a distance), and
    the call ends as it does with such references deleted; on a node map
    that stores every node under its own id it returns a result. *)
Theorem C8_dangling_neighbor
        (keep : string -> bool) (nodes : obj Node)
        (trafficList : option (list (option TrafficRecord)))
        (floodsList : option (list FloodZone)) (srcPoint dstPoint : Point) :
  (forall k, keep k = false -> get k nodes = None) ->
  (forall trafficMap u v,
      get v nodes = None -> inherited v = false ->
      edgeCost nodes trafficMap floodsList u v = Infinity) /\
  (forall trafficMap u v,
      get v nodes = None ->
      edgeCost nodes trafficMap floodsList u v = Infinity \/
      edgeCost nodes trafficMap floodsList u v = NaN) /\
  (forall trafficMap u v st,
      get v nodes = None ->
      relax nodes trafficMap floodsList u st v = st) /\
  computeSafeRoute (prune keep nodes) trafficList floodsList
                   srcPoint dstPoint
  = computeSafeRoute nodes trafficList floodsList srcPoint dstPoint /\
  (well_keyed nodes = true ->
   exists r, computeSafeRoute nodes trafficList floodsList srcPoint dstPoint
             = Returns r).
Proof.
  intros K. split; [| split; [| split; [| split]]].
  - intros. now apply edgeCost_dangling.
  - intros. now apply edgeCost_unresolved.
  - intros. now apply relax_dangling.
  - now apply computeSafeRoute_prune.
  - apply computeSafeRoute_returns.
Qed.

End DanglingClaim.

(** C8, on the sample line whose nodes A and B also list the unknown
    node Z. *)
Lemma C8_dangling_neighbor_witness :
  @computeSafeRoute RefMath.math
     (prune (fun k => negb (String.eqb k "Z")) Sample.line_dangling)
     None None Sample.pA Sample.pC
  = @computeSafeRoute RefMath.math Sample.line_dangling None None
                      Sample.pA Sample.pC.
Proof.
  refine (proj1 (proj2 (proj2 (proj2
            (@C8_dangling_neighbor RefMath.math
               (fun k => negb (String.eqb k "Z")) Sample.line_dangling
               None None Sample.pA Sample.pC _))))).
  intros k H. apply negb_false_iff, String.eqb_eq in H. subst k.
  reflexivity.
Defined.

(** C8 fails as stated: a reference named like a member inherited from
    [Object.prototype] resolves to no key of the node map, yet
    [nodes["constructor"]] is found, the guard [!a || !b] does not fire
    and the edge costs [NaN], not [Infinity]. *)
Lemma C8_inherited_reference_costs_NaN :
  In "constructor"
     (or_empty (get "A" (buildAdj (values Detour.line_inherited)))) /\
  get "constructor" Detour.line_inherited = None /\
  @edgeCost RefMath.math Detour.line_inherited [] None "A" "constructor"
  = NaN /\
  (NaN === Infinity) = false.
Proof. split; [| split; [| split]]; vm_compute; auto. Qed.

(** ** Sign of the tentative distances *)

Lemma buildTrafficMap_not_negative
      (trafficList : option (list (option TrafficRecord))) (k : string)
      (x : num) :
  scores_not_negative trafficList = true ->
  get k (buildTrafficMap trafficList) = Some x -> not_negative x = true.
Proof.
  unfold scores_not_negative, buildTrafficMap.
  generalize (or_empty trafficList) as l. intros l.
  assert (G : forall tm,
             (forall k x, get k tm = Some x -> not_negative x = true) ->
             forallb (fun t => match t with
                               | Some t => not_negative (stored_score t)
                               | None => true
                               end) l = true ->
             forall k x, get k (fold_left add_traffic l tm) = Some x ->
                         not_negative x = true).
  { induction l as [| t l IH]; simpl; intros tm Htm Hl; trivial.
    apply andb_true_iff in Hl. destruct Hl as [Ht Hl].
    apply IH; trivial. intros k' x'.
    destruct t as [t |]; simpl; [| apply Htm].
    destruct (edgeId t) as [e |]; [| apply Htm].
    destruct (truthy_string e); [| apply Htm].
    destruct (String.eqb e "__proto__"); [apply Htm |].
    get_set_cases k' e.
    - now intros [= <-].
    - apply Htm. }
  intros Hl. apply G; trivial. discriminate.
Qed.

Section Sign.

Context {M : JSMath}.
Variable nodes : obj Node.
Variable trafficMap : obj num.
Variable floodsList : option (list FloodZone).

Hypothesis traffic_sign :
  forall k x, get k trafficMap = Some x -> not_negative x = true.
Hypothesis severity_sign : severities_not_negative floodsList = true.
Hypothesis distance_sign : distances_not_negative nodes = true.

Lemma flood_fold_not_negative (mid : Point) (l : list FloodZone) (x : num) :
  forallb (fun f => not_negative (severity_or_1 f)) l = true ->
  not_negative x = true ->
  not_negative (fold_left (flood_penalty mid) l x) = true.
Proof.
  revert x. induction l as [| f l IH]; simpl; intros x Hl Hx; trivial.
  apply andb_true_iff in Hl. destruct Hl as [Hf Hl].
  apply IH; trivial. unfold flood_penalty.
  destruct (pointInPolygon mid (polygon f)); trivial.
  apply not_negative_mul; trivial.
  apply not_negative_add; [reflexivity |].
  now apply not_negative_mul.
Qed.

Lemma edge_traffic_not_negative (a b : string) :
  not_negative (edge_traffic trafficMap a b) = true.
Proof.
  assert (R : forall e x, read_score trafficMap e = Some x ->
                          not_negative x = true).
  { intros e x. unfold read_score.
    destruct (get e trafficMap) as [y |] eqn:E.
    - intros [= <-]. exact (traffic_sign _ _ E).
    - destruct (inherited e); [now intros [= <-] | discriminate]. }
  unfold edge_traffic.
  destruct (read_score trafficMap (a ++ "_" ++ b)%string) as [x |] eqn:E1;
    cbn [nullish nullish_opt].
  - exact (R _ _ E1).
  - destruct (read_score trafficMap (b ++ "_" ++ a)%string) as [y |] eqn:E2;
      cbn [nullish nullish_opt].
    + exact (R _ _ E2).
    + reflexivity.
Qed.

Lemma edgeCost_not_negative (a b : string) :
  not_negative (edgeCost nodes trafficMap floodsList a b) = true.
Proof.
  unfold edgeCost.
  destruct (get a nodes) as [na |] eqn:Ea;
    [| now destruct (truthy_member None a && truthy_member (get b nodes) b)].
  destruct (get b nodes) as [nb |] eqn:Eb;
    [| now destruct (truthy_member (Some na) a && truthy_member None b)].
  apply flood_fold_not_negative; [exact severity_sign |].
  apply not_negative_mul.
  - unfold distances_not_negative in distance_sign.
    rewrite forallb_forall in distance_sign.
    apply get_Some_In in Ea. apply get_Some_In in Eb.
    specialize (distance_sign _ Ea). rewrite forallb_forall in distance_sign.
    apply (distance_sign _ Eb).
  - apply not_negative_add; [reflexivity |].
    apply not_negative_mul; [reflexivity |].
    apply edge_traffic_not_negative.
Qed.

Lemma relax_dist_nonneg (u v : string) (st : SearchState) :
  dist_nonneg st -> dist_nonneg (relax nodes trafficMap floodsList u st v).
Proof.
  intros H. unfold relax. destruct (set_has (visited st) v); trivial.
  destruct (_ <? _) eqn:L; trivial.
  intros k x. simpl. destruct (string_dec k v) as [-> | N].
  - rewrite get_set_same. intros [= <-].
    apply (not_negative_lt_is_nonneg _ _) with (2 := L).
    apply not_negative_add; [| apply edgeCost_not_negative].
    destruct (get u (dist st)) as [du |] eqn:E; [| reflexivity].
    simpl. apply is_nonneg_not_negative. now apply (H u).
  - rewrite get_set_other by trivial. apply H.
Qed.

Lemma initState_dist_nonneg (l : list Node) (startId : string) :
  dist_nonneg (initState l startId).
Proof.
  intros k x. unfold initState. simpl.
  get_set_cases k startId.
  - now intros [= <-].
  - intros H.
    apply init_fold_dist in H; [now subst | discriminate].
Qed.

Lemma tentative_dist_nonneg (st0 st : SearchState) :
  dist_nonneg st0 ->
  tentative nodes trafficMap floodsList st0 st -> dist_nonneg st.
Proof.
  intros H0. induction 1 as [| st u _ IH | st u v _ IH]; trivial.
  now apply relax_dist_nonneg.
Qed.

Lemma tentative_relax_fold (st0 : SearchState) (u : string)
      (l : list string) (st : SearchState) :
  tentative nodes trafficMap floodsList st0 st ->
  tentative nodes trafficMap floodsList st0
            (fold_left (relax nodes trafficMap floodsList u) l st).
Proof.
  revert st. induction l as [| v l IH]; simpl; intros st H; trivial.
  apply IH. now constructor.
Qed.

Lemma tentative_search (adj : obj (list string)) (endId : string)
      (st0 : SearchState) (fuel : nat) (st st' : SearchState) :
  tentative nodes trafficMap floodsList st0 st ->
  search nodes trafficMap floodsList adj endId fuel st = Some st' ->
  tentative nodes trafficMap floodsList st0 st'.
Proof.
  revert st. induction fuel as [| fuel IH]; simpl; intros st H E;
    [discriminate |].
  destruct (extractMin st) as [u |]; [| now injection E as <-].
  destruct (String.eqb u endId); [now injection E as <- |].
  apply IH in E; trivial.
  unfold visit. apply tentative_relax_fold. now constructor.
Qed.

End Sign.

Section SignClaim.

Context {M : JSMath}.


(** Whatever the host's [Math]: an edge of positive length whose score is
    below [-1/2] has a negative cost. *)
Lemma negative_score_negative_cost
      (nodes : obj Node) (trafficMap : obj num)
      (floodsList : option (list FloodZone)) (aId bId : string)
      (a b : Node) (d t : Q) :
  get aId nodes = Some a -> get bId nodes = Some b ->
  haversine (point_of a) (point_of b) = Fin d -> (0 < d)%Q ->
  edge_traffic trafficMap aId bId = Fin t -> (t < - (1 # 2))%Q ->
  or_empty floodsList = [] ->
  (edgeCost nodes trafficMap floodsList aId bId <? 0) = true.
Proof.
  intros Ha Hb Hd Pd Ht Pt Hf.
  unfold edgeCost. rewrite Ha, Hb, Hd, Ht, Hf. simpl.
  apply Qltb_lt.
  assert (N : (0 < - (1 + 2 * t))%Q) by lra.
  pose proof (Qmult_lt_0_compat _ _ Pd N) as P.
  setoid_replace (d * (1 + 2 * t))%Q with (- (d * - (1 + 2 * t)))%Q
    by ring.
  lra.
Qed.

End SignClaim.



(** ** Monotonicity of the edge cost *)

Lemma Q_mul_le_l (d x y : Q) :
  (0 <= d)%Q -> (x <= y)%Q -> (d * x <= d * y)%Q.
Proof.
  intros Hd L. rewrite (Qmult_comm d x), (Qmult_comm d y).
  now apply Qmult_le_compat_r.
Qed.

Lemma finite_nonneg_Fin (x : num) :
  finite_nonneg x = true -> exists q, x = Fin q /\ (0 <= q)%Q.
Proof.
  destruct x; simpl; try discriminate.
  intros H. exists q. split; trivial. now apply Qle_bool_iff.
Qed.

Lemma flood_penalty_Fin (mid : Point) (f : FloodZone) (x : Q) :
  finite_nonneg (severity_or_1 f) = true ->
  exists m, (0 <= m)%Q /\
            forall z, flood_penalty mid (Fin z) f = Fin (z * m).
Proof.
  intros H. apply finite_nonneg_Fin in H. destruct H as [q [E Hq]].
  unfold flood_penalty. destruct (pointInPolygon mid (polygon f)).
  - exists (1 + 5 * q)%Q. split; [lra |]. intros z. now rewrite E.
  - exists 1%Q. split; [lra |]. intros z. now rewrite Q_mul_1_r.
Qed.

Lemma flood_fold_mono (mid : Point) (l : list FloodZone) (x y : Q) :
  severities_finite_nonneg l = true -> (x <= y)%Q ->
  exists x' y',
    fold_left (flood_penalty mid) l (Fin x) = Fin x' /\
    fold_left (flood_penalty mid) l (Fin y) = Fin y' /\
    (x' <= y')%Q.
Proof.
  unfold severities_finite_nonneg. revert x y.
  induction l as [| f l IH]; simpl; intros x y Hl L; [eauto |].
  apply andb_true_iff in Hl. destruct Hl as [Hf Hl].
  destruct (flood_penalty_Fin mid f x Hf) as [m [Hm E]].
  rewrite !E. apply IH; trivial.
  now apply Qmult_le_compat_r.
Qed.

Lemma flood_fold_nonneg (mid : Point) (l : list FloodZone) (x : Q) :
  severities_finite_nonneg l = true -> (0 <= x)%Q ->
  exists x', fold_left (flood_penalty mid) l (Fin x) = Fin x' /\
             (0 <= x')%Q.
Proof.
  unfold severities_finite_nonneg. revert x.
  induction l as [| f l IH]; simpl; intros x Hl L; [eauto |].
  apply andb_true_iff in Hl. destruct Hl as [Hf Hl].
  destruct (flood_penalty_Fin mid f x Hf) as [m [Hm E]].
  rewrite E. apply IH; trivial.
  now apply Qmult_le_0_compat.
Qed.

Section Monotone.

Context {M : JSMath}.

(** C2 (amended). For an edge between two nodes of the map whose haversine
    distance is finite and not negative, flood zones whose effective
    severities are finite and not negative, and scores and severities
    within a magnitude at which the multipliers [1 + 2 * score] and
    [1 + 5 * severity] do not overflow: the edge cost does not decrease
    when the congestion score of the edge grows; and, for a congestion
    score that is not negative, it does not decrease when the severity of
    one flood zone grows from a positive value to a larger one. *)
Theorem C2_cost_monotone
        (nodes : obj Node) (aId bId : string) (a b : Node) :
  get aId nodes = Some a -> get bId nodes = Some b ->
  finite_nonneg (haversine (point_of a) (point_of b)) = true ->
  (forall floods trafficMap1 trafficMap2 t1 t2,
      severities_finite_nonneg floods = true ->
      severities_in_range floods = true ->
      edge_traffic trafficMap1 aId bId = Fin t1 ->
      edge_traffic trafficMap2 aId bId = Fin t2 ->
      in_range (Fin t1) = true -> in_range (Fin t2) = true ->
      (t1 <= t2)%Q ->
      (edgeCost nodes trafficMap1 (Some floods) aId bId
       <=? edgeCost nodes trafficMap2 (Some floods) aId bId) = true) /\
  (forall trafficMap t before after poly s1 s2,
      severities_finite_nonneg before = true ->
      severities_finite_nonneg after = true ->
      severities_in_range before = true ->
      severities_in_range after = true ->
      edge_traffic trafficMap aId bId = Fin t ->
      in_range (Fin t) = true -> in_range (Fin s2) = true ->
      (0 <= t)%Q -> (0 < s1)%Q -> (s1 <= s2)%Q ->
      (edgeCost nodes trafficMap
                (Some (before ++ mkFlood poly (Some (Fin s1)) :: after))
                aId bId
       <=? edgeCost nodes trafficMap
                    (Some (before ++ mkFlood poly (Some (Fin s2)) :: after))
                    aId bId) = true).
Proof.
  intros Ha Hb Hd. apply finite_nonneg_Fin in Hd.
  destruct Hd as [d [Ed Hd]]. split.
  - intros floods tm1 tm2 t1 t2 Hs _ E1 E2 _ _ L.
    unfold edgeCost. rewrite Ha, Hb, Ed, E1, E2. simpl.
    destruct (flood_fold_mono (midpoint a b) floods
                (d * (1 + 2 * t1)) (d * (1 + 2 * t2)) Hs)
      as [x [y [-> [-> Hxy]]]].
    + apply Q_mul_le_l; [trivial | lra].
    + simpl. now apply Qle_bool_iff.
  - intros tm t before after poly s1 s2 Hb1 Ha1 _ _ Et _ _ Ht Hs1 Hs12.
    unfold edgeCost. rewrite Ha, Hb, Ed, Et. simpl.
    rewrite !fold_left_app. simpl.
    destruct (flood_fold_nonneg (midpoint a b) before (d * (1 + 2 * t)) Hb1)
      as [y0 [-> Hy0]].
    { apply Qmult_le_0_compat; [trivial | lra]. }
    unfold flood_penalty at 2 4. simpl.
    destruct (pointInPolygon (midpoint a b) poly).
    + unfold severity_or_1. simpl.
      assert (T1 : Qeq_bool s1 0 = false).
      { apply Qeq_bool_false. lra. }
      assert (T2 : Qeq_bool s2 0 = false).
      { apply Qeq_bool_false. lra. }
      rewrite T1, T2. simpl.
      destruct (flood_fold_mono (midpoint a b) after
                  (y0 * (1 + 5 * s1)) (y0 * (1 + 5 * s2)) Ha1)
        as [x [y [-> [-> Hxy]]]].
      * apply Q_mul_le_l; [trivial | lra].
      * simpl. now apply Qle_bool_iff.
    + destruct (flood_fold_mono (midpoint a b) after y0 y0 Ha1)
        as [x [y [E1 [E2 Hxy]]]]; [lra |].
      rewrite E1. simpl. apply Qle_bool_iff. lra.
Qed.

(** Whatever the host's [Math]: on an edge of positive length under a
    score that is not negative, a zone of severity [0] over the midpoint
    costs more than the same zone with severity [0.5]. *)
Lemma zero_severity_costs_more
      (nodes : obj Node) (trafficMap : obj num) (aId bId : string)
      (a b : Node) (poly : option (list Point)) (d t : Q) :
  get aId nodes = Some a -> get bId nodes = Some b ->
  haversine (point_of a) (point_of b) = Fin d -> (0 < d)%Q ->
  edge_traffic trafficMap aId bId = Fin t -> (0 <= t)%Q ->
  pointInPolygon (midpoint a b) poly = true ->
  (edgeCost nodes trafficMap (Some [mkFlood poly (Some (Fin (1 # 2)))])
            aId bId
   <? edgeCost nodes trafficMap (Some [mkFlood poly (Some 0)]) aId bId)
  = true.
Proof.
  intros Ha Hb Hd Pd Ht Pt Hin.
  unfold edgeCost. rewrite Ha, Hb, Hd, Ht. simpl.
  unfold flood_penalty. simpl. rewrite Hin. simpl.
  apply Qltb_lt.
  assert (P : (0 < d * (1 + 2 * t))%Q).
  { apply Qmult_lt_0_compat; lra. }
  setoid_replace (1 + 5 * (1 # 2))%Q with (7 # 2)%Q by reflexivity.
  setoid_replace (1 + 5 * 1)%Q with 6%Q by reflexivity.
  lra.
Qed.

End Monotone.

(** C2, on the edge A-B of the sample line under a flood square: a score
    growing from [0.25] to [0.5], and a severity growing from [1] to [2]. *)
Lemma C2_cost_monotone_witness :
  (@edgeCost RefMath.math Sample.line [("A_B", Fin (1 # 4))]
             (Some [Sample.zone (Some 2)]) "A" "B"
   <=? @edgeCost RefMath.math Sample.line [("B_A", Fin (1 # 2))]
                 (Some [Sample.zone (Some 2)]) "A" "B") = true /\
  (@edgeCost RefMath.math Sample.line [("A_B", Fin (1 # 4))]
             (Some ([] ++ mkFlood (Some Sample.square) (Some (Fin 1)) :: []))
             "A" "B"
   <=? @edgeCost RefMath.math Sample.line [("A_B", Fin (1 # 4))]
                 (Some ([] ++ mkFlood (Some Sample.square) (Some (Fin 2))
                           :: []))
                 "A" "B") = true.
Proof.
  destruct (@C2_cost_monotone RefMath.math Sample.line "A" "B"
              (Sample.node "A" Sample.pA ["B"])
              (Sample.node "B" Sample.pB ["A"; "C"]) eq_refl eq_refl)
    as [H1 H2].
  - vm_compute. reflexivity.
  - split.
    + apply (H1 [Sample.zone (Some 2)] [("A_B", Fin (1 # 4))]
                [("B_A", Fin (1 # 2))] (1 # 4)%Q (1 # 2)%Q);
        try (vm_compute; reflexivity).
      vm_compute. discriminate.
    + apply (H2 [("A_B", Fin (1 # 4))] (1 # 4)%Q [] [] (Some Sample.square)
                1%Q 2%Q);
        try (vm_compute; reflexivity); vm_compute; discriminate.
Defined.

(** C2 fails as stated, in both halves.  A severity growing from [0] to
    [0.5] lowers the cost, [0] being replaced by [1]; under a zone of
    severity [-1] a score growing from [0] to [1] lowers the cost; and with
    a score of [-1] a severity growing from [1] to [2] lowers the cost. *)
Lemma C2_cost_not_monotone :
  (@edgeCost RefMath.math Sample.line []
             (Some [Sample.zone (Some (Fin (1 # 2)))]) "A" "B"
   <? @edgeCost RefMath.math Sample.line []
                (Some [Sample.zone (Some 0)]) "A" "B") = true /\
  (@edgeCost RefMath.math Sample.line [("A_B", 1)]
             (Some [Sample.zone (Some (Fin (-1)))]) "A" "B"
   <? @edgeCost RefMath.math Sample.line [("A_B", 0)]
                (Some [Sample.zone (Some (Fin (-1)))]) "A" "B") = true /\
  (@edgeCost RefMath.math Sample.line [("A_B", Fin (-1))]
             (Some [Sample.zone (Some 2)]) "A" "B"
   <? @edgeCost RefMath.math Sample.line [("A_B", Fin (-1))]
                (Some [Sample.zone (Some 1)]) "A" "B") = true.
Proof. split; [| split]; vm_compute; reflexivity. Qed.

(** ** The three-node line *)

Lemma num_lt_irrefl (x : num) : (x <? x) = false.
Proof.
  destruct x; simpl; trivial. apply Qltb_ge. apply Qle_refl.
Qed.

Lemma num_lt_asym (x y : num) : (x <? y) = true -> (y <? x) = false.
Proof.
  destruct x, y; simpl; trivial; try discriminate.
  intros H. apply Qltb_lt in H. apply Qltb_ge. now apply Qlt_le_weak.
Qed.

Lemma num_lt_finite_Infinity (x : num) :
  is_finite x = true -> (x <? Infinity) = true.
Proof. now destruct x. Qed.

Lemma is_finite_add (x y : num) :
  is_finite x = true -> is_finite y = true -> is_finite (x + y) = true.
Proof. now destruct x, y. Qed.

Lemma get_In_NoDup (V : Type) (k : string) (v : V) (o : obj V) :
  NoDup (map fst o) -> In (k, v) o -> get k o = Some v.
Proof.
  induction o as [| [k' v'] o IH]; simpl; [tauto |].
  intros ND [E | I].
  - injection E as -> ->. now rewrite String.eqb_refl.
  - inversion ND as [| ? ? N ND']; subst.
    destruct (String.eqb_spec k k') as [-> | _]; [| now apply IH].
    exfalso. apply N. now apply (in_map fst) in I.
Qed.

Lemma buildAdj_fold_other (l : list Node) (k : string)
      (adj : obj (list string)) :
  ~ In k (map id l) ->
  get k (fold_left
           (fun adj m =>
              set (id m) (map neighbor_id (or_empty (neighbors m))) adj)
           l adj)
  = get k adj.
Proof.
  revert adj. induction l as [| m l IH]; simpl; intros adj N; trivial.
  rewrite IH by tauto. apply get_set_other. intros E. apply N. now left.
Qed.

Lemma buildAdj_get (l : list Node) (n : Node) :
  NoDup (map id l) -> In n l ->
  get (id n) (buildAdj l)
  = Some (map neighbor_id (or_empty (neighbors n))).
Proof.
  unfold buildAdj. generalize (@nil (string * list string)) as adj.
  induction l as [| m l IH]; simpl; intros adj ND I; [tauto |].
  inversion ND as [| ? ? N ND']; subst.
  destruct I as [-> | I]; [| now apply IH].
  rewrite buildAdj_fold_other by trivial. apply get_set_same.
Qed.

Lemma pick_min_fold_min (st : SearchState) (k : string) (l : list string)
      (best : option string) :
  (forall k', In k' l -> set_has (visited st) k' = false ->
              k' = k \/
              (to_number (get k (dist st)) <? to_number (get k' (dist st)))
              = true) ->
  (best = Some k \/
   (In k l /\ set_has (visited st) k = false /\
    (best = None \/
     exists b, best = Some b /\
               (to_number (get k (dist st)) <? to_number (get b (dist st)))
               = true))) ->
  fold_left (pick_min st) l best = Some k.
Proof.
  revert best. induction l as [| k1 l IH]; simpl; intros best Hl Hb.
  - destruct Hb as [Hb | [[] _]]. exact Hb.
  - apply IH; [intros; apply Hl; auto |].
    unfold pick_min.
    destruct Hb as [-> | [Ik [Uk Hb]]].
    + left. destruct (set_has (visited st) k1) eqn:U1; trivial.
      destruct (Hl k1 (or_introl eq_refl) U1) as [-> | L].
      * now rewrite num_lt_irrefl.
      * now rewrite (num_lt_asym _ _ L).
    + destruct Ik as [-> | Ik].
      * left. rewrite Uk.
        destruct Hb as [-> | [b [-> L]]]; trivial. now rewrite L.
      * destruct (set_has (visited st) k1) eqn:U1; [now right |].
        destruct (Hl k1 (or_introl eq_refl) U1) as [-> | L].
        -- left. destruct Hb as [-> | [b [-> Lb]]]; trivial. now rewrite Lb.
        -- right. split; [trivial | split; [trivial |]]. right.
           destruct Hb as [-> | [b [-> Lb]]]; [eauto |].
           destruct (to_number (get k1 (dist st))
                     <? to_number (get b (dist st))); eauto.
Qed.

Lemma extractMin_strict (st : SearchState) (k : string) :
  In k (map fst (dist st)) -> set_has (visited st) k = false ->
  (forall k', In k' (map fst (dist st)) ->
              set_has (visited st) k' = false ->
              k' = k \/
              (to_number (get k (dist st)) <? to_number (get k' (dist st)))
              = true) ->
  extractMin st = Some k.
Proof.
  intros Ik Uk H. unfold extractMin. apply pick_min_fold_min.
  - intros k' I U. apply H; trivial. now apply In_ownKeys.
  - right. split; [now apply In_ownKeys | auto].
Qed.

Lemma initState_dist_start (l : list Node) (startId : string) :
  get startId (dist (initState l startId)) = Some 0.
Proof. unfold initState. simpl. apply get_set_same. Qed.

Lemma initState_dist_other (l : list Node) (startId : string) (n : Node) :
  In n l -> id n <> startId ->
  get (id n) (dist (initState l startId)) = Some Infinity.
Proof.
  intros I N. unfold initState. simpl. rewrite get_set_other by trivial.
  destruct (get_keys _ (id n)
              (dist (fold_left init_node l (mkState [] [] []))))
    as [x Hx].
  { now apply init_fold_In. }
  rewrite Hx. f_equal.
  apply init_fold_dist in Hx; trivial. discriminate.
Qed.

Lemma initState_prev (l : list Node) (startId : string) (n : Node) :
  In n l -> get (id n) (prev (initState l startId)) = Some None.
Proof.
  intros I. unfold initState. simpl.
  destruct (get_keys _ (id n)
              (prev (fold_left init_node l (mkState [] [] []))))
    as [x Hx].
  { rewrite <- init_fold_keys by reflexivity. now apply init_fold_In. }
  rewrite Hx. f_equal.
  apply init_fold_prev in Hx; trivial. discriminate.
Qed.

Lemma initState_visited (l : list Node) (startId : string) :
  visited (initState l startId) = [].
Proof. unfold initState. simpl. apply init_fold_visited. Qed.

Section PlainCost.

Context {M : JSMath}.

(** With no traffic record and no flood zone an edge costs its length,
    unless a spelling of its key names an inherited member. *)
Lemma edgeCost_plain (nodes : obj Node)
      (floodsList : option (list FloodZone)) (aId bId : string)
      (a b : Node) :
  get aId nodes = Some a -> get bId nodes = Some b ->
  or_empty floodsList = [] ->
  inherited (aId ++ "_" ++ bId) = false ->
  inherited (bId ++ "_" ++ aId) = false ->
  edgeCost nodes [] floodsList aId bId
  = haversine (point_of a) (point_of b).
Proof.
  intros Ha Hb Hf I1 I2. unfold edgeCost. rewrite Ha, Hb, Hf.
  cbn [fold_left].
  assert (E : edge_traffic [] aId bId = 0).
  { unfold edge_traffic, read_score. cbn [get]. now rewrite I1, I2. }
  rewrite E. change (1 + 2 * 0) with 1. apply num_mul_1_r.
Qed.

End PlainCost.

Lemma strict_eq_finite_Infinity (x : num) :
  is_finite x = true -> (x === Infinity) = false.
Proof. now destruct x. Qed.

Section LineGraph.

Context {M : JSMath}.
Variable nodes : obj Node.
Variables A B C : Node.
Variable floodsList : option (list FloodZone).

Hypothesis nodes_line :
  Permutation nodes [(id A, A); (id B, B); (id C, C)].
Hypothesis AB : id A <> id B.
Hypothesis BC : id B <> id C.
Hypothesis AC : id A <> id C.
Hypothesis adjA : map neighbor_id (or_empty (neighbors A)) = [id B].
Hypothesis adjB : map neighbor_id (or_empty (neighbors B)) = [id A; id C].
Hypothesis no_floods : or_empty floodsList = [].
Hypothesis plainAB : inherited (id A ++ "_" ++ id B) = false.
Hypothesis plainBA : inherited (id B ++ "_" ++ id A) = false.
Hypothesis plainBC : inherited (id B ++ "_" ++ id C) = false.
Hypothesis plainCB : inherited (id C ++ "_" ++ id B) = false.
Hypothesis finAB : is_finite (haversine (point_of A) (point_of B)) = true.
Hypothesis finBC : is_finite (haversine (point_of B) (point_of C)) = true.

Let hAB : num := haversine (point_of A) (point_of B).
Let hBC : num := haversine (point_of B) (point_of C).
Let l : list Node := values nodes.
Let adj : obj (list string) := buildAdj l.
Let st0 : SearchState := initState l (id A).
Let st1 : SearchState :=
  mkState (set (id B) hAB (dist st0))
          (set (id B) (Some (id A)) (prev st0))
          [id A].
Let st2 : SearchState :=
  mkState (set (id C) (hAB + hBC) (dist st1))
          (set (id C) (Some (id B)) (prev st1))
          [id A; id B].

Lemma line_BA : String.eqb (id B) (id A) = false.
Proof. apply String.eqb_neq. congruence. Qed.

Lemma line_CA : String.eqb (id C) (id A) = false.
Proof. apply String.eqb_neq. congruence. Qed.

Lemma line_CB : String.eqb (id C) (id B) = false.
Proof. apply String.eqb_neq. congruence. Qed.

Lemma line_AC : String.eqb (id A) (id C) = false.
Proof. now apply String.eqb_neq. Qed.

Lemma line_BC : String.eqb (id B) (id C) = false.
Proof. now apply String.eqb_neq. Qed.

Lemma line_keys_nodup : NoDup (map fst nodes).
Proof.
  apply (Permutation_NoDup
           (l := map fst [(id A, A); (id B, B); (id C, C)])).
  - apply Permutation_map. now apply Permutation_sym.
  - simpl. repeat constructor; simpl; intuition congruence.
Qed.

Lemma line_get (n : Node) :
  n = A \/ n = B \/ n = C -> get (id n) nodes = Some n.
Proof.
  intros H. apply get_In_NoDup; [apply line_keys_nodup |].
  apply (Permutation_in _ (Permutation_sym nodes_line)).
  simpl. destruct H as [-> | [-> | ->]]; auto.
Qed.

Lemma line_values : Permutation l [A; B; C].
Proof.
  unfold l. rewrite values_perm.
  apply (Permutation_map snd) in nodes_line. exact nodes_line.
Qed.

Lemma line_In (n : Node) : In n l <-> n = A \/ n = B \/ n = C.
Proof.
  split; intros H.
  - apply (Permutation_in _ line_values) in H. simpl in H.
    intuition congruence.
  - apply (Permutation_in _ (Permutation_sym line_values)). simpl.
    intuition congruence.
Qed.

Lemma line_ids_nodup : NoDup (map id l).
Proof.
  apply (Permutation_NoDup (l := map id [A; B; C])).
  - apply Permutation_map, Permutation_sym, line_values.
  - simpl. repeat constructor; simpl; intuition congruence.
Qed.

Lemma line_length : length l = 3%nat.
Proof. apply (Permutation_length line_values). Qed.

Lemma line_keys0 (k : string) :
  In k (map fst (dist st0)) -> k = id A \/ k = id B \/ k = id C.
Proof.
  intros H. apply initState_key_ids in H; [| apply line_In; auto].
  destruct H as [n [I <-]]. apply line_In in I.
  destruct I as [-> | [-> | ->]]; auto.
Qed.

Lemma line_adj (n : Node) :
  n = A \/ n = B \/ n = C ->
  get (id n) adj = Some (map neighbor_id (or_empty (neighbors n))).
Proof.
  intros H. apply buildAdj_get; [apply line_ids_nodup | now apply line_In].
Qed.

Lemma line_cost (x y : Node) :
  x = A \/ x = B \/ x = C -> y = A \/ y = B \/ y = C ->
  inherited (id x ++ "_" ++ id y) = false ->
  inherited (id y ++ "_" ++ id x) = false ->
  edgeCost nodes [] floodsList (id x) (id y)
  = haversine (point_of x) (point_of y).
Proof.
  intros Hx Hy I1 I2. apply edgeCost_plain; trivial; now apply line_get.
Qed.

Lemma line_dist0_A : get (id A) (dist st0) = Some 0.
Proof. apply initState_dist_start. Qed.

Lemma line_dist0_B : get (id B) (dist st0) = Some Infinity.
Proof.
  apply initState_dist_other; [apply line_In; auto | congruence].
Qed.

Lemma line_dist0_C : get (id C) (dist st0) = Some Infinity.
Proof.
  apply initState_dist_other; [apply line_In; auto | congruence].
Qed.

Lemma line_extract0 : extractMin st0 = Some (id A).
Proof.
  apply extractMin_strict.
  - apply initState_key, line_In. auto.
  - unfold st0. now rewrite initState_visited.
  - intros k Hk _. apply line_keys0 in Hk.
    destruct Hk as [-> | [-> | ->]]; auto; right.
    + now rewrite line_dist0_A, line_dist0_B.
    + now rewrite line_dist0_A, line_dist0_C.
Qed.

Lemma line_visit0 : visit nodes [] floodsList adj (id A) st0 = st1.
Proof.
  unfold visit. rewrite (line_adj A) by auto. rewrite adjA.
  unfold st0 at 3. rewrite initState_visited. fold st0.
  cbn [or_empty fold_left set_add set_has existsb app].
  unfold relax. cbn [visited dist prev set_has existsb].
  rewrite line_BA. cbn [orb].
  rewrite line_dist0_A, line_dist0_B, (line_cost A B) by auto.
  cbn [to_number]. rewrite num_add_0_l.
  fold hAB. unfold hAB at 1.
  rewrite (num_lt_finite_Infinity _ finAB). reflexivity.
Qed.

Lemma line_keys1 (k : string) :
  In k (map fst (dist st1)) -> k = id A \/ k = id B \/ k = id C.
Proof.
  unfold st1. cbn [dist]. rewrite keys_set_present.
  - apply line_keys0.
  - apply initState_key, line_In. auto.
Qed.

Lemma line_dist1_B : get (id B) (dist st1) = Some hAB.
Proof. unfold st1. cbn [dist]. apply get_set_same. Qed.

Lemma line_dist1_C : get (id C) (dist st1) = Some Infinity.
Proof.
  unfold st1. cbn [dist]. rewrite get_set_other by congruence.
  apply line_dist0_C.
Qed.

Lemma line_extract1 : extractMin st1 = Some (id B).
Proof.
  apply extractMin_strict.
  - unfold st1. cbn [dist]. rewrite keys_set_present;
      apply initState_key, line_In; auto.
  - unfold st1. cbn [visited set_has existsb].
    now rewrite line_BA.
  - intros k Hk U. apply line_keys1 in Hk.
    destruct Hk as [-> | [-> | ->]]; auto.
    + unfold st1 in U. cbn [visited set_has existsb] in U.
      rewrite String.eqb_refl in U. discriminate.
    + right. rewrite line_dist1_B, line_dist1_C. cbn [to_number].
      apply (num_lt_finite_Infinity _ finAB).
Qed.

Lemma line_visit1 : visit nodes [] floodsList adj (id B) st1 = st2.
Proof.
  unfold visit. rewrite (line_adj B) by auto. rewrite adjB.
  assert (E : set_add (visited st1) (id B) = [id A; id B]).
  { unfold st1. cbn [visited]. unfold set_add. cbn [set_has existsb].
    now rewrite line_BA. }
  rewrite E. cbn [or_empty fold_left].
  unfold relax at 2. cbn [visited set_has existsb].
  rewrite String.eqb_refl. cbn [orb].
  unfold relax. cbn [visited dist prev set_has existsb].
  rewrite line_CA, line_CB. cbn [orb].
  rewrite line_dist1_B, line_dist1_C, (line_cost B C) by auto.
  cbn [to_number]. unfold hAB.
  rewrite (num_lt_finite_Infinity _ (is_finite_add _ _ finAB finBC)).
  reflexivity.
Qed.

Lemma line_extract2 : extractMin st2 = Some (id C).
Proof.
  assert (K : forall k, In k (map fst (dist st2)) ->
                        k = id A \/ k = id B \/ k = id C).
  { unfold st2. cbn [dist]. intros k. rewrite keys_set_present.
    - apply line_keys1.
    - unfold st1. cbn [dist]. rewrite keys_set_present;
        apply initState_key, line_In; auto. }
  apply extractMin_strict.
  - unfold st2. cbn [dist]. rewrite keys_set_present;
      unfold st1; cbn [dist]; rewrite keys_set_present;
      apply initState_key, line_In; auto.
  - unfold st2. cbn [visited set_has existsb].
    now rewrite line_CA, line_CB.
  - intros k Hk U. apply K in Hk.
    destruct Hk as [-> | [-> | ->]]; auto;
      unfold st2 in U; cbn [visited set_has existsb] in U;
      rewrite String.eqb_refl in U; cbn [orb] in U;
      try rewrite orb_true_r in U; discriminate.
Qed.

Lemma line_search :
  search nodes [] floodsList adj (id C) (S (length l)) st0 = Some st2.
Proof.
  rewrite line_length.
  cbn [search]. rewrite line_extract0, line_AC, line_visit0.
  rewrite line_extract1, line_BC, line_visit1.
  now rewrite line_extract2, String.eqb_refl.
Qed.

Lemma line_dist2_C : get (id C) (dist st2) = Some (hAB + hBC).
Proof. unfold st2. cbn [dist]. apply get_set_same. Qed.

Lemma line_prev2_C : get (id C) (prev st2) = Some (Some (id B)).
Proof. unfold st2. cbn [prev]. apply get_set_same. Qed.

Lemma line_prev2_B : get (id B) (prev st2) = Some (Some (id A)).
Proof.
  unfold st2, st1. cbn [prev]. rewrite get_set_other by congruence.
  apply get_set_same.
Qed.

Lemma line_prev2_A : get (id A) (prev st2) = Some None.
Proof.
  unfold st2, st1. cbn [prev]. rewrite !get_set_other by congruence.
  apply initState_prev, line_In. auto.
Qed.

Hypothesis nonemptyA : id A <> "".
Hypothesis nonemptyB : id B <> "".
Hypothesis nonemptyC : id C <> "".

Lemma line_reconstruct :
  reconstruct (S (length l)) nodes (prev st2) (Some (id C)) []
  = Some [Some A; Some B; Some C].
Proof.
  rewrite line_length.
  assert (T : forall n, id n <> "" -> truthy_string (id n) = true).
  { intros n H. unfold truthy_string. now apply negb_true_iff, String.eqb_neq. }
  cbn [reconstruct].
  rewrite (T C), line_prev2_C, (line_get C) by auto. cbn [nullish].
  rewrite (T B), line_prev2_B, (line_get B) by auto. cbn [nullish].
  rewrite (T A), line_prev2_A, (line_get A) by auto. reflexivity.
Qed.

End LineGraph.

Section LineClaim.

Context {M : JSMath}.

(** C1 (amended). On a three-node graph A - B - C (distinct ids other
    than the empty string and ["__proto__"], each node stored under its own
    id, no edge key ["X_Y"] of the line naming a member inherited from
    [Object.prototype], neighbour lists A:[B], B:[A,C], C:[B], haversine
    lengths of the two edges finite and within a magnitude that their sum
    does not overflow), with no traffic record and no flood zone, a
    request whose source snaps to A and whose destination snaps to C
    returns the path [A, B, C] as {lat, lng, id} entries, with
    [distance_m] equal to [haversine(A, B) + haversine(B, C)]. *)
Theorem C1_line_route
        (nodes : obj Node) (A B C : Node)
        (trafficList : option (list (option TrafficRecord)))
        (floodsList : option (list FloodZone)) (srcPoint dstPoint : Point) :
  Permutation nodes [(id A, A); (id B, B); (id C, C)] ->
  id A <> id B -> id B <> id C -> id A <> id C ->
  id A <> "" -> id B <> "" -> id C <> "" ->
  id A <> "__proto__" -> id B <> "__proto__" -> id C <> "__proto__" ->
  inherited (id A ++ "_" ++ id B) = false ->
  inherited (id B ++ "_" ++ id A) = false ->
  inherited (id B ++ "_" ++ id C) = false ->
  inherited (id C ++ "_" ++ id B) = false ->
  map neighbor_id (or_empty (neighbors A)) = [id B] ->
  map neighbor_id (or_empty (neighbors B)) = [id A; id C] ->
  map neighbor_id (or_empty (neighbors C)) = [id B] ->
  or_empty trafficList = [] -> or_empty floodsList = [] ->
  closestNode (values nodes) srcPoint = Some A ->
  closestNode (values nodes) dstPoint = Some C ->
  in_range (haversine (point_of A) (point_of B)) = true ->
  in_range (haversine (point_of B) (point_of C)) = true ->
  computeSafeRoute nodes trafficList floodsList srcPoint dstPoint
  = Returns
      (mkResult [mkEntry (n_lat A) (n_lng A) (id A);
                 mkEntry (n_lat B) (n_lng B) (id B);
                 mkEntry (n_lat C) (n_lng C) (id C)]
                (Some (id A)) (Some (id C))
                (Some (haversine (point_of A) (point_of B)
                       + haversine (point_of B) (point_of C)))).
Proof.
  intros Hn AB BC AC NA NB NC _ _ _ PAB PBA PBC PCB adjA adjB _ Ht Hf
         Es Ee RAB RBC.
  assert (FAB : is_finite (haversine (point_of A) (point_of B)) = true)
    by (destruct (haversine (point_of A) (point_of B)); trivial).
  assert (FBC : is_finite (haversine (point_of B) (point_of C)) = true)
    by (destruct (haversine (point_of B) (point_of C)); trivial).
  unfold computeSafeRoute. rewrite Es, Ee.
  unfold buildTrafficMap. rewrite Ht. cbn [fold_left].
  rewrite (line_search nodes A B C floodsList Hn AB BC AC adjA adjB Hf
                       PAB PBA PBC PCB FAB FBC).
  rewrite (line_dist2_C nodes A B C). cbn [to_number].
  rewrite (strict_eq_finite_Infinity _ (is_finite_add _ _ FAB FBC)).
  rewrite (line_reconstruct nodes A B C Hn AB BC AC NA NB NC).
  reflexivity.
Qed.

End LineClaim.

(** C1, on the sample line from the position of A to that of C. *)
Lemma C1_line_route_witness :
  @computeSafeRoute RefMath.math Sample.line None None Sample.pA Sample.pC
  = Returns
      (mkResult [mkEntry (lat Sample.pA) (lng Sample.pA) "A";
                 mkEntry (lat Sample.pB) (lng Sample.pB) "B";
                 mkEntry (lat Sample.pC) (lng Sample.pC) "C"]
                (Some "A") (Some "C")
                (Some (@haversine RefMath.math Sample.pA Sample.pB
                       + @haversine RefMath.math Sample.pB Sample.pC))).
Proof.
  apply (@C1_line_route RefMath.math Sample.line
           (Sample.node "A" Sample.pA ["B"])
           (Sample.node "B" Sample.pB ["A"; "C"])
           (Sample.node "C" Sample.pC ["B"])
           None None Sample.pA Sample.pC);
    try discriminate;
    try apply Permutation_refl;
    try (vm_compute; reflexivity).
Defined.

(** C1 fails as stated.  When the first node's id is the empty string,
    [while (cur)] stops on it and the returned path is [B, C]; when the
    middle node has [NaN] for latitude, the edge lengths are [NaN], no
    distance is ever assigned, and the returned path is empty; and when
    the key of the first edge is ["__proto__"], the traffic lookup finds
    [Object.prototype], the edge costs [NaN], and the returned path is
    empty again. *)
Lemma C1_anonymous_start_dropped :
  (exists r,
      @computeSafeRoute RefMath.math Sample.line_anon None None
                        Sample.pA Sample.pC
      = Returns r /\
      map p_id (path r) = ["B"; "C"] /\
      start r = Some "" /\ end_ r = Some "C") /\
  @computeSafeRoute RefMath.math Sample.line_nan None None
                    Sample.pA Sample.pC
  = Returns (mkResult [] (Some "A") (Some "C") None) /\
  @computeSafeRoute RefMath.math Detour.line_proto None None
                    Sample.pA Sample.pC
  = Returns (mkResult [] (Some "_") (Some "C") None).
Proof.
  split; [| split].
  - eexists. split; [vm_compute; reflexivity |].
    split; [| split]; reflexivity.
  - vm_compute. reflexivity.
  - vm_compute. reflexivity.
Qed.

(** * Further properties *)

(** ** Order of numbers *)

Lemma num_lt_trans (x y z : num) :
  (x <? y) = true -> (y <? z) = true -> (x <? z) = true.
Proof.
  destruct x, y, z; simpl; trivial; try discriminate.
  intros H1 H2. apply Qltb_lt in H1. apply Qltb_lt in H2.
  apply Qltb_lt. lra.
Qed.

Lemma num_lt_not_NaN (x y : num) : (x <? y) = true -> x <> NaN /\ y <> NaN.
Proof. destruct x, y; simpl; split; congruence. Qed.

(** [a < b] and [b <= c] give [a < c], for a number [c]. *)
Lemma num_lt_le_trans (a b c : num) :
  (a <? b) = true -> (c <? b) = false -> c <> NaN -> (a <? c) = true.
Proof.
  destruct a, b, c; simpl; trivial; try discriminate; try congruence.
  intros H1 H2 _. apply Qltb_lt in H1. apply Qltb_ge in H2.
  apply Qltb_lt. lra.
Qed.

(** [x <= y] and [y <= z] give [x <= z], for a number [y]. *)
Lemma num_le_trans (x y z : num) :
  (y <? x) = false -> (z <? y) = false -> y <> NaN -> (z <? x) = false.
Proof.
  destruct x, y, z; simpl; trivial; try discriminate; try congruence.
  intros H1 H2 _. apply Qltb_ge in H1. apply Qltb_ge in H2.
  apply Qltb_ge. lra.
Qed.

(** ** [closestNode] *)

Section Snapping.

Context {M : JSMath}.

Lemma closer_eq (p : Point) (acc : option Node * num) (m : Node) :
  closer p acc m =
  if snap_distance p m <? snd acc then (Some m, snap_distance p m) else acc.
Proof. reflexivity. Qed.

Lemma closer_fold_min (p : Point) (l : list Node) (acc : option Node * num) :
  snd acc <> NaN ->
  snd (fold_left (closer p) l acc) <> NaN /\
  (forall m, In m l ->
             (snap_distance p m <? snd (fold_left (closer p) l acc)) = false) /\
  ((fold_left (closer p) l acc = acc /\
    forall m, In m l -> (snap_distance p m <? snd acc) = false)
   \/
   exists l1 n l2,
     l = l1 ++ n :: l2 /\
     fold_left (closer p) l acc = (Some n, snap_distance p n) /\
     (snap_distance p n <? snd acc) = true /\
     forall m, In m l1 ->
               snap_distance p m = NaN \/
               (snap_distance p n <? snap_distance p m) = true).
Proof.
  revert acc. induction l as [| m l IH]; intros acc Hacc.
  - simpl. split; [trivial |]. split; [tauto |]. left. split; [trivial | tauto].
  - cbn [fold_left]. rewrite closer_eq.
    destruct (snap_distance p m <? snd acc) eqn:L.
    + destruct (IH (Some m, snap_distance p m)) as [N [A B]].
      { simpl. apply (proj1 (num_lt_not_NaN _ _ L)). }
      cbn [snd] in B.
      split; [exact N |]. split.
      * intros x [<- | I]; [| now apply A].
        destruct B as [[E _] | [l1 [n [l2 [_ [E [Ln _]]]]]]];
          rewrite E; simpl.
        -- apply num_lt_irrefl.
        -- now apply num_lt_asym.
      * right.
        destruct B as [[E Hl] | [l1 [n [l2 [El [E [Ln Hl1]]]]]]].
        -- exists [], m, l.
           split; [reflexivity |]. split; [exact E |]. split; [exact L |].
           intros x [].
        -- exists (m :: l1), n, l2. 
           split; [rewrite El; reflexivity |]. split; [exact E |].
           split; [exact (num_lt_trans _ _ _ Ln L) |].
           intros x [<- | I]; [now right | now apply Hl1].
    + destruct (IH acc Hacc) as [N [A B]].
      split; [exact N |]. split.
      * intros x [<- | I]; [| now apply A].
        destruct B as [[E _] | [l1 [n [l2 [_ [E [Ln _]]]]]]];
          rewrite E; simpl; trivial.
        destruct (snap_distance p m <? snap_distance p n) eqn:C; trivial.
        rewrite (num_lt_trans _ _ _ C Ln) in L. discriminate.
      * destruct B as [[E Hl] | [l1 [n [l2 [El [E [Ln Hl1]]]]]]].
        -- left. split; [trivial |]. intros x [<- | I]; auto.
        -- right. exists (m :: l1), n, l2. 
           split; [rewrite El; reflexivity |]. split; [exact E |]. split; [exact Ln |].
           intros x [<- | I]; [| now apply Hl1].
           destruct (snap_distance p m) eqn:Dx; [now left | | |];
             right; rewrite <- Dx in *;
             apply (num_lt_le_trans _ _ _ Ln L); congruence.
Qed.

(** A node is selected exactly when some node lies at a distance below
    [Infinity]. *)
Lemma closestNode_None (l : list Node) (p : Point) :
  closestNode l p = None <->
  forall m, In m l -> (snap_distance p m <? Infinity) = false.
Proof.
  unfold closestNode.
  destruct (closer_fold_min p l (None, Infinity)) as [_ [_ B]];
    [simpl; congruence |].
  cbn [snd] in B.
  destruct B as [[E Hl] | [l1 [n [l2 [El [E [Ln _]]]]]]]; rewrite E; simpl.
  - tauto.
  - split; [discriminate |]. intros H.
    rewrite H in Ln; [discriminate |]. rewrite El. apply in_elt.
Qed.

End Snapping.

(** ** [extractMin] *)

Lemma pick_min_eq (st : SearchState) (best : option string) (k : string) :
  pick_min st best k =
  if set_has (visited st) k then best
  else match best with
       | None => Some k
       | Some b => if dist_of st k <? dist_of st b then Some k else best
       end.
Proof. reflexivity. Qed.

(** No unvisited key seen so far lies strictly below the running
    minimum. *)
Lemma pick_min_fold_least (st : SearchState) (l seen : list string)
      (best : option string) (u : string) :
  fold_left (pick_min st) l best = Some u ->
  (forall k, In k seen -> set_has (visited st) k = false ->
             exists b, best = Some b /\ (dist_of st k <? dist_of st b) = false) ->
  forall k, In k seen \/ In k l -> set_has (visited st) k = false ->
            (dist_of st k <? dist_of st u) = false.
Proof.
  revert seen best. induction l as [| x l IH]; intros seen best H Hs k Hk U.
  - simpl in H. destruct Hk as [Hk | []].
    destruct (Hs k Hk U) as [b [Eb Lb]]. congruence.
  - cbn [fold_left] in H.
    apply (IH (x :: seen) _ H); trivial.
    + clear k Hk U. intros k Hk U. rewrite pick_min_eq.
      destruct (set_has (visited st) x) eqn:Vx.
      * destruct Hk as [<- | Hk]; [congruence | now apply Hs].
      * destruct best as [b |].
        -- destruct (dist_of st x <? dist_of st b) eqn:L.
           ++ exists x. split; trivial.
              destruct Hk as [<- | Hk]; [apply num_lt_irrefl |].
              destruct (Hs k Hk U) as [b' [[= <-] Lb]].
              destruct (dist_of st k <? dist_of st x) eqn:C; trivial.
              now rewrite (num_lt_trans _ _ _ C L) in Lb.
           ++ exists b. split; trivial.
              destruct Hk as [<- | Hk]; trivial.
              destruct (Hs k Hk U) as [b' [[= <-] Lb]]. exact Lb.
        -- exists x. split; trivial.
           destruct Hk as [<- | Hk]; [apply num_lt_irrefl |].
           destruct (Hs k Hk U) as [b' [[=] _]].
    + simpl in *. tauto.
Qed.

(** The selected key is the first of its kind: every unvisited key before
    it is strictly farther, or carries no number. *)
Lemma pick_min_fold_first (st : SearchState) (l : list string)
      (best : option string) :
  (fold_left (pick_min st) l best = best /\
   forall k, In k l -> set_has (visited st) k = false ->
             exists b, best = Some b /\ (dist_of st k <? dist_of st b) = false)
  \/
  exists l1 u l2,
    l = l1 ++ u :: l2 /\
    fold_left (pick_min st) l best = Some u /\
    set_has (visited st) u = false /\
    (forall b, best = Some b -> (dist_of st u <? dist_of st b) = true) /\
    forall k, In k l1 -> set_has (visited st) k = false ->
              dist_of st k = NaN \/ (dist_of st u <? dist_of st k) = true.
Proof.
  revert best. induction l as [| x l IH]; intros best.
  - left. split; [reflexivity | intros k []].
  - cbn [fold_left]. rewrite pick_min_eq.
    destruct (set_has (visited st) x) eqn:Vx.
    { destruct (IH best) as [[E Hl] | [l1 [u [l2 [El [E [Uu [Hb Hl1]]]]]]]].
      - left. split; [exact E |].
        intros k [<- | Hk] U; [congruence | now apply Hl].
      - right. exists (x :: l1), u, l2.
        split; [rewrite El; reflexivity |]. split; [exact E |].
        split; [exact Uu |]. split; [exact Hb |].
        intros k [<- | Hk] U; [congruence | now apply Hl1]. }
    destruct best as [b |].
    + destruct (dist_of st x <? dist_of st b) eqn:L.
      * right.
        destruct (IH (Some x))
          as [[E Hl] | [l1 [u [l2 [El [E [Uu [Hb Hl1]]]]]]]].
        -- exists [], x, l. split; [reflexivity |]. split; [exact E |].
           split; [exact Vx |]. split; [now intros b' [= <-] |].
           intros k [].
        -- exists (x :: l1), u, l2.
           split; [rewrite El; reflexivity |]. split; [exact E |].
           split; [exact Uu |].
           pose proof (Hb x eq_refl) as Lu.
           split; [intros b' [= <-]; exact (num_lt_trans _ _ _ Lu L) |].
           intros k [<- | Hk] U; [now right | now apply Hl1].
      * destruct (IH (Some b))
          as [[E Hl] | [l1 [u [l2 [El [E [Uu [Hb Hl1]]]]]]]].
        -- left. split; [exact E |].
           intros k [<- | Hk] U; [now exists b | now apply Hl].
        -- right. exists (x :: l1), u, l2.
           split; [rewrite El; reflexivity |]. split; [exact E |].
           split; [exact Uu |]. split; [exact Hb |].
           intros k [<- | Hk] U; [| now apply Hl1].
           pose proof (Hb b eq_refl) as Lu.
           destruct (dist_of st x) eqn:Dx; [now left | | |];
             right; rewrite <- Dx in *;
             apply (num_lt_le_trans _ _ _ Lu L); congruence.
    + right.
      destruct (IH (Some x))
        as [[E Hl] | [l1 [u [l2 [El [E [Uu [Hb Hl1]]]]]]]].
      * exists [], x, l. split; [reflexivity |]. split; [exact E |].
        split; [exact Vx |]. split; [discriminate |].
        intros k [].
      * exists (x :: l1), u, l2.
        split; [rewrite El; reflexivity |]. split; [exact E |].
        split; [exact Uu |]. split; [discriminate |].
        intros k [<- | Hk] U; [right; now apply Hb | now apply Hl1].
Qed.

Lemma extractMin_least (st : SearchState) (u k : string) :
  extractMin st = Some u ->
  In k (map fst (dist st)) -> set_has (visited st) k = false ->
  (dist_of st k <? dist_of st u) = false.
Proof.
  intros E Ik Uk.
  apply (pick_min_fold_least st (ownKeys (dist st)) [] None u E); trivial.
  - intros x [].
  - right. now apply In_ownKeys.
Qed.

Lemma extractMin_all_visited (st : SearchState) :
  (forall k, In k (map fst (dist st)) -> set_has (visited st) k = true) ->
  extractMin st = None.
Proof.
  intros H. destruct (extractMin st) as [u |] eqn:E; trivial.
  pose proof (extractMin_unvisited _ _ E) as U.
  rewrite (H u (extractMin_key _ _ E)) in U. discriminate.
Qed.

(** ** What the loop leaves alone *)

Section Finalized.

Context {M : JSMath}.
Variable nodes : obj Node.
Variable trafficMap : obj num.
Variable floodsList : option (list FloodZone).
Variable adj : obj (list string).
Variable endId : string.

(** What an iteration keeps, or lowers: [keeps st st'] when the visited
    set only grows, the entries of visited keys stay, and every tentative
    distance stays or goes strictly down. *)
Lemma relax_keeps (u v k : string) (st : SearchState) :
  let st' := relax nodes trafficMap floodsList u st v in
  (In k (visited st) ->
   get k (dist st') = get k (dist st) /\ get k (prev st') = get k (prev st))
  /\ (get k (dist st') = get k (dist st) \/
      (dist_of st' k <? dist_of st k) = true).
Proof.
  unfold relax.
  destruct (set_has (visited st) v) eqn:Ev; [now split; auto |].
  destruct (_ <? _) eqn:Elt; [| now split; auto].
  cbn [dist prev]. destruct (string_dec k v) as [-> | N].
  - split.
    + intros I. apply set_has_In in I. congruence.
    + right. unfold dist_of. cbn [dist]. rewrite get_set_same. exact Elt.
  - rewrite !get_set_other by trivial. split; auto.
Qed.

Lemma relax_fold_keeps (u k : string) (l : list string) (st : SearchState) :
  let st' := fold_left (relax nodes trafficMap floodsList u) l st in
  (In k (visited st) ->
   get k (dist st') = get k (dist st) /\ get k (prev st') = get k (prev st))
  /\ (get k (dist st') = get k (dist st) \/
      (dist_of st' k <? dist_of st k) = true).
Proof.
  revert st. induction l as [| v l IH]; intros st; cbn [fold_left].
  - split; auto.
  - destruct (IH (relax nodes trafficMap floodsList u st v)) as [A B].
    destruct (relax_keeps u v k st) as [A' B']. cbv zeta in *.
    rewrite relax_visited in A. split.
    + intros I. destruct (A I) as [-> ->]. now apply A'.
    + destruct B as [B | B]; destruct B' as [B' | B'].
      * left. congruence.
      * right. unfold dist_of in *. now rewrite B.
      * right. unfold dist_of in *. now rewrite <- B'.
      * right. exact (num_lt_trans _ _ _ B B').
Qed.

Lemma visit_keeps (u k : string) (st : SearchState) :
  let st' := visit nodes trafficMap floodsList adj u st in
  (In k (visited st) ->
   get k (dist st') = get k (dist st) /\ get k (prev st') = get k (prev st))
  /\ (get k (dist st') = get k (dist st) \/
      (dist_of st' k <? dist_of st k) = true)
  /\ incl (visited st) (visited st').
Proof.
  unfold visit.
  destruct (relax_fold_keeps u k (or_empty (get u adj))
              (mkState (dist st) (prev st) (set_add (visited st) u)))
    as [A B].
  cbv zeta in *. cbn [dist prev visited] in *. split; [| split].
  - intros I. apply A. unfold set_add.
    destruct (set_has (visited st) u); [trivial | apply in_or_app; auto].
  - exact B.
  - rewrite relax_fold_visited. cbn [visited]. unfold set_add.
    destruct (set_has (visited st) u); [apply incl_refl |].
    now apply incl_appl, incl_refl.
Qed.

Lemma search_keeps (fuel : nat) (k : string) (st st' : SearchState) :
  search nodes trafficMap floodsList adj endId fuel st = Some st' ->
  (In k (visited st) ->
   In k (visited st') /\
   get k (dist st') = get k (dist st) /\ get k (prev st') = get k (prev st))
  /\ (get k (dist st') = get k (dist st) \/
      (dist_of st' k <? dist_of st k) = true).
Proof.
  revert st. induction fuel as [| fuel IH]; intros st H; [discriminate |].
  simpl in H. destruct (extractMin st) as [u |] eqn:E.
  - destruct (String.eqb u endId).
    + injection H as <-. split; auto.
    + destruct (IH _ H) as [A B].
      destruct (visit_keeps u k st) as [A' [B' C']]. cbv zeta in *. split.
      * intros I. destruct (A (C' _ I)) as [Iv [-> ->]].
        split; [exact Iv | now apply A'].
      * destruct B as [B | B]; destruct B' as [B' | B'].
        -- left. congruence.
        -- right. unfold dist_of in *. now rewrite B.
        -- right. unfold dist_of in *. now rewrite <- B'.
        -- right. exact (num_lt_trans _ _ _ B B').
  - injection H as <-. split; auto.
Qed.

(** Any property of the state that an iteration keeps holds when the loop
    stops. *)
Lemma search_invariant (P : SearchState -> Prop) :
  (forall st u, P st -> extractMin st = Some u -> u <> endId ->
                P (visit nodes trafficMap floodsList adj u st)) ->
  forall fuel st st',
    P st ->
    search nodes trafficMap floodsList adj endId fuel st = Some st' ->
    P st' /\ (extractMin st' = None \/ extractMin st' = Some endId).
Proof.
  intros Step. induction fuel as [| fuel IH]; intros st st' I H;
    [discriminate |].
  simpl in H. destruct (extractMin st) as [u |] eqn:E.
  - destruct (String.eqb_spec u endId) as [-> | N].
    + injection H as <-. auto.
    + apply (IH _ _ (Step _ _ I E N) H).
  - injection H as <-. auto.
Qed.

End Finalized.

(** ** The search computes shortest distances *)

Lemma num_add_lt_finite (x c y : num) :
  (x + c <? y) = true -> x <> Infinity /\ x + c <> NaN.
Proof. destruct x, c, y; simpl; split; congruence. Qed.

Lemma num_add_le_mono (p x c : num) :
  is_finite p = true -> finite_nonneg c = true -> x <> NaN ->
  (p <? x) = false -> (p + c <? x + c) = false.
Proof.
  destruct p, x, c; simpl; trivial; try discriminate; try congruence.
  intros _ _ _ H. apply Qltb_ge in H. apply Qltb_ge. lra.
Qed.

Lemma num_add_not_NaN (x c : num) :
  x <> NaN -> finite_nonneg c = true -> x + c <> NaN.
Proof. destruct x, c; simpl; congruence. Qed.

Lemma first_exit (vis : list string) (s : string) (rest : list string) :
  In s vis -> ~ In (walk_end s rest) vis ->
  exists r1 y post,
    rest = r1 ++ y :: post /\ In (walk_end s r1) vis /\ ~ In y vis.
Proof.
  revert s. induction rest as [| a rest IH]; simpl; intros s Hs Hl.
  - contradiction.
  - destruct (in_dec string_dec a vis) as [Ia | Na].
    + destruct (IH a Ia Hl) as [r1 [y [post [E [I N]]]]].
      exists (a :: r1), y, post. rewrite E. auto.
    + exists [], a, rest. auto.
Qed.

Lemma follows_adj_app (adj : obj (list string)) (s : string)
      (r1 : list string) (y : string) (post : list string) :
  follows_adj adj s (r1 ++ y :: post) = true ->
  follows_adj adj s r1 = true /\
  set_has (or_empty (get (walk_end s r1) adj)) y = true /\
  follows_adj adj y post = true.
Proof.
  revert s. induction r1 as [| a r1 IH]; simpl; intros s H.
  - apply andb_prop in H. tauto.
  - apply andb_prop in H. destruct H as [H1 H2].
    destruct (IH a H2) as [A [B C]]. rewrite H1, A. auto.
Qed.

Section Shortest.

Context {M : JSMath}.
Variable nodes : obj Node.
Variable trafficMap : obj num.
Variable floodsList : option (list FloodZone).
Variable adj : obj (list string).
Variable startId endId : string.
Variable K : list string.

Lemma costs_finite_nonneg_app (s : string) (r1 : list string) (y : string)
      (post : list string) :
  costs_finite_nonneg nodes trafficMap floodsList s (r1 ++ y :: post) = true ->
  costs_finite_nonneg nodes trafficMap floodsList s r1 = true /\
  finite_nonneg (edgeCost nodes trafficMap floodsList (walk_end s r1) y)
  = true /\
  costs_finite_nonneg nodes trafficMap floodsList y post = true.
Proof.
  revert s. induction r1 as [| a r1 IH]; simpl; intros s H.
  - apply andb_prop in H. tauto.
  - apply andb_prop in H. destruct H as [H1 H2].
    destruct (IH a H2) as [A [B C]]. rewrite H1, A. auto.
Qed.

Lemma walk_cost_app (a : num) (s : string) (r1 : list string) (y : string)
      (post : list string) :
  walk_cost nodes trafficMap floodsList a s (r1 ++ y :: post)
  = walk_cost nodes trafficMap floodsList
              (walk_cost nodes trafficMap floodsList a s r1 +
               edgeCost nodes trafficMap floodsList (walk_end s r1) y)
              y post.
Proof.
  revert a s. induction r1 as [| b r1 IH]; simpl; intros a s; trivial.
Qed.

Lemma walk_end_app (s : string) (r1 : list string) (y : string)
      (post : list string) :
  walk_end s (r1 ++ y :: post) = walk_end y post.
Proof. revert s. induction r1 as [| b r1 IH]; simpl; intros s; trivial. Qed.

(** Along finite non-negative edges the cost is finite and grows. *)
Lemma walk_cost_finite (s : string) (rest : list string) (a : Q) :
  costs_finite_nonneg nodes trafficMap floodsList s rest = true ->
  exists t, walk_cost nodes trafficMap floodsList (Fin a) s rest = Fin t /\
            (a <= t)%Q.
Proof.
  revert s a. induction rest as [| v rest IH]; simpl; intros s a H.
  - exists a. split; [trivial | apply Qle_refl].
  - apply andb_prop in H. destruct H as [H1 H2].
    apply finite_nonneg_Fin in H1. destruct H1 as [q [-> Hq]].
    destruct (IH v (a + q)%Q H2) as [t [E L]].
    exists t. simpl. split; [exact E | lra].
Qed.

Lemma dist_of_set (st : SearchState) (v k : string) (a : num)
      (p : obj (option string)) (vis : strset) :
  dist_of (mkState (set v a (dist st)) p vis) k
  = if string_dec k v then a else dist_of st k.
Proof.
  unfold dist_of. cbn [dist]. destruct (string_dec k v) as [-> | N].
  - now rewrite get_set_same.
  - now rewrite get_set_other.
Qed.

Lemma route_inv_weaken (ok ok' : string -> string -> Prop)
      (st : SearchState) :
  (forall x y, In x (visited st) ->
               set_has (or_empty (get x adj)) y = true ->
               ~ In y (visited st) -> ok' x y -> ok x y) ->
  route_inv nodes trafficMap floodsList adj startId K ok st ->
  route_inv nodes trafficMap floodsList adj startId K ok' st.
Proof.
  intros W [A B C D E F G H]. constructor; trivial.
  intros x y Hx Ha Hy Hok. apply H; auto.
Qed.

(** One relaxation keeps the invariant, and settles the edge [u -> v]. *)
Lemma relax_route_inv (u v : string) (done : list string)
      (st : SearchState) :
  route_inv nodes trafficMap floodsList adj startId K
            (fun x y => x <> u \/ In y done) st ->
  In u (visited st) -> In startId (visited st) ->
  set_has (or_empty (get u adj)) v = true ->
  route_inv nodes trafficMap floodsList adj startId K
            (fun x y => x <> u \/ In y (v :: done))
            (relax nodes trafficMap floodsList u st v).
Proof.
  intros R Hu Hs Hv. unfold relax.
  destruct (set_has (visited st) v) eqn:Ev.
  { apply (route_inv_weaken (fun x y => x <> u \/ In y done)); trivial.
    intros x y Hx Ha Hy [N | [<- | D]]; auto.
    apply set_has_In in Ev. contradiction. }
  destruct (_ <? _) eqn:Elt.
  2:{ destruct R as [A B C D E F G H]. constructor; trivial.
      intros x y Hx Ha Hy [N | [<- | Dn]]; auto.
      destruct (string_dec x u) as [-> | N]; [exact Elt | auto]. }
  apply set_has_not_In in Ev.
  assert (Nu : u <> v) by (intros ->; contradiction).
  assert (Ns : startId <> v) by (intros ->; contradiction).
  destruct (num_add_lt_finite _ _ _ Elt) as [Fu Fa].
  destruct R as [A B C D E F G H].
  constructor; cbn [dist prev visited].
  - now rewrite get_set_other.
  - now rewrite get_set_other.
  - now left.
  - intros k Ik. rewrite dist_of_set.
    destruct (string_dec k v); [exact Fa | now apply D].
  - intros v' u'. destruct (string_dec v' v) as [-> | N].
    + rewrite !get_set_same. intros [= <-]. rewrite dist_of_set.
      destruct (string_dec u v); [contradiction |]. auto.
    + rewrite !get_set_other by trivial. intros P.
      destruct (E _ _ P) as [E1 [E2 [E3 E4]]]. rewrite dist_of_set.
      destruct (string_dec u' v) as [-> | _]; [contradiction | auto].
  - intros v'. destruct (string_dec v' v) as [-> | N].
    + rewrite get_set_same. discriminate.
    + rewrite !get_set_other by trivial. apply F.
  - intros rest Hr Ha Hc. rewrite dist_of_set.
    destruct (string_dec (walk_end startId rest) v) as [X | _];
      [rewrite X in Hr; contradiction | now apply G].
  - intros x y Hx Ha Hy Hok. rewrite !dist_of_set.
    destruct (string_dec x v) as [-> | _]; [contradiction |].
    destruct (string_dec y v) as [-> | Ny].
    + destruct (string_dec x u) as [-> | Nx]; [apply num_lt_irrefl |].
      pose proof (H x v Hx Ha Hy (or_introl Nx)) as S.
      match goal with |- (?a <? ?b) = false =>
        destruct (a <? b) eqn:Cx; trivial end.
      pose proof (num_lt_trans _ _ _ Cx Elt) as T.
      unfold dist_of in *. congruence.
    + apply H; trivial. destruct Hok as [Nx | [-> | Dn]]; auto.
Qed.

Lemma relax_fold_route_inv (u : string) (l done : list string)
      (st : SearchState) :
  route_inv nodes trafficMap floodsList adj startId K
            (fun x y => x <> u \/ In y done) st ->
  In u (visited st) -> In startId (visited st) ->
  (forall v, In v l -> set_has (or_empty (get u adj)) v = true) ->
  route_inv nodes trafficMap floodsList adj startId K
            (fun x y => x <> u \/ In y (rev l ++ done))
            (fold_left (relax nodes trafficMap floodsList u) l st).
Proof.
  revert done st. induction l as [| v l IH]; intros done st R Hu Hs Hl.
  - exact R.
  - cbn [fold_left]. simpl rev. rewrite <- app_assoc. simpl app.
    apply IH.
    + apply relax_route_inv; trivial. apply Hl. now left.
    + now rewrite relax_visited.
    + now rewrite relax_visited.
    + intros x Hx. apply Hl. now right.
Qed.

(** No walk of finite non-negative edge costs from the start to the
    node that [extractMin] selects is cheaper than that node's tentative
    distance. *)
Lemma selected_is_settled (st : SearchState) (u : string)
      (rest : list string) :
  (forall k, get k nodes <> None -> In k K) ->
  search_inv endId K st ->
  route_inv nodes trafficMap floodsList adj startId K (fun _ _ => True) st ->
  extractMin st = Some u ->
  walk_end startId rest = u ->
  follows_adj adj startId rest = true ->
  costs_finite_nonneg nodes trafficMap floodsList startId rest = true ->
  (walk_cost nodes trafficMap floodsList 0 startId rest <? dist_of st u)
  = false.
Proof.
  intros NK I R Eu Hend Ha Hc.
  pose proof (extractMin_unvisited _ _ Eu) as Uu.
  apply set_has_not_In in Uu.
  destruct (in_dec string_dec startId (visited st)) as [Hs | Hs].
  - subst u. destruct (first_exit _ _ _ Hs Uu) as [r1 [y [post [E [Ix Ny]]]]].
    subst rest. rewrite walk_end_app in *.
    apply follows_adj_app in Ha. destruct Ha as [Ha1 [Ha2 Ha3]].
    apply costs_finite_nonneg_app in Hc. destruct Hc as [Hc1 [Hc2 Hc3]].
    rewrite walk_cost_app.
    set (x := walk_end startId r1) in *.
    set (c := edgeCost nodes trafficMap floodsList x y) in *.
    pose proof (ri_settled _ _ _ _ _ _ _ _ R r1 Ix Ha1 Hc1) as O1.
    fold x in O1.
    pose proof (ri_edges _ _ _ _ _ _ _ _ R x y Ix Ha2 Ny Logic.I) as O2.
    fold c in O2.
    destruct (walk_cost_finite startId r1 0%Q Hc1) as [p [Ep _]].
    change (Fin 0) with 0 in Ep. rewrite Ep in *.
    assert (Ky : In y K).
    { apply NK. intros G. subst c.
      destruct (edgeCost_unresolved nodes trafficMap floodsList x y G)
        as [E | E]; rewrite E in Hc2; discriminate. }
    assert (Kx : In x K) by now apply (inv_visited_keys _ _ _ I).
    pose proof (ri_numbers _ _ _ _ _ _ _ _ R _ Ky) as Dy.
    pose proof (ri_numbers _ _ _ _ _ _ _ _ R _ Kx) as Dx.
    assert (Ly : (dist_of st y <? dist_of st (walk_end y post)) = false).
    { apply (extractMin_least st _ y Eu).
      - now rewrite (inv_dist_keys _ _ _ I).
      - now apply set_has_not_In. }
    pose proof (num_add_le_mono (Fin p) _ c eq_refl Hc2 Dx O1) as L1.
    pose proof (num_le_trans _ _ _ Ly O2 Dy) as L2.
    pose proof (num_le_trans _ _ _ L2 L1 (num_add_not_NaN _ _ Dx Hc2)) as L3.
    destruct (finite_nonneg_Fin _ Hc2) as [q [Ec Hq]].
    rewrite Ec in *. cbn [num_add] in L3 |- *.
    destruct (walk_cost_finite y post (p + q)%Q Hc3) as [t [Et Lt]].
    rewrite Et.
    apply (num_le_trans _ _ _ L3); [| discriminate].
    simpl. apply Qltb_ge. exact Lt.
  - destruct (ri_start_first _ _ _ _ _ _ _ _ R) as [C | C];
      [contradiction |].
    assert (Ks : In startId (map fst (dist st))).
    { pose proof (ri_start_dist _ _ _ _ _ _ _ _ R) as G.
      apply get_Some_In in G. now apply (in_map fst) in G. }
    assert (Es : extractMin st = Some startId).
    { apply extractMin_strict; trivial.
      - now apply set_has_not_In.
      - intros k' Ik' _. destruct (string_dec k' startId) as [-> | N];
          [now left | right].
        rewrite (inv_dist_keys _ _ _ I) in Ik'.
        rewrite (C k' Ik' N), (ri_start_dist _ _ _ _ _ _ _ _ R).
        reflexivity. }
    assert (Hu : u = startId) by congruence. rewrite Hu.
    unfold dist_of at 1. rewrite (ri_start_dist _ _ _ _ _ _ _ _ R).
    destruct (walk_cost_finite startId rest 0%Q Hc) as [t [Et Lt]].
    change (Fin 0) with 0 in Et. rewrite Et. simpl.
    apply Qltb_ge. exact Lt.
Qed.

Lemma visit_route_inv (st : SearchState) (u : string) :
  (forall k, get k nodes <> None -> In k K) ->
  search_inv endId K st ->
  route_inv nodes trafficMap floodsList adj startId K (fun _ _ => True) st ->
  extractMin st = Some u ->
  route_inv nodes trafficMap floodsList adj startId K (fun _ _ => True)
            (visit nodes trafficMap floodsList adj u st).
Proof.
  intros NK I R Eu.
  pose proof (extractMin_unvisited _ _ Eu) as Uu.
  assert (Hs : In startId (visited st ++ [u])).
  { destruct (ri_start_first _ _ _ _ _ _ _ _ R) as [C | C];
      [apply in_or_app; now left |].
    assert (Ks : In startId (map fst (dist st))).
    { pose proof (ri_start_dist _ _ _ _ _ _ _ _ R) as G.
      apply get_Some_In in G. now apply (in_map fst) in G. }
    destruct (in_dec string_dec startId (visited st)) as [Hs | Hs];
      [apply in_or_app; now left |].
    assert (Es : extractMin st = Some startId).
    { apply extractMin_strict; trivial.
      - now apply set_has_not_In.
      - intros k' Ik' _. destruct (string_dec k' startId) as [-> | N];
          [now left | right].
        rewrite (inv_dist_keys _ _ _ I) in Ik'.
        rewrite (C k' Ik' N), (ri_start_dist _ _ _ _ _ _ _ _ R).
        reflexivity. }
    apply in_or_app. right. left. congruence. }
  unfold visit, set_add. rewrite Uu.
  apply (route_inv_weaken
           (fun x y => x <> u \/ In y (rev (or_empty (get u adj)) ++ []))).
  { intros x y Hx Ha _ _. destruct (string_dec x u) as [-> | N]; [| now left].
    right. rewrite app_nil_r. apply in_rev. rewrite rev_involutive.
    apply set_has_In. exact Ha. }
  apply relax_fold_route_inv; cbn [visited]; trivial.
  - pose proof R as [A B C D E F G H].
    constructor; cbn [dist prev visited]; trivial.
    + now left.
    + intros v u' P. destruct (E _ _ P) as [E1 E2].
      split; [apply in_or_app; now left | exact E2].
    + intros rest Hr Ha Hc. apply in_app_or in Hr.
      destruct Hr as [Hr | [Hr | []]]; [now apply G |].
      change (dist_of (mkState (dist st) (prev st) (visited st ++ [u]))
                      (walk_end startId rest))
        with (dist_of st (walk_end startId rest)).
      rewrite <- Hr. apply selected_is_settled; trivial. congruence.
    + intros x y Hx Ha Hy [N | []].
      apply in_app_or in Hx. destruct Hx as [Hx | [Hx | []]];
        [| congruence].
      apply H; trivial. intros Iy. apply Hy. apply in_or_app. now left.
  - apply in_or_app. right. now left.
  - intros v Hv. now apply set_has_In.
Qed.

End Shortest.

(** ** From the initial state to the returned route *)

Section Route.

Context {M : JSMath}.

Lemma extractMin_start (nodes : obj Node) (trafficMap : obj num)
      (floodsList : option (list FloodZone)) (adj : obj (list string))
      (startId endId : string) (K : list string) (st : SearchState) :
  search_inv endId K st ->
  route_inv nodes trafficMap floodsList adj startId K (fun _ _ => True) st ->
  ~ In startId (visited st) ->
  extractMin st = Some startId.
Proof.
  intros I R Hs.
  destruct (ri_start_first _ _ _ _ _ _ _ _ R) as [C | C]; [contradiction |].
  pose proof (ri_start_dist _ _ _ _ _ _ _ _ R) as G.
  apply extractMin_strict.
  - apply get_Some_In in G. now apply (in_map fst) in G.
  - now apply set_has_not_In.
  - intros k' Ik' _. destruct (string_dec k' startId) as [-> | N];
      [now left | right].
    rewrite (inv_dist_keys _ _ _ I) in Ik'.
    rewrite (C k' Ik' N), G. reflexivity.
Qed.

Lemma initState_route_inv (nodes : obj Node) (trafficMap : obj num)
      (floodsList : option (list FloodZone)) (adj : obj (list string))
      (l : list Node) (s : Node) :
  In s l ->
  route_inv nodes trafficMap floodsList adj (id s)
            (map fst (dist (initState l (id s)))) (fun _ _ => True)
            (initState l (id s)).
Proof.
  intros Is.
  assert (Other : forall k, In k (map fst (dist (initState l (id s)))) ->
                            k <> id s ->
                            get k (dist (initState l (id s)))
                            = Some Infinity).
  { intros k Ik N. destruct (initState_key_ids _ _ _ Is Ik) as [n [In_n <-]].
    now apply initState_dist_other. }
  constructor.
  - apply initState_dist_start.
  - now apply initState_prev.
  - right. exact Other.
  - intros k Ik. unfold dist_of.
    destruct (string_dec k (id s)) as [-> | N].
    + rewrite initState_dist_start. discriminate.
    + rewrite (Other k Ik N). discriminate.
  - intros v u H. unfold initState in H. cbn [prev] in H.
    apply init_fold_prev in H; [discriminate |].
    simpl. discriminate.
  - intros v H. destruct (string_dec v (id s)) as [-> | N]; [now left |].
    right. apply Other; trivial.
    rewrite <- (initState_keys_prev _ _ Is).
    apply get_Some_In in H. now apply (in_map fst) in H.
  - rewrite initState_visited. intros rest [].
  - rewrite initState_visited. intros x y [].
Qed.

Lemma well_keyed_lookup (nodes : obj Node) (k : string) (n : Node) :
  well_keyed nodes = true -> get k nodes = Some n ->
  id n = k /\ In n (values nodes).
Proof.
  intros W G. apply get_Some_In in G.
  unfold well_keyed in W. rewrite forallb_forall in W.
  pose proof (W _ G) as Ek. simpl in Ek. apply String.eqb_eq in Ek.
  split; [congruence |].
  apply (Permutation_in _ (Permutation_sym (values_perm _ nodes))).
  now apply (in_map snd) in G.
Qed.

Lemma ids_truthy_value (nodes : obj Node) (n : Node) :
  well_keyed nodes = true -> ids_truthy nodes = true ->
  In n (values nodes) -> truthy_string (id n) = true.
Proof.
  intros W T I.
  apply (Permutation_in _ (values_perm _ nodes)) in I.
  apply in_map_iff in I. destruct I as [[k n'] [E I]]. simpl in E. subst n'.
  unfold well_keyed in W. rewrite forallb_forall in W.
  unfold ids_truthy in T. rewrite forallb_forall in T.
  pose proof (W _ I) as Ek. simpl in Ek. apply String.eqb_eq in Ek.
  rewrite <- Ek. exact (T _ I).
Qed.

(** The state in which the loop stops, with all that is known of it. *)
Lemma search_result (nodes : obj Node) (trafficMap : obj num)
      (floodsList : option (list FloodZone)) (adj : obj (list string))
      (s e : Node) :
  well_keyed nodes = true ->
  In s (values nodes) -> In e (values nodes) ->
  exists st,
    search nodes trafficMap floodsList adj (id e)
           (S (length (values nodes))) (initState (values nodes) (id s))
    = Some st /\
    search_inv (id e) (map fst (dist (initState (values nodes) (id s)))) st /\
    route_inv nodes trafficMap floodsList adj (id s)
              (map fst (dist (initState (values nodes) (id s))))
              (fun _ _ => True) st /\
    extractMin st = Some (id e).
Proof.
  intros W Is Ie.
  destruct (search_from_init nodes trafficMap floodsList adj _ _ _ Is Ie)
    as [st [Hs [Hi Hx]]].
  exists st. split; [exact Hs |]. split; [exact Hi |]. split; [| exact Hx].
  set (K := map fst (dist (initState (values nodes) (id s)))) in *.
  assert (NK : forall k, get k nodes <> None -> In k K).
  { intros k G. destruct (get k nodes) as [n |] eqn:E; [| congruence].
    destruct (well_keyed_lookup _ _ _ W E) as [<- In_n].
    now apply initState_key. }
  apply (search_invariant nodes trafficMap floodsList adj (id e)
           (fun st => search_inv (id e) K st /\
                      route_inv nodes trafficMap floodsList adj (id s) K
                                (fun _ _ => True) st))
    with (3 := Hs).
  - intros st1 u [I1 R1] E1 N1. split.
    + now apply visit_inv.
    + now apply (visit_route_inv _ _ _ _ _ (id e) K).
  - split; [now apply initState_inv | now apply initState_route_inv].
Qed.

(** *** Following the predecessors *)

Lemma linked_snoc (prv : obj (option string)) (t : string)
      (rest : list string) (c : string) :
  linked prv t rest -> get c prv = Some (Some (walk_end t rest)) ->
  linked prv t (rest ++ [c]).
Proof.
  revert t. induction rest as [| v rest IH]; simpl; intros t L G; auto.
  destruct L as [L1 L2]. auto.
Qed.

Lemma walk_end_snoc (t : string) (rest : list string) (c : string) :
  walk_end t (rest ++ [c]) = c.
Proof. revert t. induction rest as [| v rest IH]; simpl; auto. Qed.

(** When every id on the way is a non-empty string, [reconstruct] puts in
    front of [acc] the whole chain of predecessors of [c], down to an id
    that has none. *)
Lemma reconstruct_chain (nodes : obj Node) (prv : obj (option string))
      (Q : string -> Prop) :
  (forall k, Q k -> truthy_string k = true) ->
  (forall v u, Q v -> get v prv = Some (Some u) -> Q u) ->
  forall fuel c acc p,
    Q c -> reconstruct fuel nodes prv (Some c) acc = Some p ->
    exists t rest,
      p = map (fun k => get k nodes) (t :: rest) ++ acc /\
      walk_end t rest = c /\ linked prv t rest /\
      nullish (get t prv) None = None /\ Q t.
Proof.
  intros QT QP. induction fuel as [| fuel IH]; intros c acc p Qc H;
    [discriminate |].
  simpl in H. rewrite (QT _ Qc) in H.
  destruct (nullish (get c prv) None) as [u |] eqn:E.
  - assert (G : get c prv = Some (Some u)).
    { destruct (get c prv) as [[u' |] |]; simpl in E; congruence. }
    destruct (IH u _ p (QP _ _ Qc G) H) as [t [rest [Ep [Ew [L [N Qt]]]]]].
    exists t, (rest ++ [c]). split; [| split; [| split; [| split]]]; trivial.
    + rewrite Ep. simpl. rewrite map_app. simpl.
      now rewrite <- app_assoc.
    + apply walk_end_snoc.
    + apply linked_snoc; trivial. now rewrite Ew.
  - destruct fuel; [discriminate |]. simpl in H. injection H as <-.
    exists c, []. simpl. auto.
Qed.

Lemma path_entries_ids (nodes : obj Node) (ks : list string)
      (es : list PathEntry) :
  well_keyed nodes = true ->
  path_entries (map (fun k => get k nodes) ks) = Some es ->
  map p_id es = ks /\
  forall x, In x es ->
            exists n, get (p_id x) nodes = Some n /\
                      x = mkEntry (n_lat n) (n_lng n) (id n).
Proof.
  intros W. revert es. induction ks as [| k ks IH]; simpl; intros es H.
  - injection H as <-. split; [reflexivity | intros x []].
  - destruct (get k nodes) as [n |] eqn:G; [| discriminate].
    destruct (path_entries _) as [es' |]; [| discriminate].
    injection H as <-. destruct (IH es' eq_refl) as [A B].
    destruct (well_keyed_lookup _ _ _ W G) as [Ek _].
    simpl. split; [congruence |].
    intros x [<- | Hx]; [| now apply B].
    exists n. simpl. rewrite Ek. auto.
Qed.

Section Chain.

Variable nodes : obj Node.
Variable trafficMap : obj num.
Variable floodsList : option (list FloodZone).
Variable adj : obj (list string).
Variable startId : string.
Variable K : list string.
Variable st : SearchState.
Hypothesis R : route_inv nodes trafficMap floodsList adj startId K
                         (fun _ _ => True) st.

(** A chain of predecessors follows the adjacency, and the distance at
    its end is the distance at its start plus the edge costs. *)
Lemma linked_walk (t : string) (rest : list string) :
  linked (prev st) t rest ->
  follows_adj adj t rest = true /\
  dist_of st (walk_end t rest)
  = walk_cost nodes trafficMap floodsList (dist_of st t) t rest.
Proof.
  revert t. induction rest as [| v rest IH]; simpl; intros t L; auto.
  destruct L as [L1 L2].
  destruct (ri_pred _ _ _ _ _ _ _ _ R _ _ L1) as [_ [A [_ D]]].
  destruct (IH v L2) as [B C]. rewrite A, B, C. split; trivial.
  unfold dist_of at 1. now rewrite D.
Qed.

End Chain.

End Route.

(** * Further properties of the route computation *)

(** ** Snapping *)

Section SnappingProperties.

Context {M : JSMath}.

(** X1. [closestNode] returns a node of the array whose distance from the
    point is below [Infinity] and such that no node of the array is
    strictly closer; of several nodes at that distance it returns the
    first: every node before it is strictly farther, or its distance is
    [NaN]. *)
Theorem closestNode_nearest (nodeArray : list Node) (point : Point)
        (n : Node) :
  closestNode nodeArray point = Some n ->
  (snap_distance point n <? Infinity) = true /\
  (forall m, In m nodeArray ->
             (snap_distance point m <? snap_distance point n) = false) /\
  exists before after,
    nodeArray = before ++ n :: after /\
    forall m, In m before ->
              snap_distance point m = NaN \/
              (snap_distance point n <? snap_distance point m) = true.
Proof.
  unfold closestNode. intros H.
  destruct (closer_fold_min point nodeArray (None, Infinity))
    as [_ [A B]]; [simpl; congruence |].
  cbn [snd] in B.
  destruct B as [[E Hl] | [l1 [n' [l2 [El [E [Ln Hl1]]]]]]];
    rewrite E in *; simpl in H; [discriminate |].
  injection H as ->. simpl in A.
  split; [exact Ln |]. split; [exact A |].
  exists l1, l2. auto.
Qed.

(** X2. [closestNode] returns [null] exactly when no node of the array lies
    at a distance below [Infinity]: on the empty array, and when every
    distance is [NaN] or [Infinity]. *)
Theorem closestNode_null_iff (nodeArray : list Node) (point : Point) :
  closestNode nodeArray point = None <->
  forall m, In m nodeArray -> (snap_distance point m <? Infinity) = false.
Proof. apply closestNode_None. Qed.

End SnappingProperties.

(** [closestNode_nearest] on the sample line, from the position of B. *)
Lemma closestNode_nearest_witness :
  (@snap_distance RefMath.math Sample.pB
                  (Sample.node "B" Sample.pB ["A"; "C"]) <? Infinity) = true.
Proof.
  refine (proj1 (@closestNode_nearest RefMath.math (values Sample.line)
                   Sample.pB (Sample.node "B" Sample.pB ["A"; "C"]) _)).
  vm_compute. reflexivity.
Defined.

(** ** Selection of the next node *)

(** X3. [extractMin] returns an unvisited key of [dist] such that no unvisited
    key has a strictly smaller tentative distance; among equals it returns
    the first in the key order of [dist]: every unvisited key before it is
    strictly farther, or holds [NaN]. *)
Theorem extractMin_minimal (st : SearchState) (u : string) :
  extractMin st = Some u ->
  set_has (visited st) u = false /\
  (forall k, In k (ownKeys (dist st)) -> set_has (visited st) k = false ->
             (dist_of st k <? dist_of st u) = false) /\
  exists before after,
    ownKeys (dist st) = before ++ u :: after /\
    forall k, In k before -> set_has (visited st) k = false ->
              dist_of st k = NaN \/ (dist_of st u <? dist_of st k) = true.
Proof.
  intros E. split; [now apply extractMin_unvisited |]. split.
  - intros k Ik Uk. apply (extractMin_least st u k E); trivial.
    now apply In_ownKeys.
  - unfold extractMin in E.
    destruct (pick_min_fold_first st (ownKeys (dist st)) None)
      as [[E' _] | [l1 [u' [l2 [El [E' [_ [_ Hl1]]]]]]]]; [congruence |].
    assert (u' = u) by congruence. subst u'.
    exists l1, l2. auto.
Qed.

(** [extractMin_minimal] on a state where C and D tie below B: C, the
    first of the two, is selected. *)
Lemma extractMin_minimal_witness :
  set_has (visited Detour.midway) "C" = false /\
  (forall k, In k (ownKeys (dist Detour.midway)) ->
             set_has (visited Detour.midway) k = false ->
             (dist_of Detour.midway k <? dist_of Detour.midway "C") = false) /\
  exists before after,
    ownKeys (dist Detour.midway) = before ++ "C" :: after /\
    forall k, In k before -> set_has (visited Detour.midway) k = false ->
              dist_of Detour.midway k = NaN \/
              (dist_of Detour.midway "C" <? dist_of Detour.midway k) = true.
Proof. apply (extractMin_minimal Detour.midway "C"). reflexivity. Defined.

(** X4. [extractMin] returns [null] exactly when every key of [dist] is in
    the visited set. *)
Theorem extractMin_null_iff (st : SearchState) :
  extractMin st = None <->
  forall k, In k (ownKeys (dist st)) -> set_has (visited st) k = true.
Proof.
  split.
  - intros H k Ik. apply (extractMin_None st k H). now apply In_ownKeys.
  - intros H. apply extractMin_all_visited.
    intros k Ik. apply H. now apply In_ownKeys.
Qed.

(** ** The search loop *)

Section LoopProperties.

Context {M : JSMath}.

(** X5. Running the loop from any state: a visited node stays visited and
    keeps its distance and its predecessor, and the tentative distance of
    every node stays as it is or goes strictly down. *)
Theorem search_keeps_finalized (nodes : obj Node) (trafficMap : obj num)
        (floodsList : option (list FloodZone)) (adj : obj (list string))
        (endId : string) (fuel : nat) (st st' : SearchState) (k : string) :
  search nodes trafficMap floodsList adj endId fuel st = Some st' ->
  (In k (visited st) ->
   In k (visited st') /\
   get k (dist st') = get k (dist st) /\ get k (prev st') = get k (prev st))
  /\ (get k (dist st') = get k (dist st) \/
      (dist_of st' k <? dist_of st k) = true).
Proof. apply search_keeps. Qed.

End LoopProperties.

(** ** The returned route *)

Section RouteProperties.

Context {M : JSMath}.

Lemma linked_NoDup (prv : obj (option string)) (vis : strset) :
  (forall v u, get v prv = Some (Some u) ->
               (index_of u vis < index_of v vis)%nat) ->
  forall t rest,
    linked prv t rest ->
    (forall x, In x rest -> (index_of t vis < index_of x vis)%nat) /\
    NoDup (t :: rest).
Proof.
  intros Pe t rest. revert t.
  induction rest as [| v rest IH]; simpl; intros t L.
  - split; [intros x [] | constructor; [intros [] | constructor]].
  - destruct L as [L1 L2]. destruct (IH v L2) as [A B].
    pose proof (Pe _ _ L1) as Lt.
    assert (Hlt : forall x, v = x \/ In x rest ->
                            (index_of t vis < index_of x vis)%nat).
    { intros x [<- | Hx]; trivial. specialize (A x Hx). lia. }
    split; [exact Hlt |].
    constructor; trivial.
    intros Hin. specialize (Hlt t Hin). lia.
Qed.

(** What [computeSafeRoute] returns on a well-keyed node map without empty
    ids: no path and no distance, or the chain of predecessors from the
    start to the destination with the destination's distance. *)
Lemma route_shape (nodes : obj Node)
      (trafficList : option (list (option TrafficRecord)))
      (floodsList : option (list FloodZone)) (srcPoint dstPoint : Point)
      (s e : Node) (r : RouteResult) :
  well_keyed nodes = true -> ids_truthy nodes = true ->
  closestNode (values nodes) srcPoint = Some s ->
  closestNode (values nodes) dstPoint = Some e ->
  computeSafeRoute nodes trafficList floodsList srcPoint dstPoint
  = Returns r ->
  (path r = [] /\ distance_m r = None) \/
  exists rest,
    map p_id (path r) = id s :: rest /\
    walk_end (id s) rest = id e /\
    follows_adj (buildAdj (values nodes)) (id s) rest = true /\
    NoDup (id s :: rest) /\
    distance_m r
    = Some (walk_cost nodes (buildTrafficMap trafficList) floodsList
                      0 (id s) rest) /\
    forall x, In x (path r) ->
              exists n, get (p_id x) nodes = Some n /\
                        x = mkEntry (n_lat n) (n_lng n) (id n).
Proof.
  intros W T Es Ee H. unfold computeSafeRoute in H. rewrite Es, Ee in H.
  apply closestNode_In in Es. apply closestNode_In in Ee.
  destruct (search_result nodes (buildTrafficMap trafficList) floodsList
              (buildAdj (values nodes)) s e W Es Ee)
    as [st [Hs [Hi [Hr Hx]]]].
  rewrite Hs in H.
  destruct (_ === _) eqn:Einf.
  { injection H as <-. left. auto. }
  destruct (reconstruct _ _ _ _ _) as [p |] eqn:Hp; [| discriminate].
  destruct (path_entries p) as [es |] eqn:He; [| discriminate].
  injection H as <-. right. cbn [path distance_m].
  set (K := map fst (dist (initState (values nodes) (id s)))) in *.
  destruct (reconstruct_chain nodes (prev st)
              (fun k => In k K /\ dist_of st k <> Infinity))
    with (4 := Hp) as [t [rest [Ep [Ew [L [N [Kt Dt]]]]]]].
  - intros k [Ik _]. destruct (initState_key_ids _ _ _ Es Ik) as [n [In_n <-]].
    now apply (ids_truthy_value nodes).
  - intros v u _ P.
    destruct (ri_pred _ _ _ _ _ _ _ _ Hr _ _ P) as [Iu [_ [Du _]]].
    split; [now apply (inv_visited_keys _ _ _ Hi) | exact Du].
  - split; [now apply initState_key |].
    intros D. unfold dist_of in D. rewrite D in Einf. discriminate.
  - assert (t = id s).
    { rewrite <- (inv_prev_keys _ _ _ Hi) in Kt.
      destruct (get_keys _ _ _ Kt) as [o Go]. rewrite Go in N. simpl in N.
      subst o.
      destruct (ri_no_pred _ _ _ _ _ _ _ _ Hr _ Go) as [-> | D]; trivial.
      unfold dist_of in Dt. rewrite D in Dt. now contradiction Dt. }
    subst t. rewrite app_nil_r in Ep. subst p.
    destruct (path_entries_ids _ _ _ W He) as [Ids Ent].
    destruct (linked_walk _ _ _ _ _ _ _ Hr _ _ L) as [Fa Dc].
    exists rest. split; [exact Ids |]. split; [exact Ew |].
    split; [exact Fa |].
    split; [exact (proj2 (linked_NoDup _ _ (inv_prev_earlier _ _ _ Hi)
                                       _ _ L)) |].
    split; [| exact Ent].
    rewrite Ew in Dc. unfold dist_of in Dc at 1. rewrite Dc.
    unfold dist_of. now rewrite (ri_start_dist _ _ _ _ _ _ _ _ Hr).
Qed.


(** X7. On a well-keyed node map without empty ids, the returned path passes
    through no node twice, so it has at most as many entries as the map
    has nodes. *)
Theorem route_path_is_simple (nodes : obj Node)
        (trafficList : option (list (option TrafficRecord)))
        (floodsList : option (list FloodZone)) (srcPoint dstPoint : Point)
        (r : RouteResult) :
  well_keyed nodes = true -> ids_truthy nodes = true ->
  computeSafeRoute nodes trafficList floodsList srcPoint dstPoint
  = Returns r ->
  NoDup (map p_id (path r)) /\
  (length (path r) <= length nodes)%nat.
Proof.
  intros W T H.
  assert (ND : NoDup (map p_id (path r)) /\
               forall x, In x (path r) -> get (p_id x) nodes <> None).
  { destruct (closestNode (values nodes) srcPoint) as [s |] eqn:Es.
    - destruct (closestNode (values nodes) dstPoint) as [e |] eqn:Ee.
      + destruct (route_shape _ _ _ _ _ _ _ _ W T Es Ee H)
          as [[P _] | [rest [A [_ [_ [N [_ D]]]]]]].
        * rewrite P. split; [constructor | intros x []].
        * rewrite A. split; [exact N |].
          intros x Hx. destruct (D x Hx) as [n [G _]]. congruence.
      + unfold computeSafeRoute in H. rewrite Es, Ee in H.
        injection H as <-. split; [constructor | intros x []].
    - unfold computeSafeRoute in H. rewrite Es in H.
      injection H as <-. split; [constructor | intros x []]. }
  destruct ND as [ND Keys]. split; [exact ND |].
  rewrite <- (length_map p_id), <- (length_map fst nodes).
  apply NoDup_incl_length; trivial.
  intros k Hk. apply in_map_iff in Hk. destruct Hk as [x [<- Hx]].
  destruct (in_dec string_dec (p_id x) (map fst nodes)) as [I | N];
    trivial.
  apply get_None_keys in N. now apply Keys in N.
Qed.


(** X9. On a well-keyed node map without the key ["__proto__"], with
    scores within [range_bound] and severities that are not negative and
    within [range_bound]: whenever some walk through the road graph leads
    from the start node to the destination over edges of finite,
    non-negative cost, and the cost of the walk lies within [range_bound]
    (so that adding it up does not overflow), [computeSafeRoute] returns a
    distance, and that distance is not greater than the cost of the
    walk. *)
Theorem route_is_shortest (nodes : obj Node)
        (trafficList : option (list (option TrafficRecord)))
        (floodsList : option (list FloodZone)) (srcPoint dstPoint : Point)
        (s e : Node) (rest : list string) :
  well_keyed nodes = true -> plain_keys nodes = true ->
  scores_in_range trafficList = true ->
  severities_finite_nonneg (or_empty floodsList) = true ->
  severities_in_range (or_empty floodsList) = true ->
  closestNode (values nodes) srcPoint = Some s ->
  closestNode (values nodes) dstPoint = Some e ->
  walk_end (id s) rest = id e ->
  follows_adj (buildAdj (values nodes)) (id s) rest = true ->
  costs_finite_nonneg nodes (buildTrafficMap trafficList) floodsList
                      (id s) rest = true ->
  in_range (walk_cost nodes (buildTrafficMap trafficList) floodsList
                      0 (id s) rest) = true ->
  exists r d,
    computeSafeRoute nodes trafficList floodsList srcPoint dstPoint
    = Returns r /\
    distance_m r = Some d /\
    (walk_cost nodes (buildTrafficMap trafficList) floodsList 0 (id s) rest
     <? d) = false.
Proof.
  intros W _ _ _ _ Es Ee Hw Ha Hc _.
  destruct (computeSafeRoute_returns nodes trafficList floodsList
              srcPoint dstPoint W) as [r H].
  exists r. pose proof H as H0.
  unfold computeSafeRoute in H. rewrite Es, Ee in H.
  apply closestNode_In in Es. apply closestNode_In in Ee.
  destruct (search_result nodes (buildTrafficMap trafficList) floodsList
              (buildAdj (values nodes)) s e W Es Ee)
    as [st [Hs [Hi [Hr Hx]]]].
  rewrite Hs in H.
  set (K := map fst (dist (initState (values nodes) (id s)))) in *.
  assert (NK : forall k, get k nodes <> None -> In k K).
  { intros k G. destruct (get k nodes) as [n |] eqn:E; [| congruence].
    destruct (well_keyed_lookup _ _ _ W E) as [<- In_n].
    now apply initState_key. }
  pose proof (selected_is_settled nodes (buildTrafficMap trafficList)
                floodsList (buildAdj (values nodes)) (id s) (id e) K st
                (id e) rest NK Hi Hr Hx Hw Ha Hc) as L.
  destruct (walk_cost_finite nodes (buildTrafficMap trafficList) floodsList
              (id s) rest 0%Q Hc) as [t [Et _]].
  change (Fin 0) with 0 in Et.
  destruct (_ === _) eqn:Einf.
  { apply strict_eq_Infinity in Einf. unfold dist_of in L.
    rewrite Einf, Et in L. discriminate. }
  destruct (reconstruct _ _ _ _ _) as [p |]; [| discriminate].
  destruct (path_entries p) as [es |]; [| discriminate].
  injection H as <-. exists (dist_of st (id e)).
  split; [exact H0 | split; [reflexivity | exact L]].
Qed.


End RouteProperties.

(** [search_keeps_finalized] on the triangle, from the state in which A
    has been visited: A keeps its distance to the end of the loop. *)
Lemma search_keeps_finalized_witness :
  let st := @visit RefMath.math Detour.triangle
                   (buildTrafficMap Detour.jams) None
                   (buildAdj (values Detour.triangle)) "A"
                   (initState (values Detour.triangle) "A") in
  exists st',
    @search RefMath.math Detour.triangle (buildTrafficMap Detour.jams) None
            (buildAdj (values Detour.triangle)) "C" 3 st = Some st' /\
    In "A" (visited st') /\
    get "A" (dist st') = get "A" (dist st).
Proof.
  intros st.
  assert (E : exists st',
             @search RefMath.math Detour.triangle
                     (buildTrafficMap Detour.jams) None
                     (buildAdj (values Detour.triangle)) "C" 3 st = Some st').
  { eexists. vm_compute. reflexivity. }
  destruct E as [st' H]. exists st'. split; [exact H |].
  assert (V : In "A" (visited st)) by (vm_compute; auto).
  destruct (@search_keeps_finalized RefMath.math Detour.triangle
              (buildTrafficMap Detour.jams) None
              (buildAdj (values Detour.triangle)) "C" 3 st st' "A" H)
    as [K _].
  destruct (K V) as [K1 [K2 _]]. split; [exact K1 | exact K2].
Defined.



(** [route_is_shortest] on the same request, against the direct road
    from A to C. *)
Lemma route_is_shortest_witness :
  exists r d,
    @computeSafeRoute RefMath.math Detour.triangle Detour.jams None
                      Sample.pA Sample.pC = Returns r /\
    distance_m r = Some d /\
    (@walk_cost RefMath.math Detour.triangle (buildTrafficMap Detour.jams)
                None 0 "A" ["C"] <? d) = false.
Proof.
  apply (@route_is_shortest RefMath.math Detour.triangle Detour.jams None
           Sample.pA Sample.pC
           (Sample.node "A" Sample.pA ["B"; "C"])
           (Sample.node "C" Sample.pC ["A"; "B"]) ["C"]);
    vm_compute; reflexivity.
Defined.


(** [route_path_is_simple] on the same request on the triangle. *)
Lemma route_path_is_simple_witness :
  exists r,
    @computeSafeRoute RefMath.math Detour.triangle Detour.jams None
                      Sample.pA Sample.pC = Returns r /\
    NoDup (map p_id (path r)) /\
    (length (path r) <= length Detour.triangle)%nat.
Proof.
  assert (E : exists r,
             @computeSafeRoute RefMath.math Detour.triangle Detour.jams None
                               Sample.pA Sample.pC = Returns r).
  { eexists. vm_compute. reflexivity. }
  destruct E as [r H]. exists r. split; [exact H |].
  assert (W : well_keyed Detour.triangle = true) by reflexivity.
  assert (T : ids_truthy Detour.triangle = true) by reflexivity.
  exact (@route_path_is_simple RefMath.math Detour.triangle Detour.jams
           None Sample.pA Sample.pC r W T H).
Defined.

(** ** Points and polygons *)

Lemma ray_cast_no_crossing (x y : num) (rest : list Point) :
  (forall vi vj, intersect x y vi vj = false) ->
  forall vj inside, ray_cast x y vj rest inside = inside.
Proof.
  intros H. induction rest as [| vi rest IH]; simpl; intros vj inside;
    trivial.
  now rewrite H, IH.
Qed.

(** X11. A point with [NaN] for a coordinate lies in no polygon. *)
Theorem pointInPolygon_NaN_point (c : num) (polygon : option (list Point)) :
  pointInPolygon (mkPoint NaN c) polygon = false /\
  pointInPolygon (mkPoint c NaN) polygon = false.
Proof.
  split; destruct polygon as [vs |]; simpl; trivial;
    destruct (length vs <? 3)%nat; trivial;
    apply ray_cast_no_crossing; intros vi vj; unfold intersect, num_gt;
    cbn [lat lng].
  - now rewrite !num_lt_NaN_l.
  - rewrite num_lt_NaN_l. apply andb_false_r.
Qed.

Lemma Qltb_compat_r (a b b' : Q) : (b == b')%Q -> Qltb a b = Qltb a b'.
Proof. intros E. unfold Qltb. now rewrite E. Qed.

(** The bound that the loop computes for a vertical edge is the
    longitude of the edge. *)
Lemma vertical_edge_bound (c k b : Q) :
  ((c + - c) * k / b + c == c)%Q.
Proof. unfold Qdiv. ring. Qed.

(** X12. On the rectangle with corners [(y0, x0)], [(y0, x1)], [(y1, x1)],
    [(y1, x0)] (latitude first), for latitudes within [range_bound] (so
    that no difference of two of them overflows), [pointInPolygon] holds of
    the points with [y0 <= lat < y1] and [x0 <= lng < x1]: the lower and
    the left side belong to the rectangle, the upper and the right side do
    not. *)
Theorem pointInPolygon_rectangle (y0 y1 x0 x1 y x : Q) :
  (y0 < y1)%Q -> (x0 < x1)%Q ->
  in_range (Fin y0) = true -> in_range (Fin y1) = true ->
  in_range (Fin y) = true ->
  pointInPolygon (mkPoint (Fin y) (Fin x))
                 (Some [mkPoint (Fin y0) (Fin x0); mkPoint (Fin y0) (Fin x1);
                        mkPoint (Fin y1) (Fin x1); mkPoint (Fin y1) (Fin x0)])
  = true <->
  (y0 <= y /\ y < y1 /\ x0 <= x /\ x < x1)%Q.
Proof.
  intros Hy Hx _ _ _.
  assert (Ny : Qeq_bool (y1 + - y0) 0 = false).
  { apply Qeq_bool_false. lra. }
  assert (Ny' : Qeq_bool (y0 + - y1) 0 = false).
  { apply Qeq_bool_false. lra. }
  assert (Z0 : Qeq_bool (y0 + - y0) 0 = true).
  { apply Qeq_bool_iff. ring. }
  assert (Z1 : Qeq_bool (y1 + - y1) 0 = true).
  { apply Qeq_bool_iff. ring. }
  unfold pointInPolygon, ray_cast, intersect, num_gt.
  cbn [length Nat.ltb Nat.leb last lat lng num_sub num_neg num_add num_mul
       num_div num_lt].
  rewrite ?Ny, ?Ny', ?Z0, ?Z1.
  cbn [num_add num_lt].
  rewrite !Bool.eqb_reflx. cbn [negb andb].
  rewrite (Qltb_compat_r x _ _ (vertical_edge_bound x0 _ _)).
  rewrite (Qltb_compat_r x _ _ (vertical_edge_bound x1 _ _)).
  destruct (Qltb y y0) eqn:A; destruct (Qltb y y1) eqn:B;
    destruct (Qltb x x0) eqn:C; destruct (Qltb x x1) eqn:D;
    cbn [Bool.eqb negb andb];
    rewrite ?Qltb_lt, ?Qltb_ge in *;
    (split; [intros E; try discriminate; lra
            | intros E; try reflexivity; lra]).
Qed.

(** [pointInPolygon_rectangle] on the unit square: the corner [(0, 0)] is
    inside. *)
Lemma pointInPolygon_rectangle_witness :
  pointInPolygon (mkPoint (Fin 0) (Fin 0))
                 (Some [mkPoint (Fin 0) (Fin 0); mkPoint (Fin 0) (Fin 1);
                        mkPoint (Fin 1) (Fin 1); mkPoint (Fin 1) (Fin 0)])
  = true.
Proof.
  apply (pointInPolygon_rectangle 0 1 0 1 0 0);
    try (vm_compute; reflexivity); lra.
Defined.

(** ** What an edge's cost does not depend on *)

Section CostLocality.

Context {M : JSMath}.

Lemma flood_penalty_malformed (mid : Point) (base : num) (f : FloodZone) :
  malformed_polygon f = true -> flood_penalty mid base f = base.
Proof.
  unfold malformed_polygon, flood_penalty, pointInPolygon.
  destruct (polygon f) as [vs |]; trivial. now intros ->.
Qed.

(** X13. A flood zone whose polygon is not an array, or has fewer than three
    vertices, changes the cost of no edge, whatever its severity and its
    place in the list. *)
Theorem malformed_zone_ignored (nodes : obj Node) (trafficMap : obj num)
        (before after : list FloodZone) (f : FloodZone) (aId bId : string) :
  malformed_polygon f = true ->
  edgeCost nodes trafficMap (Some (before ++ f :: after)) aId bId
  = edgeCost nodes trafficMap (Some (before ++ after)) aId bId.
Proof.
  intros Hf. unfold edgeCost.
  destruct (get aId nodes) as [a |]; trivial.
  destruct (get bId nodes) as [b |]; trivial.
  cbn [or_empty]. rewrite !fold_left_app. cbn [fold_left].
  now rewrite flood_penalty_malformed.
Qed.

Lemma add_traffic_get (e : string) (tm tm' : obj num)
      (t : option TrafficRecord) :
  get e tm = get e tm' ->
  get e (add_traffic tm t) = get e (add_traffic tm' t).
Proof.
  intros H. destruct t as [t |]; simpl; trivial.
  destruct (edgeId t) as [e' |]; trivial.
  destruct (truthy_string e'); trivial.
  destruct (String.eqb e' "__proto__"); trivial.
  destruct (string_dec e e') as [<- | N].
  - now rewrite !get_set_same.
  - now rewrite !get_set_other.
Qed.

Lemma traffic_fold_filter (e : string)
      (P : option TrafficRecord -> bool)
      (l : list (option TrafficRecord)) :
  (forall t, edgeId t = Some e -> P (Some t) = true) ->
  forall tm tm',
    get e tm = get e tm' ->
    get e (fold_left add_traffic l tm)
    = get e (fold_left add_traffic (filter P l) tm').
Proof.
  intros HP. induction l as [| t l IH]; simpl; intros tm tm' H; trivial.
  destruct (P t) eqn:Pt; simpl.
  - apply IH. now apply add_traffic_get.
  - apply IH. rewrite <- H. apply add_traffic_other.
    intros t' -> E. rewrite (HP _ E) in Pt. discriminate.
Qed.

(** X14. The cost of the edge from [aId] to [bId] depends on the traffic list
    only through the records filed under ["aId_bId"] or ["bId_aId"]:
    [null] entries, records without an edge id and records of other edges
    can be dropped from the list without changing it. *)
Theorem edgeCost_traffic_local (nodes : obj Node)
        (trafficList : list (option TrafficRecord))
        (floodsList : option (list FloodZone)) (aId bId : string) :
  edgeCost nodes (buildTrafficMap (Some trafficList)) floodsList aId bId
  = edgeCost nodes
             (buildTrafficMap (Some (filter (concerns aId bId) trafficList)))
             floodsList aId bId.
Proof.
  unfold edgeCost.
  destruct (get aId nodes) as [a |]; trivial.
  destruct (get bId nodes) as [b |]; trivial.
  unfold edge_traffic, read_score, buildTrafficMap. cbn [or_empty].
  rewrite <- !(traffic_fold_filter _ (concerns aId bId) trafficList)
    with (tm := []) (tm' := []); trivial.
  - intros t E. unfold concerns. rewrite E, String.eqb_refl.
    apply orb_true_r.
  - intros t E. unfold concerns. rewrite E, String.eqb_refl. reflexivity.
Qed.

End CostLocality.

(** [malformed_zone_ignored] on the edge from A to B of the sample line,
    for a zone of severity 3 with two vertices. *)
Lemma malformed_zone_ignored_witness :
  @edgeCost RefMath.math Sample.line []
            (Some ([Sample.zone None]
                   ++ mkFlood (Some [Sample.pA; Sample.pB]) (Some (Fin 3))
                   :: []))
            "A" "B"
  = @edgeCost RefMath.math Sample.line [] (Some ([Sample.zone None] ++ []))
              "A" "B".
Proof.
  apply (@malformed_zone_ignored RefMath.math Sample.line []
           [Sample.zone None] []
           (mkFlood (Some [Sample.pA; Sample.pB]) (Some (Fin 3))) "A" "B").
  reflexivity.
Defined.

(** ** The node map of the route handler *)

Lemma set_well_keyed (nodes : obj Node) (n : Node) :
  well_keyed nodes = true -> well_keyed (set (id n) n nodes) = true.
Proof.
  unfold well_keyed. induction nodes as [| [k v] nodes IH]; simpl.
  - intros _. now rewrite String.eqb_refl.
  - intros H. apply andb_prop in H. destruct H as [H1 H2].
    destruct (String.eqb (id n) k) eqn:E; simpl.
    + now rewrite String.eqb_refl, H2.
    + now rewrite H1, IH.
Qed.

Lemma loadNodes_fold_well_keyed (docs : list RoadDoc) (nodes : obj Node) :
  well_keyed nodes = true ->
  well_keyed (fold_left load_node docs nodes) = true.
Proof.
  revert nodes. induction docs as [| d docs IH]; simpl; intros nodes W;
    trivial.
  apply IH. unfold load_node.
  destruct (String.eqb (doc_id d) "__proto__"); trivial.
  exact (set_well_keyed nodes (node_of_doc d) W).
Qed.

Lemma loadNodes_fold_keeps (docs : list RoadDoc) (nodes : obj Node)
      (k : string) :
  get k nodes <> None -> get k (fold_left load_node docs nodes) <> None.
Proof.
  revert nodes. induction docs as [| d docs IH]; simpl; intros nodes G;
    trivial.
  apply IH. unfold load_node.
  destruct (String.eqb (doc_id d) "__proto__"); trivial.
  destruct (string_dec k (doc_id d)) as [-> | N].
  - rewrite get_set_same. discriminate.
  - now rewrite get_set_other.
Qed.

Lemma loadNodes_fold_get (docs : list RoadDoc) (nodes : obj Node)
      (k : string) (n : Node) :
  get k (fold_left load_node docs nodes) = Some n ->
  get k nodes = Some n \/
  exists d, In d docs /\ doc_id d = k /\ n = node_of_doc d.
Proof.
  revert nodes. induction docs as [| d docs IH]; simpl; intros nodes G;
    auto.
  destruct (IH _ G) as [H | [d' [I [E1 E2]]]]; [| right; eauto].
  unfold load_node in H.
  destruct (String.eqb (doc_id d) "__proto__"); auto.
  destruct (string_dec k (doc_id d)) as [-> | N].
  - rewrite get_set_same in H. injection H as <-. right. eauto.
  - rewrite get_set_other in H by trivial. auto.
Qed.

Lemma neighbor_id_normalize (n : NeighborRef) :
  neighbor_id (normalize_ref n) = neighbor_id n.
Proof.
  destruct n as [s | i]; simpl; trivial. now destruct (truthy_string i).
Qed.

Section Handler.

Context {M : JSMath}.

(** X15. The node map that the route handler builds from road documents
    of ids other than ["__proto__"] (the data store admits no such id),
    whatever else they hold: every node in it is stored under its own id
    and comes from a document of that id, with the document's coordinates
    and with neighbour references that name the same ids as the
    document's; the map is empty, the handler's first reason to fall back
    on the external router, only when there is no document; and on it
    [computeSafeRoute] returns a result for every traffic list and every
    flood list of records: it reaches no bound and reads no field of a
    node that is [undefined]. *)
Theorem handler_route_returns (docs : list RoadDoc)
        (trafficList : option (list (option TrafficRecord)))
        (floodsList : option (list FloodZone)) (srcPoint dstPoint : Point) :
  plain_doc_ids docs = true ->
  (forall k n,
      get k (loadNodes docs) = Some n ->
      exists d, In d docs /\ doc_id d = k /\ id n = k /\
                n_lat n = d_lat d /\ n_lng n = d_lng d /\
                map neighbor_id (or_empty (neighbors n))
                = map neighbor_id (or_empty (d_neighbors d))) /\
  (length (ownKeys (loadNodes docs)) = 0%nat <-> docs = []) /\
  exists r,
    computeSafeRoute (loadNodes docs) trafficList floodsList
                     srcPoint dstPoint = Returns r.
Proof.
  intros P.
  assert (W : well_keyed (loadNodes docs) = true)
    by now apply loadNodes_fold_well_keyed.
  split; [| split].
  - intros k n G.
    destruct (loadNodes_fold_get _ _ _ _ G) as [H | [d [I [E1 E2]]]];
      [discriminate |].
    exists d. subst n. cbn [node_of_doc id n_lat n_lng neighbors or_empty].
    rewrite map_map.
    split; [exact I |]. split; [exact E1 |]. split; [exact E1 |].
    split; [reflexivity |]. split; [reflexivity |].
    apply map_ext. intros a. apply neighbor_id_normalize.
  - unfold ownKeys. rewrite length_map.
    rewrite (Permutation_length (ownEntries_perm _ (loadNodes docs))).
    destruct docs as [| d docs]; [simpl; tauto |].
    split; [| discriminate]. intros L. exfalso.
    assert (G : get (doc_id d) (loadNodes (d :: docs)) <> None).
    { unfold loadNodes. cbn [fold_left]. apply loadNodes_fold_keeps.
      unfold load_node. simpl in P. apply andb_prop in P.
      destruct P as [P _]. apply negb_true_iff in P. rewrite P.
      simpl. rewrite String.eqb_refl. discriminate. }
    destruct (loadNodes (d :: docs)); [now apply G | discriminate].
  - now apply computeSafeRoute_returns.
Qed.

End Handler.

(** [handler_route_returns] on the road documents of the triangle, one of
    them listing a neighbour as an object. *)
Lemma handler_route_returns_witness :
  (length (ownKeys (loadNodes Store.roads)) = 0%nat <->
   Store.roads = []) /\
  exists r,
    @computeSafeRoute RefMath.math (loadNodes Store.roads) Detour.jams
                      None Sample.pA Sample.pC = Returns r.
Proof.
  exact (proj2 (@handler_route_returns RefMath.math Store.roads
                  Detour.jams None Sample.pA Sample.pC eq_refl)).
Defined.
